(** * EFX allocation engine for four players: a shallow embedding

    The development follows the Python sources under [src/src]:
    [player.py], [allocation_model.py], [allocation_manager.py],
    [allocation_checker.py] and [allocation_finder.py].

    Modelling conventions.
    - Python floats are modelled by exact rationals [Q]; [==] on floats is
      [Qeq_bool], [<=] is [Qle_bool]. [float('inf')] as an initial value of a
      running minimum is modelled by [None] in an [option Q].
    - Python exceptions are modelled by the [result] monad below.
    - Dictionaries keyed by player names or goods are [gmap string _];
      lists are lists; the champion graph keeps its insertion order as an
      association list because the source iterates over it.
    - [print] calls have no effect on the values computed and are omitted. *)

From Stdlib Require Import QArith Qminmax Qabs Lqa.
From Stdlib Require OrderedTypeEx.
From stdpp Require Import gmap strings list fin_maps sorting.

Local Open Scope string_scope.

(** ** Exceptions and the result monad *)

Inductive phase2_failure : Type :=
  | CycleDetected
  | Exhausted (final_efx_envy : Q).

Inductive exn : Type :=
  | ValueError
  | KeyError (key : string)
  | IndexError
  | ZeroDivisionError
  | StatisticsError
  | StopIteration
  | RecursionError
  | RuntimeError (why : phase2_failure).

Inductive result (A : Type) : Type :=
  | Ok (a : A)
  | Raise (e : exn).
Arguments Ok {A} a.
Arguments Raise {A} e.

#[global] Instance result_ret : MRet result := λ A a, Ok a.
#[global] Instance result_bind : MBind result := λ A B f m,
  match m with
  | Ok a => f a
  | Raise e => Raise e
  end.

Definition is_Ok {A} (r : result A) : Prop := ∃ a, r = Ok a.

(** [for x in l: s = body(s, x)] with exceptions propagating. *)
Fixpoint for_each {S A : Type} (body : S → A → result S) (l : list A) (s : S)
  : result S :=
  match l with
  | [] => Ok s
  | x :: rest => s' ← body s x; for_each body rest s'
  end.

(** ** Numbers *)

Definition Qltb (x y : Q) : bool := negb (Qle_bool y x).

(** [x / y] on floats raises [ZeroDivisionError] when [y == 0]. *)
Definition py_div (x y : Q) : result Q :=
  if Qeq_bool y 0 then Raise ZeroDivisionError else Ok (x / y)%Q.

(** [sum(l)]: a left fold starting from [0]. *)
Definition py_sum (l : list Q) : Q := fold_left Qplus l 0%Q.

(** [max(0.0, x)]: Python's [max] returns the first argument unless a later
    one is strictly greater. *)
Definition max0 (x : Q) : Q := if Qltb 0 x then x else 0%Q.

(** ** Dictionaries and lists *)

(** [d[k]] *)
Definition dict_get {V} (d : gmap string V) (k : string) : result V :=
  match d !! k with
  | Some v => Ok v
  | None => Raise (KeyError k)
  end.

(** Truthiness of a dictionary: [if d:] holds when [d] is not empty. *)
Definition dict_truthy {V} (d : gmap string V) : bool :=
  negb (bool_decide (map_to_list d = [])).

(** [{k: f(k, v) for k, v in d.items()}] *)
Definition dict_comprehension {V W} (f : string → V → result W)
    (d : gmap string V) : result (gmap string W) :=
  map_fold (λ k v acc, m ← acc; w ← f k v; Ok (<[k := w]> m)) (Ok ∅) d.

(** [l.remove(x)]: drops the first occurrence, [ValueError] when absent. *)
Fixpoint list_remove (x : string) (l : list string) : result (list string) :=
  match l with
  | [] => Raise ValueError
  | y :: rest =>
      if bool_decide (y = x) then Ok rest
      else rest' ← list_remove x rest; Ok (y :: rest')
  end.

(** [[g for g in l if g != x]] *)
Definition without (x : string) (l : list string) : list string :=
  filter (λ g, g ≠ x) l.

(** [l[0]] *)
Definition first_item {A} (l : list A) : result A :=
  match l with
  | [] => Raise IndexError
  | x :: _ => Ok x
  end.

(** [l[:n]] for an integer [n] that may be negative. *)
Definition slice_to {A} (n : Z) (l : list A) : list A :=
  if (0 <=? n)%Z then take (Z.to_nat n) l
  else take (length l - Z.to_nat (- n)) l.

(** ** player.py *)

Record Player : Type := mkPlayer {
  name : string;
  valuation : gmap string Q;
  normalized_valuation : option (gmap string Q);
  std_deviation : option Q
}.

(** [Player(name, valuation)] *)
Definition Player_init (n : string) (v : gmap string Q) : Player :=
  mkPlayer n v None None.

(** [Player.get_valuation] *)
Definition get_valuation (p : Player) (good : string) : result Q :=
  match normalized_valuation p with
  | Some nv => if dict_truthy nv then dict_get nv good
               else dict_get (valuation p) good
  | None => dict_get (valuation p) good
  end.

(** [Player.get_std_deviation] *)
Definition get_std_deviation (p : Player) : Q :=
  match std_deviation p with
  | Some s => s
  | None => 0%Q
  end.

(** [sum(player.get_valuation(g) for g in bundle)] *)
Fixpoint sum_valuations (p : Player) (bundle : list string) (acc : Q)
  : result Q :=
  match bundle with
  | [] => Ok acc
  | g :: rest => v ← get_valuation p g; sum_valuations p rest (acc + v)%Q
  end.

Definition bundle_value (p : Player) (bundle : list string) : result Q :=
  sum_valuations p bundle 0%Q.

(** ** allocation_model.py *)

Record Allocation : Type := mkAllocation {
  assignments : gmap string (list string);
  utilities : gmap string Q
}.

(** [Allocation()] *)
Definition Allocation_init : Allocation := mkAllocation ∅ ∅.

Definition get_assignment (a : Allocation) (player_name : string)
  : list string :=
  default [] (assignments a !! player_name).

Definition get_utility (a : Allocation) (player_name : string) : Q :=
  default 0%Q (utilities a !! player_name).

Definition set_assignment (a : Allocation) (player_name : string)
    (goods : list string) : Allocation :=
  mkAllocation (<[player_name := goods]> (assignments a)) (utilities a).

Definition set_utility (a : Allocation) (player_name : string) (u : Q)
  : Allocation :=
  mkAllocation (assignments a) (<[player_name := u]> (utilities a)).

(** ** allocation_manager.py *)

Record AllocationManager : Type := mkManager {
  manager_players : list Player;
  manager_goods : list string
}.

Definition AllocationManager_init (players : list Player)
    (goods : list string) : result AllocationManager :=
  if bool_decide (length players ≠ 4) then Raise ValueError
  else Ok (mkManager players goods).

(** [AllocationManager.calculate_utilities] *)
Definition calculate_utilities (players : list Player) (a : Allocation)
  : result Allocation :=
  for_each (λ a player,
      u ← bundle_value player (get_assignment a (name player));
      Ok (set_utility a (name player) u))
    players a.

(** ** allocation_checker.py *)

Record AllocationChecker : Type := mkChecker {
  checker_players : list Player
}.

Definition AllocationChecker_init (players : list Player)
  : result AllocationChecker :=
  if bool_decide (length players ≠ 4) then Raise ValueError
  else Ok (mkChecker players).

(** ** allocation_finder.py: construction *)

Record AllocationFinder : Type := mkFinder {
  finder_manager : AllocationManager;
  finder_checker : AllocationChecker;
  players : list Player;
  goods : list string
}.

Definition AllocationFinder_init (manager : AllocationManager)
    (checker : AllocationChecker) : result AllocationFinder :=
  if bool_decide (length (manager_players manager) ≠ 4) then Raise ValueError
  else Ok (mkFinder manager checker
             (manager_players manager) (manager_goods manager)).

(** ** player.py: normalisation *)

(** [list(d.values())] *)
Definition dict_values {V} (d : gmap string V) : list V := (map_to_list d).*2.

Definition Q_of_nat (n : nat) : Q := inject_Z (Z.of_nat n).

Section Numerics.

(** The floating-point square root used by [statistics.stdev]; the
    development is parametric in it. *)
Variable sqrt : Q → Q.

(** [statistics.stdev(data)]: the square root of the sample variance;
    [StatisticsError] with fewer than two data points. *)
Definition statistics_stdev (data : list Q) : result Q :=
  if bool_decide (length data < 2)%nat then Raise StatisticsError
  else
    let n := Q_of_nat (length data) in
    let mean := (py_sum data / n)%Q in
    let ss := py_sum ((λ x, (x - mean) * (x - mean))%Q <$> data) in
    Ok (sqrt (ss / (n - 1))%Q).

(** [Player.normalize_valuations] *)
Definition normalize_valuations (p : Player) (target : Q) : result Player :=
  let current_sum := py_sum (dict_values (valuation p)) in
  nv ← (if Qeq_bool current_sum 0 then
          dict_comprehension
            (λ good _, py_div target (Q_of_nat (size (valuation p))))
            (valuation p)
        else
          scaling_factor ← py_div target current_sum;
          dict_comprehension
            (λ good value, Ok (value * scaling_factor)%Q)
            (valuation p));
  let normalized_values := dict_values nv in
  sd ← (if bool_decide (1 < length normalized_values)%nat
        then statistics_stdev normalized_values
        else Ok 0%Q);
  Ok (mkPlayer (name p) (valuation p) (Some nv) (Some sd)).

(** The dispersion statistic as the specification words it: the sample
    standard deviation (divisor [n - 1]) of the values, and [0] when there
    is only one value. *)
Definition sample_variance (values : list Q) : Q :=
  let n := Q_of_nat (length values) in
  let mean := (py_sum values / n)%Q in
  (py_sum ((λ x, (x - mean) * (x - mean))%Q <$> values) / (n - 1))%Q.

Definition spec_dispersion (values : list Q) : Q :=
  if bool_decide (length values ≤ 1)%nat then 0%Q
  else sqrt (sample_variance values).

End Numerics.

(** ** allocation_checker.py: the EFX predicate *)

(** The inner loop over [good_to_remove]; the result is the final value of
    [envy_detected]. *)
Fixpoint envy_after_any_removal (player_i : Player) (player_i_utility : Q)
    (player_j_goods : list string) (to_remove : list string) : result bool :=
  match to_remove with
  | [] => Ok true
  | good_to_remove :: rest =>
      reduced ← bundle_value player_i (without good_to_remove player_j_goods);
      if Qle_bool reduced player_i_utility then Ok false
      else envy_after_any_removal player_i player_i_utility
             player_j_goods rest
  end.

(** The loop over [j] for a fixed [i]; [false] is the early [return False]. *)
Fixpoint check_EFX_row (allocation : Allocation) (i : nat) (player_i : Player)
    (js : list (nat * Player)) : result bool :=
  match js with
  | [] => Ok true
  | (j, player_j) :: rest =>
      if bool_decide (i = j) then check_EFX_row allocation i player_i rest
      else
        let player_i_utility := get_utility allocation (name player_i) in
        let player_j_goods := get_assignment allocation (name player_j) in
        match player_j_goods with
        | [] => check_EFX_row allocation i player_i rest
        | _ =>
            envy_detected ← envy_after_any_removal player_i player_i_utility
                              player_j_goods player_j_goods;
            if (envy_detected : bool) then Ok false
            else check_EFX_row allocation i player_i rest
        end
  end.

Fixpoint check_EFX_rows (allocation : Allocation)
    (outer : list (nat * Player)) (all : list (nat * Player)) : result bool :=
  match outer with
  | [] => Ok true
  | (i, player_i) :: rest =>
      ok ← check_EFX_row allocation i player_i all;
      if (ok : bool) then check_EFX_rows allocation rest all else Ok false
  end.

(** [enumerate(l)] *)
Definition enumerate {A} (l : list A) : list (nat * A) := imap pair l.

(** [AllocationChecker.check_EFX] *)
Definition check_EFX (self : AllocationChecker) (allocation : Allocation)
  : result bool :=
  check_EFX_rows allocation (enumerate (checker_players self))
    (enumerate (checker_players self)).

(** ** allocation_finder.py: envy matrices *)

(** The three values threaded through the matrix loops:
    the matrix, the running total and the per-player totals. *)
Definition envy_state : Type :=
  gmap string (gmap string Q) * Q * gmap string Q.

(** [matrix[i][j] = v] *)
Definition matrix_set (m : gmap string (gmap string Q)) (i j : string) (v : Q)
  : result (gmap string (gmap string Q)) :=
  row ← dict_get m i; Ok (<[i := <[j := v]> row]> m).

(** [totals[i] += v] *)
Definition totals_add (t : gmap string Q) (i : string) (v : Q)
  : result (gmap string Q) :=
  old ← dict_get t i; Ok (<[i := (old + v)%Q]> t).

Definition envy_cell (allocation : Allocation) (player_i : Player)
    (player_i_utility : Q) (st : envy_state) (player_j : Player)
  : result envy_state :=
  let '(envy_matrix, total_envy, individual) := st in
  if bool_decide (name player_i = name player_j) then
    m ← matrix_set envy_matrix (name player_i) (name player_j) 0%Q;
    Ok (m, total_envy, individual)
  else
    let player_j_bundle := get_assignment allocation (name player_j) in
    v ← bundle_value player_i player_j_bundle;
    let envy := max0 (v - player_i_utility) in
    m ← matrix_set envy_matrix (name player_i) (name player_j) envy;
    t ← totals_add individual (name player_i) envy;
    Ok (m, (total_envy + envy)%Q, t).

Definition envy_row (all_players : list Player) (allocation : Allocation)
    (st : envy_state) (player_i : Player) : result envy_state :=
  let '(envy_matrix, total_envy, individual) := st in
  let st0 := (<[name player_i := ∅]> envy_matrix, total_envy,
              <[name player_i := 0%Q]> individual) in
  let player_i_bundle := get_assignment allocation (name player_i) in
  player_i_utility ← bundle_value player_i player_i_bundle;
  for_each (envy_cell allocation player_i player_i_utility) all_players st0.

(** [AllocationFinder._calculate_envy_matrix] *)
Definition _calculate_envy_matrix (all_players : list Player)
    (allocation : Allocation) : result envy_state :=
  for_each (envy_row all_players allocation) all_players (∅, 0%Q, ∅).

(** The search for the item of [bundle] that [player_i] values least:
    [None] stands for the initial [(None, float('inf'))]. *)
Definition least_step (player_i : Player) (best : option (string * Q))
    (good : string) : result (option (string * Q)) :=
  value ← get_valuation player_i good;
  match best with
  | None => Ok (Some (good, value))
  | Some (least_valued_item, least_value) =>
      if Qltb value least_value then Ok (Some (good, value))
      else Ok (Some (least_valued_item, least_value))
  end.

Definition find_least_valued (player_i : Player) (bundle : list string)
  : result (option (string * Q)) :=
  for_each (least_step player_i) bundle None.

(** [[g for g in bundle if g != least_valued_item]] where the item may
    still be Python's [None]. *)
Definition without_item (item : option string) (bundle : list string)
  : list string :=
  match item with
  | Some x => without x bundle
  | None => bundle
  end.

Definition efx_envy_cell (allocation : Allocation) (player_i : Player)
    (player_i_utility : Q) (st : envy_state) (player_j : Player)
  : result envy_state :=
  let '(efx_envy_matrix, total_efx_envy, individual) := st in
  if bool_decide (name player_i = name player_j) then
    m ← matrix_set efx_envy_matrix (name player_i) (name player_j) 0%Q;
    Ok (m, total_efx_envy, individual)
  else
    let player_j_bundle := get_assignment allocation (name player_j) in
    match player_j_bundle with
    | [] =>
        m ← matrix_set efx_envy_matrix (name player_i) (name player_j) 0%Q;
        Ok (m, total_efx_envy, individual)
    | _ =>
        least ← find_least_valued player_i player_j_bundle;
        reduced_bundle_value ←
          bundle_value player_i (without_item (fst <$> least) player_j_bundle);
        let efx_envy := max0 (reduced_bundle_value - player_i_utility) in
        m ← matrix_set efx_envy_matrix (name player_i) (name player_j) efx_envy;
        t ← totals_add individual (name player_i) efx_envy;
        Ok (m, (total_efx_envy + efx_envy)%Q, t)
    end.

Definition efx_envy_row (all_players : list Player) (allocation : Allocation)
    (st : envy_state) (player_i : Player) : result envy_state :=
  let '(efx_envy_matrix, total_efx_envy, individual) := st in
  let st0 := (<[name player_i := ∅]> efx_envy_matrix, total_efx_envy,
              <[name player_i := 0%Q]> individual) in
  let player_i_bundle := get_assignment allocation (name player_i) in
  player_i_utility ← bundle_value player_i player_i_bundle;
  for_each (efx_envy_cell allocation player_i player_i_utility)
    all_players st0.

(** [AllocationFinder._calculate_efx_envy_matrix] *)
Definition _calculate_efx_envy_matrix (all_players : list Player)
    (allocation : Allocation) : result envy_state :=
  for_each (efx_envy_row all_players allocation) all_players (∅, 0%Q, ∅).

(** Total EFX-envy and total envy, the second components. *)
Definition total_efx_envy_of (all_players : list Player)
    (allocation : Allocation) : result Q :=
  st ← _calculate_efx_envy_matrix all_players allocation; Ok (st.1.2).

Definition total_envy_of (all_players : list Player)
    (allocation : Allocation) : result Q :=
  st ← _calculate_envy_matrix all_players allocation; Ok (st.1.2).

(** ** Specification-level vocabulary *)

(** [v_p(g)]: the value [get_valuation] returns, [0] where it raises. *)
Definition value_of (p : Player) (g : string) : Q :=
  match get_valuation p g with
  | Ok v => v
  | Raise _ => 0%Q
  end.

(** [v_p(bundle)] *)
Definition total_value (p : Player) (bundle : list string) : Q :=
  py_sum (value_of p <$> bundle).

(** Player [p] has a valuation entry for every good of [bundle]. *)
Definition knows_goods (p : Player) (bundle : list string) : Prop :=
  ∀ g, g ∈ bundle → is_Ok (get_valuation p g).

(** Every player values every good held by anybody. *)
Definition valuations_cover (ps : list Player) (a : Allocation) : Prop :=
  ∀ p q, p ∈ ps → q ∈ ps → knows_goods p (get_assignment a (name q)).

(** The cached utilities are the bundle values (the AllocationState
    invariant of the data model). *)
Definition utilities_consistent (ps : list Player) (a : Allocation) : Prop :=
  ∀ p, p ∈ ps →
    (get_utility a (name p) == total_value p (get_assignment a (name p)))%Q.

(** An EFX violation as the specification words it: an ordered pair of
    distinct players [(i, j)] with [bundle_j] nonempty such that for every
    good [g] of [bundle_j], [v_i(bundle_j minus g) > v_i(bundle_i)]. *)
Definition EFX_violation (ps : list Player) (a : Allocation) : Prop :=
  ∃ (i j : nat) (player_i player_j : Player),
    i ≠ j ∧ ps !! i = Some player_i ∧ ps !! j = Some player_j ∧
    get_assignment a (name player_j) ≠ [] ∧
    ∀ g, g ∈ get_assignment a (name player_j) →
      (total_value player_i (get_assignment a (name player_i))
       < total_value player_i (without g (get_assignment a (name player_j))))%Q.

(** ** The four-good scenario of the tests ([tests/test_efx_checker.py]) *)

Definition scenario_players : list Player :=
  [ Player_init "P1" {[ "A" := 5%Q; "B" := 3%Q; "C" := 1%Q; "D" := 2%Q ]};
    Player_init "P2" {[ "A" := 2%Q; "B" := 5%Q; "C" := 3%Q; "D" := 1%Q ]};
    Player_init "P3" {[ "A" := 1%Q; "B" := 2%Q; "C" := 5%Q; "D" := 3%Q ]};
    Player_init "P4" {[ "A" := 3%Q; "B" := 1%Q; "C" := 2%Q; "D" := 5%Q ]} ].

(** [AllocationFinder._normalize_all_valuations]: every player normalised
    in turn (the source updates the players in place). *)
Definition _normalize_all_valuations (sqrt : Q → Q) (target : Q)
    (ps : list Player) : result (list Player) :=
  mapM (λ p, normalize_valuations sqrt p target) ps.

(** An allocation given by four bundles, built as the tests build it and
    with utilities computed by the manager. *)
Definition scenario_allocation (ps : list Player)
    (b1 b2 b3 b4 : list string) : result Allocation :=
  calculate_utilities ps
    (set_assignment (set_assignment (set_assignment (set_assignment
       Allocation_init "P1" b1) "P2" b2) "P3" b3) "P4" b4).

Definition scenario_check (sqrt : Q → Q) (b1 b2 b3 b4 : list string)
  : result bool :=
  ps ← _normalize_all_valuations sqrt 1%Q scenario_players;
  a ← scenario_allocation ps b1 b2 b3 b4;
  check_EFX (mkChecker ps) a.

(** The first test case as the test writes it: raw valuations and
    utilities entered by hand. *)
Definition test_case_1_allocation : Allocation :=
  set_utility (set_utility (set_utility (set_utility
    (set_assignment (set_assignment (set_assignment (set_assignment
       Allocation_init "P1" ["A"]) "P2" ["B"]) "P3" ["C"]) "P4" ["D"])
    "P1" 5%Q) "P2" 5%Q) "P3" 5%Q) "P4" 5%Q.

(** ** Envy matrices: specification-level entries *)

(** [matrix[i][j]], when present. *)
Definition matrix_entry (m : gmap string (gmap string Q)) (i j : string)
  : option Q :=
  m !! i ≫= λ row, row !! j.

(** The item of [bundle] that [p] values least, the first one among ties;
    [None] on the empty bundle. *)
Definition least_valued (p : Player) (bundle : list string)
  : option (string * Q) :=
  foldl (λ best good,
           match best with
           | None => Some (good, value_of p good)
           | Some (item, least) =>
               if Qltb (value_of p good) least
               then Some (good, value_of p good) else Some (item, least)
           end)
        None bundle.

(** [envy(i,j) = max(0, v_i(bundle_j) - v_i(bundle_i))], [0] on the
    diagonal. *)
Definition envy_entry (a : Allocation) (player_i player_j : Player) : Q :=
  if bool_decide (name player_i = name player_j) then 0%Q
  else max0 (total_value player_i (get_assignment a (name player_j))
             - total_value player_i (get_assignment a (name player_i))).

(** [efx_envy(i,j)]: as [envy(i,j)] with the least valued item removed from
    [bundle_j]; [0] on the diagonal and for an empty [bundle_j]. *)
Definition efx_envy_entry (a : Allocation) (player_i player_j : Player) : Q :=
  if bool_decide (name player_i = name player_j) then 0%Q
  else
    match get_assignment a (name player_j) with
    | [] => 0%Q
    | bundle_j =>
        max0 (total_value player_i
                (without_item (fst <$> least_valued player_i bundle_j) bundle_j)
              - total_value player_i (get_assignment a (name player_i)))
    end.

(** Valuations of held goods are nonnegative (the input contract). *)
Definition nonnegative_valuations (ps : list Player) (a : Allocation) : Prop :=
  ∀ p q g, p ∈ ps → q ∈ ps → g ∈ get_assignment a (name q) →
    (0 <= value_of p g)%Q.

(** An allocation of the scenario in which [P1] holds [B] and [P2] holds
    the single good [A], which [P1] values more. *)
Definition singleton_envy_allocation : Allocation :=
  set_assignment (set_assignment (set_assignment (set_assignment
    Allocation_init "P1" ["B"]) "P2" ["A"]) "P3" ["C"]) "P4" ["D"].

(** ** config.py: the values the phases read *)

Record Config : Type := mkConfig {
  normalization_target : Q;       (* algorithm.normalization.target *)
  phase_1a_tie_tolerance : Q;     (* algorithm.phase_1a.tie_tolerance *)
  max_sacrifice_threshold : Q;    (* algorithm.phase_1a.max_sacrifice_threshold *)
  top_options_to_consider : Z;    (* algorithm.phase_1a.top_options_to_consider *)
  phase_1b_tie_tolerance : Q      (* algorithm.phase_1b.tie_tolerance *)
}.

(** The defaults passed to [config.get]. *)
Definition default_config : Config :=
  mkConfig 1%Q (1 # 1000)%Q (2 # 10)%Q 3%Z (1 # 1000)%Q.

(** ** Sorting as [list.sort(key=..., reverse=True)]: descending by key,
    items with equal keys keep their original order. *)

Fixpoint insert_desc {A} (key : A → Q) (x : A) (l : list A) : list A :=
  match l with
  | [] => [x]
  | y :: rest =>
      if Qltb (key x) (key y) then y :: insert_desc key x rest
      else x :: y :: rest
  end.

Definition sort_desc {A} (key : A → Q) (l : list A) : list A :=
  foldr (insert_desc key) [] l.

(** ** allocation_finder.py: Phase 1A *)

(** The option dictionaries: [{'good', 'value'}], to which
    [_choose_with_consideration] adds [sacrifice], [benefit] and
    [consideration_score]. *)
Record Metrics : Type := mkMetrics {
  sacrifice : Q;
  benefit : Q;
  consideration_score : Q
}.

Record Choice : Type := mkChoice {
  good : string;
  value : Q;
  metrics : option Metrics
}.

(** Equality of two option dictionaries, as [==] on dicts of floats. *)
Definition metrics_eqb (m1 m2 : Metrics) : bool :=
  Qeq_bool (sacrifice m1) (sacrifice m2) &&
  Qeq_bool (benefit m1) (benefit m2) &&
  Qeq_bool (consideration_score m1) (consideration_score m2).

Definition choice_eqb (c1 c2 : Choice) : bool :=
  bool_decide (good c1 = good c2) && Qeq_bool (value c1) (value c2) &&
  match metrics c1, metrics c2 with
  | Some m1, Some m2 => metrics_eqb m1 m2
  | None, None => true
  | _, _ => false
  end.

(** [c in l] *)
Definition choice_in (c : Choice) (l : list Choice) : bool :=
  existsb (choice_eqb c) l.

(** [AllocationFinder._get_top_options] *)
Definition _get_top_options (player : Player) (available_goods : list string)
    (top_n : Z) : result (list Choice) :=
  options ← mapM (λ g, v ← get_valuation player g; Ok (mkChoice g v None))
               available_goods;
  Ok (slice_to top_n (sort_desc value options)).

(** Truthiness of a good identifier: the empty string is false. *)
Definition str_truthy (s : string) : bool := negb (bool_decide (s = "")).

(** The search for a player's best good among [simulated_goods], starting
    from [(best_value, best_good) = (0, None)]. *)
Definition best_pick_step (player : Player) (st : Q * option string)
    (g : string) : result (Q * option string) :=
  v ← get_valuation player g;
  if Qltb st.1 v then Ok (v, Some g) else Ok st.

Definition best_pick (player : Player) (simulated_goods : list string)
  : result (Q * option string) :=
  for_each (best_pick_step player) simulated_goods (0%Q, None).

(** The loop of [_calculate_future_benefit] over the remaining players. *)
Fixpoint simulate_picks (remaining_players : list Player)
    (total_benefit : Q) (simulated_goods : list string) : result Q :=
  match remaining_players with
  | [] => Ok total_benefit
  | player :: rest =>
      match simulated_goods with
      | [] => Ok total_benefit
      | _ =>
          pick ← best_pick player simulated_goods;
          match pick.2 with
          | Some best_good =>
              if str_truthy best_good then
                goods' ← list_remove best_good simulated_goods;
                simulate_picks rest (total_benefit + pick.1)%Q goods'
              else simulate_picks rest total_benefit simulated_goods
          | None => simulate_picks rest total_benefit simulated_goods
          end
      end
  end.

(** [AllocationFinder._calculate_future_benefit] *)
Definition _calculate_future_benefit (remaining_players : list Player)
    (remaining_goods : list string) : result Q :=
  match remaining_players, remaining_goods with
  | [], _ => Ok 0%Q
  | _, [] => Ok 0%Q
  | _, _ =>
      total_benefit ← simulate_picks remaining_players 0%Q remaining_goods;
      py_div total_benefit (Q_of_nat (length remaining_players))
  end.

(** [max(l)] on a list of floats; [ValueError] on the empty list. *)
Definition py_max (l : list Q) : result Q :=
  match l with
  | [] => Raise ValueError
  | x :: rest => Ok (foldl (λ acc y, if Qltb acc y then y else acc) x rest)
  end.

(** The opportunity cost of taking [current_good] for [next_player]. *)
Definition opportunity_cost (next_player : Player)
    (available_goods : list string) (current_good : string) : result Q :=
  let remaining_after_choice := without current_good available_goods in
  match remaining_after_choice with
  | [] => v ← get_valuation next_player current_good; Ok (- v)%Q
  | _ =>
      this_good_value ← get_valuation next_player current_good;
      values ← mapM (get_valuation next_player) remaining_after_choice;
      best_alternative_value ← py_max values;
      Ok (this_good_value - best_alternative_value)%Q
  end.

(** The loop of the tie-break: the state is [(best_option, lowest)] with
    [None] for the initial [float('inf')]. *)
Definition tie_step (next_player : Player) (available_goods : list string)
    (st : Choice * option Q) (opt : Choice) : result (Choice * option Q) :=
  cost ← opportunity_cost next_player available_goods (good opt);
  match st.2 with
  | None => Ok (opt, Some cost)
  | Some lowest =>
      if Qltb cost lowest then Ok (opt, Some cost) else Ok st
  end.

(** [AllocationFinder._break_tie_with_opportunity_cost] *)
Definition _break_tie_with_opportunity_cost (tied_options : list Choice)
    (remaining_players : list Player) (available_goods : list string)
  : result Choice :=
  match remaining_players with
  | [] => first_item tied_options
  | next_player :: _ =>
      first ← first_item tied_options;
      st ← for_each (tie_step next_player available_goods) tied_options
             (first, None);
      Ok st.1
  end.

(** The state of the scan in [_choose_with_consideration]. *)
Record Scan : Type := mkScan {
  best_choice : Choice;
  best_score : Q;
  tied_options : list Choice
}.

Definition sacrifice_of (best_value current_value : Q) : Q :=
  (best_value - current_value)%Q.

(** [sacrifice / best_value if best_value > 0 else 0] *)
Definition sacrifice_ratio_of (best_value current_value : Q) : result Q :=
  if Qltb 0 best_value
  then py_div (sacrifice_of best_value current_value) best_value
  else Ok 0%Q.

Definition consider_option (cfg : Config) (remaining_players : list Player)
    (available_goods : list string) (max_sacrifice : Q) (best_value : Q)
    (st : Scan) (opt : Choice) : result Scan :=
  let current_good := good opt in
  let current_value := value opt in
  let sacrifice := sacrifice_of best_value current_value in
  sacrifice_ratio ← sacrifice_ratio_of best_value current_value;
  if Qltb max_sacrifice sacrifice_ratio then Ok st
  else
    let remaining_goods_after_choice := without current_good available_goods in
    benefit_score ← _calculate_future_benefit remaining_players
                      remaining_goods_after_choice;
    let score := (benefit_score - sacrifice)%Q in
    let option_with_metrics :=
      mkChoice current_good current_value
        (Some (mkMetrics sacrifice benefit_score score)) in
    if Qltb (best_score st + phase_1a_tie_tolerance cfg) score then
      Ok (mkScan option_with_metrics score [option_with_metrics])
    else if Qle_bool (Qabs (score - best_score st)) (phase_1a_tie_tolerance cfg)
            && Qltb 0 (best_score st) then
      if choice_in option_with_metrics (tied_options st) then Ok st
      else Ok (mkScan (best_choice st) (best_score st)
                 (tied_options st ++ [option_with_metrics]))
    else Ok st.

(** [AllocationFinder._choose_with_consideration] *)
Definition _choose_with_consideration (cfg : Config)
    (player_options : list Choice) (remaining_players : list Player)
    (available_goods : list string) (max_sacrifice : Q) : result Choice :=
  best_option ← first_item player_options;
  let best_value := value best_option in
  st ← for_each (consider_option cfg remaining_players available_goods
                   max_sacrifice best_value)
         player_options (mkScan best_option 0%Q []);
  if bool_decide (1 < length (tied_options st))%nat then
    _break_tie_with_opportunity_cost (tied_options st) remaining_players
      available_goods
  else Ok (best_choice st).

(** [allocation[name].append(g)] on a dictionary of lists. *)
Definition dict_append (allocation : gmap string (list string))
    (k : string) (g : string) : result (gmap string (list string)) :=
  bundle ← dict_get allocation k; Ok (<[k := (bundle ++ [g])%list]> allocation).

(** The turns of the round robin: [ordered] are the players still to
    play, the current one first. *)
Fixpoint round_robin_turns (cfg : Config) (ordered : list Player)
    (allocation : gmap string (list string)) (available_goods : list string)
  : result (gmap string (list string)) :=
  match ordered with
  | [] => Ok allocation
  | current_player :: remaining_players =>
      match available_goods with
      | [] => Ok allocation
      | _ =>
          player_options ← _get_top_options current_player available_goods
                             (top_options_to_consider cfg);
          chosen_good ←
            match remaining_players with
            | [] => best_option ← first_item player_options;
                    Ok (good best_option)
            | _ => best ← _choose_with_consideration cfg player_options
                            remaining_players available_goods
                            (max_sacrifice_threshold cfg);
                   Ok (good best)
            end;
          allocation' ← dict_append allocation (name current_player) chosen_good;
          available' ← list_remove chosen_good available_goods;
          round_robin_turns cfg remaining_players allocation' available'
      end
  end.

(** [AllocationFinder._initial_round_robin_with_consideration] *)
Definition _initial_round_robin_with_consideration (cfg : Config)
    (all_players : list Player) (all_goods : list string)
  : result (gmap string (list string)) :=
  let allocation :=
    foldl (λ d player, <[name player := []]> d) ∅ all_players in
  let ordered_players := sort_desc get_std_deviation all_players in
  round_robin_turns cfg ordered_players allocation all_goods.

(** ** Phase 1A: specification-level vocabulary *)

(** The option dictionaries of a player over the available goods. *)
Definition plain_options (player : Player) (available_goods : list string)
  : list Choice :=
  (λ g, mkChoice g (value_of player g) None) <$> available_goods.

(** [future_benefit] of the remaining players on the remaining goods. *)
Definition future_benefit (remaining_players : list Player)
    (remaining_goods : list string) : Q :=
  match _calculate_future_benefit remaining_players remaining_goods with
  | Ok b => b
  | Raise _ => 0%Q
  end.

(** [sacrifice_ratio = (best_value - option_value) / best_value],
    [0] when [best_value] is not positive. *)
Definition sacrifice_ratio (best_value : Q) (opt : Choice) : Q :=
  if Qltb 0 best_value then ((best_value - value opt) / best_value)%Q
  else 0%Q.

(** An option survives when its ratio does not exceed the ceiling. *)
Definition survives (ceiling best_value : Q) (opt : Choice) : Prop :=
  (sacrifice_ratio best_value opt <= ceiling)%Q.

(** [consideration_score = future_benefit - sacrifice] *)
Definition score_of (remaining_players : list Player)
    (available_goods : list string) (best_value : Q) (opt : Choice) : Q :=
  (future_benefit remaining_players (without (good opt) available_goods)
   - (best_value - value opt))%Q.

(** The option dictionary with its metrics added. *)
Definition with_metrics (remaining_players : list Player)
    (available_goods : list string) (best_value : Q) (opt : Choice) : Choice :=
  mkChoice (good opt) (value opt)
    (Some (mkMetrics (best_value - value opt)%Q
             (future_benefit remaining_players
                (without (good opt) available_goods))
             (score_of remaining_players available_goods best_value opt))).

(** The opportunity cost of a good for the next player. *)
Definition cost_of (next_player : Player) (available_goods : list string)
    (g : string) : Q :=
  match opportunity_cost next_player available_goods g with
  | Ok c => c
  | Raise _ => 0%Q
  end.

Definition survivesb (ceiling best_value : Q) (opt : Choice) : bool :=
  negb (Qltb ceiling (sacrifice_ratio best_value opt)).

(** One iteration of the scan of [_choose_with_consideration], on values. *)
Definition scan_step (cfg : Config) (remaining_players : list Player)
    (available_goods : list string) (ceiling best_value : Q)
    (st : Scan) (opt : Choice) : Scan :=
  if Qltb ceiling (sacrifice_ratio best_value opt) then st
  else
    let owm := with_metrics remaining_players available_goods best_value opt in
    let score := score_of remaining_players available_goods best_value opt in
    if Qltb (best_score st + phase_1a_tie_tolerance cfg) score then
      mkScan owm score [owm]
    else if Qle_bool (Qabs (score - best_score st)) (phase_1a_tie_tolerance cfg)
            && Qltb 0 (best_score st) then
      if choice_in owm (tied_options st) then st
      else mkScan (best_choice st) (best_score st)
             (tied_options st ++ [owm])%list
    else st.

Section ScanInvariant.

Variables (cfg : Config) (remaining_players : list Player)
  (available_goods : list string) (ceiling best_value : Q)
  (best_option : Choice).

Let tol := phase_1a_tie_tolerance cfg.
Let sc := score_of remaining_players available_goods best_value.
Let wm := with_metrics remaining_players available_goods best_value.

(** A surviving option scanned after the winner [w] is tied with it when
    its score is no more than the tolerance below the winner's. *)
Definition near (w s : Choice) : bool :=
  survivesb ceiling best_value s && Qle_bool (sc w - tol) (sc s).

(** No scanned option has raised the running best score above [0 + tol]:
    the scan state is still the initial one. *)
Definition scan_untouched (scanned : list Choice) (st : Scan) : Prop :=
  st = mkScan best_option 0%Q [] ∧
  ∀ s, s ∈ scanned → survivesb ceiling best_value s = true → (sc s <= tol)%Q.

(** [w] is the last option that raised the running best score: the
    options before it score strictly less, those after it at most [tol]
    more, and the tied list is [w] followed by the later options near it. *)
Definition scan_won (scanned : list Choice) (st : Scan) : Prop :=
  ∃ before w after,
    scanned = (before ++ w :: after)%list ∧
    survivesb ceiling best_value w = true ∧
    (tol < sc w)%Q ∧
    (∀ s, s ∈ before → survivesb ceiling best_value s = true →
       (sc s < sc w)%Q) ∧
    (∀ s, s ∈ after → survivesb ceiling best_value s = true →
       (sc s <= sc w + tol)%Q) ∧
    st = mkScan (wm w) (sc w) (wm w :: (wm <$> filter (λ s, near w s) after)).

End ScanInvariant.

(** ** A second-turn state of Phase 1A with tiny future benefits

    Good [A] has been taken; the current player values [B] and [C] almost
    equally, and the two players still to pick care about little else
    than [A]. The tables sum to one. *)
Definition turn_current : Player :=
  Player_init "P2" {[ "A" := (30001 # 100000)%Q; "B" := (30000 # 100000)%Q;
                      "C" := (29999 # 100000)%Q; "D" := (10000 # 100000)%Q ]}.
Definition turn_next : Player :=
  Player_init "P3" {[ "A" := (99940 # 100000)%Q; "B" := (30 # 100000)%Q;
                      "C" := (10 # 100000)%Q; "D" := (20 # 100000)%Q ]}.
Definition turn_last : Player :=
  Player_init "P4" {[ "A" := (99940 # 100000)%Q; "B" := (30 # 100000)%Q;
                      "C" := (10 # 100000)%Q; "D" := (20 # 100000)%Q ]}.
Definition turn_goods : list string := ["B"; "C"; "D"].
Definition turn_option (g : string) : Choice :=
  mkChoice g (value_of turn_current g) None.

(** The bundle recorded for a player in an allocation dictionary, empty
    when there is none; and all goods assigned to the given players. *)
Definition bundle_of (allocation : gmap string (list string)) (p : Player)
  : list string :=
  default [] (allocation !! name p).

Definition assigned_goods (allocation : gmap string (list string))
    (ps : list Player) : list string :=
  concat (bundle_of allocation <$> ps).

(** ** allocation_finder.py: Phase 1B, the champion graph *)

(** The champion graph is a dictionary whose insertion order matters to
    the cycle search: an association list with unique keys. *)
Definition alist_lookup (k : string) (d : list (string * string))
  : option string :=
  match list_find (λ kv, kv.1 = k) d with
  | Some (_, (_, v)) => Some v
  | None => None
  end.

(** [d[k] = v]: replaces the value in place, or appends a new entry. *)
Fixpoint alist_insert (k v : string) (d : list (string * string))
  : list (string * string) :=
  match d with
  | [] => [(k, v)]
  | (k', v') :: rest =>
      if bool_decide (k' = k) then (k, v) :: rest
      else (k', v') :: alist_insert k v rest
  end.

(** [x < best] where [best] may still be [float('inf')]. *)
Definition below (x : Q) (best : option Q) : bool :=
  match best with
  | None => true
  | Some b => Qltb x b
  end.

(** The inner loop of [_build_champion_graph]: the state is
    [(best_champion, best_gain, best_current_utility)]. *)
Definition champion_step (allocation : gmap string (list string))
    (target_name : string) (target_bundle : list string)
    (st : option Player * Q * option Q) (potential_champion : Player)
  : result (option Player * Q * option Q) :=
  let '(best_champion, best_gain, best_current_utility) := st in
  if bool_decide (name potential_champion = target_name) then Ok st
  else
    current_bundle ← dict_get allocation (name potential_champion);
    current_value ← bundle_value potential_champion current_bundle;
    target_value ← bundle_value potential_champion target_bundle;
    let gain := (target_value - current_value)%Q in
    if Qltb best_gain gain
       || (Qeq_bool gain best_gain && below current_value best_current_utility)
    then Ok (Some potential_champion, gain, Some current_value)
    else Ok st.

Definition champion_target (all_players : list Player) (good : string)
    (allocation : gmap string (list string))
    (champion_graph : list (string * string)) (target_player : Player)
  : result (list (string * string)) :=
  let target_name := name target_player in
  bundle ← dict_get allocation target_name;
  let target_bundle := (bundle ++ [good])%list in
  st ← for_each (champion_step allocation target_name target_bundle)
         all_players (None, (-1)%Q, None);
  let '(best_champion, best_gain, _) := st in
  match best_champion with
  | Some champion =>
      if Qltb 0 best_gain
      then Ok (alist_insert target_name (name champion) champion_graph)
      else Ok champion_graph
  | None => Ok champion_graph
  end.

(** [AllocationFinder._build_champion_graph] *)
Definition _build_champion_graph (all_players : list Player) (good : string)
    (allocation : gmap string (list string)) : result (list (string * string)) :=
  for_each (champion_target all_players good allocation) all_players [].

(** [path[path.index(node):]] *)
Fixpoint from_first (node : string) (path : list string)
  : result (list string) :=
  match path with
  | [] => Raise ValueError
  | x :: rest =>
      if bool_decide (x = node) then Ok path else from_first node rest
  end.

(** Python's default recursion limit. *)
Definition recursion_limit : nat := 1000.

(** The nested [dfs] of [_find_all_cycles]; [visited] is the set shared by
    all calls, returned with the result; [depth] is the recursion depth
    still allowed. *)
Fixpoint dfs (depth : nat) (graph : list (string * string))
    (visited : gset string) (node : string) (path : list string)
    (rec_stack : gset string) : result (option (list string) * gset string) :=
  match depth with
  | O => Raise RecursionError
  | S depth' =>
      if bool_decide (node ∈ rec_stack) then
        cycle ← from_first node path; Ok (Some cycle, visited)
      else if bool_decide (node ∈ visited) then Ok (None, visited)
      else
        let visited' := {[node]} ∪ visited in
        let rec_stack' := {[node]} ∪ rec_stack in
        let path' := (path ++ [node])%list in
        match alist_lookup node graph with
        | Some next =>
            r ← dfs depth' graph visited' next path' rec_stack';
            match r.1 with
            | Some (c :: cycle) => Ok (Some (c :: cycle), r.2)
            | _ => Ok (None, r.2)
            end
        | None => Ok (None, visited')
        end
  end.

Definition cycles_step (graph : list (string * string))
    (st : gset string * list (list string)) (start_node : string)
  : result (gset string * list (list string)) :=
  let '(visited, all_cycles) := st in
  if bool_decide (start_node ∈ visited) then Ok st
  else
    r ← dfs recursion_limit graph visited start_node [] ∅;
    match r.1 with
    | Some (c :: cycle) =>
        if bool_decide (c :: cycle ∈ all_cycles) then Ok (r.2, all_cycles)
        else Ok (r.2, (all_cycles ++ [c :: cycle])%list)
    | _ => Ok (r.2, all_cycles)
    end.

(** [AllocationFinder._find_all_cycles] *)
Definition _find_all_cycles (graph : list (string * string))
  : result (list (list string)) :=
  st ← for_each (cycles_step graph) graph.*1 (∅, []); Ok st.2.

(** [next(p for p in players if p.name == n)] *)
Definition find_player (all_players : list Player) (n : string)
  : result Player :=
  match list_find (λ p, name p = n) all_players with
  | Some (_, p) => Ok p
  | None => Raise StopIteration
  end.

(** [sum(next(p ...).get_valuation(g) for g in bundle)] *)
Fixpoint sum_source_valuations (all_players : list Player) (source : string)
    (bundle : list string) (acc : Q) : result Q :=
  match bundle with
  | [] => Ok acc
  | g :: rest =>
      p ← find_player all_players source;
      v ← get_valuation p g;
      sum_source_valuations all_players source rest (acc + v)%Q
  end.

Section SetIteration.

(** The order in which Python iterates over a set of strings: it depends
    on the hash seed of the process, so it is a parameter. *)
Variable set_order : gset string → list string.

Definition source_step (all_players : list Player)
    (allocation : gmap string (list string))
    (st : option string * option Q) (source : string)
  : result (option string * option Q) :=
  bundle ← dict_get allocation source;
  current_utility ← sum_source_valuations all_players source bundle 0%Q;
  if below current_utility st.2 then Ok (Some source, Some current_utility)
  else Ok st.

Definition most_valued_step (good : string) (st : option string * Q)
    (player : Player) : result (option string * Q) :=
  v ← get_valuation player good;
  if Qltb st.2 v then
    best_value ← get_valuation player good; Ok (Some (name player), best_value)
  else Ok st.

(** [AllocationFinder._assign_to_source] *)
Definition _assign_to_source (all_players : list Player) (good : string)
    (allocation : gmap string (list string))
    (champion_graph : list (string * string))
  : result (gmap string (list string)) :=
  let all_names : gset string := list_to_set (name <$> all_players) in
  let targets : gset string := list_to_set champion_graph.*1 in
  let sources := all_names ∖ targets in
  recipient ←
    (if bool_decide (sources ≠ ∅) then
       st ← for_each (source_step all_players allocation)
              (set_order sources) (None, None);
       Ok st.1
     else
       st ← for_each (most_valued_step good) all_players (None, (-1)%Q);
       Ok st.1);
  match recipient with
  | Some r => dict_append allocation r good
  | None => Raise (KeyError "None")
  end.

(** The cycle branch ([_choose_best_cycle] then [_process_cycle]) is not
    needed by the properties below and is left as a parameter. *)
Variable cycle_branch :
  list (list string) → string → gmap string (list string) →
  result (gmap string (list string)).

(** [AllocationFinder._champion_graph_allocation] *)
Definition _champion_graph_allocation (all_players : list Player)
    (good : string) (allocation : gmap string (list string))
  : result (gmap string (list string)) :=
  champion_graph ← _build_champion_graph all_players good allocation;
  cycles ← _find_all_cycles champion_graph;
  match cycles with
  | [] => _assign_to_source all_players good allocation champion_graph
  | _ => cycle_branch cycles good allocation
  end.

End SetIteration.

(** A player's current utility in an allocation dictionary. *)
Definition utility_in (allocation : gmap string (list string)) (p : Player)
  : Q :=
  total_value p (bundle_of allocation p).

(** A state after Phase 1A with good [E] left over: only [P2] gains from
    another bundle plus [E], namely [P1]'s. *)
Definition leftover_players : list Player :=
  [ Player_init "P1" {[ "A" := 10%Q; "B" := 1%Q; "C" := 1%Q; "D" := 1%Q;
                        "E" := 1%Q ]};
    Player_init "P2" {[ "A" := 5%Q; "B" := 3%Q; "C" := 1%Q; "D" := 1%Q;
                        "E" := 1%Q ]};
    Player_init "P3" {[ "A" := 1%Q; "B" := 1%Q; "C" := 8%Q; "D" := 1%Q;
                        "E" := 1%Q ]};
    Player_init "P4" {[ "A" := 1%Q; "B" := 1%Q; "C" := 1%Q; "D" := 9%Q;
                        "E" := 1%Q ]} ].

Definition leftover_allocation : gmap string (list string) :=
  {[ "P1" := ["A"]; "P2" := ["B"]; "P3" := ["C"]; "P4" := ["D"] ]}.

(** ** allocation_finder.py: Phase 2, cut and choose *)

(** [sorted(goods, key=lambda g: player.get_valuation(g), reverse=True)]:
    the keys are computed first, then the goods are sorted by them. *)
Definition sort_by_valuation (player : Player) (goods : list string)
  : result (list string) :=
  keys ← mapM (get_valuation player) goods;
  Ok (sort_desc snd (zip goods keys)).*1.

(** [l.pop()] on a non-empty list: the last item and the list without it. *)
Definition list_pop (l : list string) : option (string * list string) :=
  match reverse l with
  | [] => None
  | x :: rest => Some (x, reverse rest)
  end.

(** One iteration of the split loop; the state is
    [(bundle1, bundle2, current_bundle == 1)] and [total] is
    [len(sorted_goods)]. *)
Definition split_step (player : Player) (total : nat)
    (st : list string * list string * bool) (good : string)
  : result (list string * list string * bool) :=
  let '(bundle1, bundle2, in_first) := st in
  value ← get_valuation player good;
  if in_first then
    let bundle1' := (bundle1 ++ [good])%list in
    value1 ← bundle_value player bundle1';
    value2 ← bundle_value player bundle2;
    if Qltb value2 value1 && bool_decide (length bundle1' < total)%nat
    then Ok (bundle1', bundle2, false)
    else Ok (bundle1', bundle2, true)
  else
    let bundle2' := (bundle2 ++ [good])%list in
    value1 ← bundle_value player bundle1;
    value2 ← bundle_value player bundle2';
    if Qltb value1 value2
       && bool_decide (length bundle1 + length bundle2' < total)%nat
    then Ok (bundle1, bundle2', true)
    else Ok (bundle1, bundle2', false).

(** The repair of an empty bundle after the split loop. *)
Definition rebalance (bundle1 bundle2 : list string)
  : list string * list string :=
  match bundle1, bundle2 with
  | [], _ :: _ =>
      match list_pop bundle2 with
      | Some (x, rest) => ([x], rest)
      | None => (bundle1, bundle2)
      end
  | _ :: _, [] =>
      match list_pop bundle1 with
      | Some (x, rest) => (rest, [x])
      | None => (bundle1, bundle2)
      end
  | _, _ => (bundle1, bundle2)
  end.

(** [AllocationFinder._create_efx_bundles_split_division] *)
Definition _create_efx_bundles_split_division (player : Player)
    (goods : list string) : result (option (list string * list string)) :=
  if bool_decide (length goods < 2)%nat then Ok None
  else
    sorted_goods ← sort_by_valuation player goods;
    st ← for_each (split_step player (length sorted_goods)) sorted_goods
           ([], [], true);
    let '(bundle1, bundle2) := rebalance st.1.1 st.1.2 in
    final_value1 ← bundle_value player bundle1;
    final_value2 ← bundle_value player bundle2;
    Ok (Some (bundle1, bundle2)).

(** One scenario of [_is_division_efx_for_player]: the player holding a
    bundle worth [own_value] does not envy [bundle] after the removal of
    any one of the items [to_remove]. *)
Fixpoint no_envy_after_removal (player : Player) (own_value : Q)
    (bundle : list string) (to_remove : list string) : result bool :=
  match to_remove with
  | [] => Ok true
  | item_to_remove :: rest =>
      reduced ← bundle_value player (without item_to_remove bundle);
      if Qltb own_value reduced then Ok false
      else no_envy_after_removal player own_value bundle rest
  end.

(** [AllocationFinder._is_division_efx_for_player] *)
Definition _is_division_efx_for_player (player : Player)
    (bundle_a bundle_b : list string) : result bool :=
  match bundle_a, bundle_b with
  | [], _ => Ok false
  | _, [] => Ok false
  | _, _ =>
      value_a ← bundle_value player bundle_a;
      value_b ← bundle_value player bundle_b;
      ok ← no_envy_after_removal player value_a bundle_b bundle_b;
      if (ok : bool)
      then no_envy_after_removal player value_b bundle_a bundle_a
      else Ok false
  end.

(** [AllocationFinder._find_efx_division_for_envier] *)
Definition _find_efx_division_for_envier (envier : Player)
    (all_goods : list string) : result (option (list string * list string)) :=
  if bool_decide (length all_goods < 2)%nat then Ok None
  else
    split_division ← _create_efx_bundles_split_division envier all_goods;
    match split_division with
    | Some (bundle_a, bundle_b) =>
        ok ← _is_division_efx_for_player envier bundle_a bundle_b;
        if (ok : bool) then Ok (Some (bundle_a, bundle_b)) else Ok None
    | None => Ok None
    end.

(** The pairs [(i, j)] of differently named players whose matrix entry is
    strictly positive, in the order of the double loop. *)
Definition relationship_cell (matrix : gmap string (gmap string Q))
    (player_i : Player) (acc : list (string * string)) (player_j : Player)
  : result (list (string * string)) :=
  if bool_decide (name player_i ≠ name player_j) then
    row ← dict_get matrix (name player_i);
    entry ← dict_get row (name player_j);
    if Qltb 0 entry then Ok (acc ++ [(name player_i, name player_j)])%list
    else Ok acc
  else Ok acc.

Definition relationships_of (all_players : list Player)
    (matrix : gmap string (gmap string Q)) : result (list (string * string)) :=
  for_each (λ acc player_i,
              for_each (relationship_cell matrix player_i) all_players acc)
    all_players [].

(** [AllocationFinder._get_envy_relationships] *)
Definition _get_envy_relationships (all_players : list Player)
    (allocation : Allocation) : result (list (string * string)) :=
  st ← _calculate_efx_envy_matrix all_players allocation;
  relationships_of all_players st.1.1.

(** [sorted(l)] on strings. *)
Definition sort_strings (l : list string) : list string :=
  merge_sort (λ a b, String.leb a b) l.

(** The state components hashed by [_create_phase2_state_hash]: the
    frozenset of the relationships and, for every involved player in
    sorted order, the player's name with its sorted goods. *)
Definition Phase2State : Type :=
  gset (string * string) * list (string * list string).

Definition phase2_state (envy_relationships : list (string * string))
    (allocation : Allocation) : Phase2State :=
  let involved_players : gset string :=
    list_to_set (envy_relationships.*1 ++ envy_relationships.*2)%list in
  (list_to_set envy_relationships,
   (λ player_name,
      (player_name, sort_strings (get_assignment allocation player_name)))
   <$> sort_strings (elements involved_players)).

(** The allocation tested by a Phase 2 step: the envier and the envied
    player receive the new bundles, everybody else keeps theirs. *)
Definition build_test_allocation (all_players : list Player)
    (current_allocation : Allocation) (envier_name envied_name : string)
    (envier_gets envied_chosen : list string) : Allocation :=
  foldl (λ test player,
           if bool_decide (name player = envier_name)
           then set_assignment test (name player) envier_gets
           else if bool_decide (name player = envied_name)
           then set_assignment test (name player) envied_chosen
           else set_assignment test (name player)
                  (get_assignment current_allocation (name player)))
    Allocation_init all_players.

(** The variables of the [while] loop. *)
Record Phase2 : Type := mkPhase2 {
  current_allocation : Allocation;
  envy_relationships : list (string * string);
  seen_states : gset Z;
  step : nat
}.

(** How one iteration ends: the loop goes on, or the function returns. *)
Inductive Outcome : Type :=
  | Continue (st : Phase2)
  | Return (allocation : Allocation) (steps : nat).

Section Phase2Loop.

(** Python's [hash] on the tuple of state components. *)
Variable py_hash : Phase2State → Z.

(** [AllocationFinder._create_phase2_state_hash] *)
Definition _create_phase2_state_hash
    (envy_relationships : list (string * string)) (allocation : Allocation)
  : Z :=
  py_hash (phase2_state envy_relationships allocation).

(** The cut-and-choose candidate for the pair at the head of the queue:
    [None] when the pair is skipped. *)
Definition cut_and_choose (all_players : list Player)
    (current : Allocation) (envier_name envied_name : string)
  : result (option Allocation) :=
  envier_obj ← find_player all_players envier_name;
  envied_obj ← find_player all_players envied_name;
  let all_goods := (get_assignment current envier_name
                    ++ get_assignment current envied_name)%list in
  if bool_decide (length all_goods < 2)%nat then Ok None
  else
    efx_division ← _find_efx_division_for_envier envier_obj all_goods;
    match efx_division with
    | None => Ok None
    | Some (bundle_a, bundle_b) =>
        envied_value_a ← bundle_value envied_obj bundle_a;
        envied_value_b ← bundle_value envied_obj bundle_b;
        let '(envied_chosen, envier_gets) :=
          if Qle_bool envied_value_b envied_value_a
          then (bundle_a, bundle_b) else (bundle_b, bundle_a) in
        test_allocation ←
          calculate_utilities all_players
            (build_test_allocation all_players current envier_name
               envied_name envier_gets envied_chosen);
        Ok (Some test_allocation)
    end.

(** The end of an iteration that did not [continue]: the step summary and
    the early return when EFX is achieved. *)
Definition finish_step (all_players : list Player) (st : Phase2)
  : result Outcome :=
  step_final_efx_envy ← total_efx_envy_of all_players (current_allocation st);
  step_final_regular_envy ← total_envy_of all_players (current_allocation st);
  if Qeq_bool step_final_efx_envy 0 then
    Ok (Return (current_allocation st) (step st))
  else Ok (Continue st).

(** The body of the [while] loop. *)
Definition phase2_iteration (all_players : list Player) (st : Phase2)
  : result Outcome :=
  let step' := S (step st) in
  let state_hash :=
    _create_phase2_state_hash (envy_relationships st) (current_allocation st) in
  if bool_decide (state_hash ∈ seen_states st) then
    Raise (RuntimeError CycleDetected)
  else
    let seen := {[state_hash]} ∪ seen_states st in
    match envy_relationships st with
    | [] => Raise IndexError
    | (envier_name, envied_name) :: queue =>
        let current := current_allocation st in
        current_efx_envy ← total_efx_envy_of all_players current;
        current_regular_envy ← total_envy_of all_players current;
        candidate ← cut_and_choose all_players current envier_name envied_name;
        match candidate with
        | None => Ok (Continue (mkPhase2 current queue seen step'))
        | Some test_allocation =>
            new_efx_envy ← total_efx_envy_of all_players test_allocation;
            new_regular_envy ← total_envy_of all_players test_allocation;
            if Qltb new_efx_envy current_efx_envy then
              relationships ← _get_envy_relationships all_players
                                test_allocation;
              finish_step all_players
                (mkPhase2 test_allocation relationships ∅ step')
            else
              finish_step all_players (mkPhase2 current queue seen step')
        end
    end.

(** The [while] loop and the final check after it; [fuel] bounds the
    number of iterations and [None] means that it ran out. *)
Fixpoint phase2_loop (fuel : nat) (all_players : list Player) (st : Phase2)
  : option (result (Allocation * nat)) :=
  match fuel with
  | O => None
  | S fuel' =>
      match envy_relationships st with
      | [] =>
          Some (final_efx_envy ←
                  total_efx_envy_of all_players (current_allocation st);
                final_regular_envy ←
                  total_envy_of all_players (current_allocation st);
                if Qeq_bool final_efx_envy 0
                then Ok (current_allocation st, step st)
                else Raise (RuntimeError (Exhausted final_efx_envy)))
      | _ =>
          match phase2_iteration all_players st with
          | Raise e => Some (Raise e)
          | Ok (Return allocation steps) => Some (Ok (allocation, steps))
          | Ok (Continue st') => phase2_loop fuel' all_players st'
          end
      end
  end.

(** What precedes the loop: the initial queue and the initial envy
    figures. *)
Definition phase2_start (all_players : list Player) (allocation : Allocation)
  : result Phase2 :=
  relationships ← _get_envy_relationships all_players allocation;
  initial_efx_envy ← total_efx_envy_of all_players allocation;
  initial_regular_envy ← total_envy_of all_players allocation;
  regular ← _calculate_envy_matrix all_players allocation;
  regular_relationships ← relationships_of all_players regular.1.1;
  Ok (mkPhase2 allocation relationships ∅ 0).

(** [AllocationFinder._phase2_stepwise_redistribution] *)
Definition _phase2_stepwise_redistribution (fuel : nat)
    (all_players : list Player) (allocation : Allocation)
  : option (result (Allocation * nat)) :=
  match phase2_start all_players allocation with
  | Raise e => Some (Raise e)
  | Ok st => phase2_loop fuel all_players st
  end.

End Phase2Loop.

(** ** Phase 2: specification-level vocabulary *)

(** Total EFX-envy of an allocation, [0] where the computation raises. *)
Definition efx_total (ps : list Player) (a : Allocation) : Q :=
  match total_efx_envy_of ps a with
  | Ok t => t
  | Raise _ => 0%Q
  end.

(** The bundles of the players, in player order, and all goods held. *)
Definition bundle_vector (ps : list Player) (a : Allocation)
  : list (list string) :=
  (λ p, get_assignment a (name p)) <$> ps.

Definition goods_of (ps : list Player) (a : Allocation) : list string :=
  concat (bundle_vector ps a).

(** The allocation that gives the players the bundles of a vector. *)
Definition allocation_of_vector (ps : list Player) (v : list (list string))
  : Allocation :=
  mkAllocation (list_to_map (zip (name <$> ps) v)) ∅.

(** All ways to cut a list into [n] consecutive segments. *)
Fixpoint splits (n : nat) (l : list string) : list (list (list string)) :=
  match n with
  | O => match l with [] => [[]] | _ => [] end
  | S n' =>
      k ← seq 0 (S (length l));
      (λ v, take k l :: v) <$> splits n' (drop k l)
  end.

(** Every arrangement of the goods [gs] into bundles for the players. *)
Definition arrangements (ps : list Player) (gs : list string)
  : list Allocation :=
  allocation_of_vector ps <$> (permutations gs ≫= splits (length ps)).

(** The ordered pairs of differently named players, in the order of the
    double loop of [_get_envy_relationships]. *)
Definition all_pairs (ps : list Player) : list (string * string) :=
  i ← name <$> ps;
  j ← name <$> ps;
  if bool_decide (i ≠ j) then [(i, j)] else [].

(** The sublists of a list. *)
Fixpoint sublists {A} (l : list A) : list (list A) :=
  match l with
  | [] => [[]]
  | x :: rest => ((x ::.) <$> sublists rest) ++ sublists rest
  end.

(** The fingerprints observable for the instance with the players [ps]
    and the goods [gs]: those of a queue of pairs of players and of an
    arrangement of the goods. *)
Definition observable_fingerprints (ps : list Player) (gs : list string)
  : gset Phase2State :=
  list_to_set (q ← sublists (all_pairs ps);
               phase2_state q <$> arrangements ps gs).

(** The bound on the number of steps: the number of distinct observable
    fingerprints. *)
Definition phase2_bound (ps : list Player) (a : Allocation) : nat :=
  size (observable_fingerprints ps (goods_of ps a)).

(** The fingerprints of the arrangements with strictly less total EFX-envy
    than [a]. *)
Definition fingerprints_below (ps : list Player) (gs : list string)
    (a : Allocation) : gset Phase2State :=
  list_to_set
    (c ← filter (λ c, Qltb (efx_total ps c) (efx_total ps a))
           (arrangements ps gs);
     (λ q, phase2_state q c) <$> sublists (all_pairs ps)).

(** One fingerprint of [a] for each of the first [k] pairs: that of the
    queue of all pairs but this one. *)
Definition fingerprints_pending (ps : list Player) (a : Allocation) (k : nat)
  : gset Phase2State :=
  list_to_set ((λ j, phase2_state (delete j (all_pairs ps)) a) <$> seq 0 k).

(** The measure that decreases with every iteration. *)
Definition phase2_measure (ps : list Player) (gs : list string) (st : Phase2)
  : nat :=
  size (fingerprints_below ps gs (current_allocation st)
        ∪ fingerprints_pending ps (current_allocation st)
            (length (envy_relationships st))).

(** The pairs of a queue are pairs of differently named players, in the
    order of the double loop and without repetition. *)
Definition queue_wf (ps : list Player) (queue : list (string * string))
  : Prop :=
  queue `sublist_of` all_pairs ps.

(** The invariant of the Phase 2 loop over the goods [gs]. *)
Definition phase2_inv (ps : list Player) (gs : list string) (st : Phase2)
  : Prop :=
  goods_of ps (current_allocation st) ≡ₚ gs ∧
  queue_wf ps (envy_relationships st).

(** The entries of the EFX-envy matrix, summed row by row. *)
Definition efx_entries_sum (ps : list Player) (a : Allocation) : Q :=
  py_sum ((λ player_i, py_sum (efx_envy_entry a player_i <$> ps)) <$> ps).

(** How a Phase 2 run over the goods [gs] may end: with an allocation of
    these goods whose total EFX-envy is zero, after at most [limit] steps,
    or with one of the two fatal errors. *)
Definition run_outcome (ps : list Player) (gs : list string) (limit : nat)
    (r : result (Allocation * nat)) : Prop :=
  match r with
  | Ok (final, steps) =>
      goods_of ps final ≡ₚ gs ∧
      (∃ t, total_efx_envy_of ps final = Ok t ∧ (t == 0)%Q) ∧
      (steps ≤ limit)%nat
  | Raise (RuntimeError CycleDetected) => True
  | Raise (RuntimeError (Exhausted t)) => ¬ (t == 0)%Q
  | Raise _ => False
  end.

(** ** Auxiliary predicates used to state the properties *)

(** What makes the pair [(i, j)] a violation, with the cached utility. *)
Definition pair_violates (a : Allocation) (i : nat) (player_i : Player)
    (jp : nat * Player) : Prop :=
  i ≠ jp.1 ∧ get_assignment a (name jp.2) ≠ [] ∧
  ∀ g, g ∈ get_assignment a (name jp.2) →
    (get_utility a (name player_i)
     < total_value player_i (without g (get_assignment a (name jp.2))))%Q.

(** The shape shared by the two cell functions: the cell writes [entry]
    at [matrix[i][j]] and keeps the per-player total of [i] defined. *)
Definition cell_writes (cell : envy_state → Player → result envy_state)
    (i : string) (entry : Player → Q) (player_j : Player) : Prop :=
  ∀ m t ind row, m !! i = Some row → is_Some (ind !! i) →
    ∃ t' ind', cell (m, t, ind) player_j
               = Ok (<[i := <[name player_j := entry player_j]> row]> m, t', ind')
             ∧ is_Some (ind' !! i).

(** The head of a sorted list carries the largest key. *)
Definition head_is_max {A} (key : A → Q) (l : list A) : Prop :=
  ∀ x, head l = Some x → ∀ y, y ∈ l → (key y <= key x)%Q.

(** The options tied with the winner [w] of the scan. *)
Definition tied_with (cfg : Config) (remaining_players : list Player)
    (available_goods : list string) (ceiling best_value : Q)
    (w : Choice) (after : list Choice) : list Choice :=
  w :: filter (λ s, near cfg remaining_players available_goods ceiling
                      best_value w s) after.

(** The outcome of [_choose_with_consideration] on the options
    [head :: more]: either no surviving option scores more than the
    tolerance and the player's preferred option is kept, or the last option
    [w] that raised the running best wins unless later options are tied
    with it, in which case the tied option cheapest for the next player
    is taken. *)
Definition chosen_by_scan (cfg : Config) (next_player : Player)
    (rest : list Player) (available_goods : list string) (ceiling : Q)
    (head : Choice) (more : list Choice) (c : Choice) : Prop :=
  let remaining_players := next_player :: rest in
  let best_value := value head in
  let tol := phase_1a_tie_tolerance cfg in
  let sc := score_of remaining_players available_goods best_value in
  (c = head ∧
   ∀ s, s ∈ head :: more → survivesb ceiling best_value s = true →
        (sc s <= tol)%Q)
  ∨
  (∃ before w after,
     head :: more = (before ++ w :: after)%list ∧
     survivesb ceiling best_value w = true ∧
     (tol < sc w)%Q ∧
     (∀ s, s ∈ before → survivesb ceiling best_value s = true →
        (sc s < sc w)%Q) ∧
     (∀ s, s ∈ after → survivesb ceiling best_value s = true →
        (sc s <= sc w + tol)%Q) ∧
     let tied := tied_with cfg remaining_players available_goods ceiling
                   best_value w after in
     (∀ s, s ∈ tied →
        survivesb ceiling best_value s = true ∧
        (sc w - tol <= sc s)%Q ∧ (sc s <= sc w + tol)%Q) ∧
     ∃ t, t ∈ tied ∧
          c = with_metrics remaining_players available_goods best_value t ∧
          ∀ t', t' ∈ tied →
            (cost_of next_player available_goods (good t)
             <= cost_of next_player available_goods (good t'))%Q).

(** What the phases need of an allocation dictionary: an entry for every
    player, and valuations for every held good and for the new good. *)
Definition allocation_ready (ps : list Player) (good : string)
    (allocation : gmap string (list string)) : Prop :=
  (∀ p, p ∈ ps → is_Some (allocation !! name p)) ∧
  (∀ p q, p ∈ ps → q ∈ ps →
     knows_goods p (bundle_of allocation q ++ [good])%list).

(** The nodes of a graph: its keys and its values. *)
Definition nodes_of (graph : list (string * string)) : gset string :=
  list_to_set (graph.*1 ++ graph.*2)%list.

(** Case analysis on membership in a literal list. *)
Ltac elem_cases H :=
  repeat (apply elem_of_cons in H as [->|H]);
  try (by apply elem_of_nil in H).

(** The utility of the player called [n], as [_assign_to_source] computes
    it for a source. *)
Definition utility_of_name (ps : list Player)
    (allocation : gmap string (list string)) (n : string) : Q :=
  match find_player ps n with
  | Ok p => utility_in allocation p
  | Raise _ => 0%Q
  end.

(** ** Phase 2: an instance to run the loop on *)

(** P1 holds two goods and P4 none, so that P4 has EFX-envy towards P1. *)
Definition unbalanced_allocation : Allocation :=
  set_assignment (set_assignment (set_assignment (set_assignment
    Allocation_init "P1" ["A"; "D"]) "P2" ["B"]) "P3" ["C"]) "P4" [].

(** A hash function to run the loop with: any function does, the loop
    only compares its values. *)
Definition example_hash (s : Phase2State) : Z :=
  Z.of_nat (size s.1 + length s.2).

(** Every hash in the seen-state set is that of the current allocation
    with a queue holding a pair that has since been popped. *)
Definition seen_inv (py_hash : Phase2State → Z) (st : Phase2) : Prop :=
  ∀ h, h ∈ seen_states st →
    ∃ x queue, h = py_hash (phase2_state queue (current_allocation st)) ∧
               x ∈ queue ∧ x ∉ envy_relationships st.

(** A hash function without collisions, to run the examples. *)
Definition collision_free_hash (s : Phase2State) : Z := Z.pos (encode s).

(** The entries of the envy matrix, summed row by row. *)
Definition envy_entries_sum (ps : list Player) (a : Allocation) : Q :=
  py_sum ((λ player_i, py_sum (envy_entry a player_i <$> ps)) <$> ps).

(** A division into two non-empty bundles is EFX for [p]: whichever bundle
    [p] holds, [p] values it at least as much as the other bundle with any
    one of its items removed. *)
Definition division_is_efx (p : Player) (bundle_a bundle_b : list string)
  : Prop :=
  bundle_a ≠ [] ∧ bundle_b ≠ [] ∧
  (∀ x, x ∈ bundle_b →
     (total_value p (without x bundle_b) <= total_value p bundle_a)%Q) ∧
  (∀ x, x ∈ bundle_a →
     (total_value p (without x bundle_a) <= total_value p bundle_b)%Q).

(** The pairs of differently named players between which the entry is
    strictly positive, in the order of the double loop. *)
Definition positive_pairs (entry : Player → Player → Q) (ps : list Player)
  : list (string * string) :=
  player_i ← ps;
  player_j ← ps;
  if bool_decide (name player_i ≠ name player_j) && Qltb 0 (entry player_i player_j)
  then [(name player_i, name player_j)] else [].

(** ** allocation_finder.py: between the phases *)

(** [AllocationFinder._get_remaining_goods]: the goods that are in no
    bundle of the allocation dictionary, in the order of the goods. *)
Definition _get_remaining_goods (all_goods : list string)
    (allocation : gmap string (list string)) : list string :=
  let assigned_goods := concat (dict_values allocation) in
  filter (λ good, good ∉ assigned_goods) all_goods.

(** [AllocationFinder._dict_to_allocation]: the assignments are set one
    key at a time, then the manager computes the utilities. *)
Definition _dict_to_allocation (all_players : list Player)
    (allocation_dict : gmap string (list string)) : result Allocation :=
  let allocation :=
    map_fold (λ player_name goods allocation,
                set_assignment allocation player_name goods)
      Allocation_init allocation_dict in
  calculate_utilities all_players allocation.

(** ** Phase 1B: specification-level vocabulary *)

(** What [champion] would gain by holding the bundle of [target] with the
    good added instead of their own bundle. *)
Definition champion_gain (allocation : gmap string (list string))
    (good : string) (champion target : Player) : Q :=
  (total_value champion (bundle_of allocation target ++ [good])
   - total_value champion (bundle_of allocation champion))%Q.

(** A closed walk of the graph: every node is followed by the node its
    edge points to, and the last node points back to the first. *)
Fixpoint walk_of (graph : list (string * string)) (first : string)
    (nodes : list string) : Prop :=
  match nodes with
  | [] => False
  | [n] => alist_lookup n graph = Some first
  | n :: (m :: _) as rest =>
      alist_lookup n graph = Some m ∧ walk_of graph first rest
  end.

Definition is_cycle_of (graph : list (string * string))
    (cycle : list string) : Prop :=
  match cycle with
  | [] => False
  | first :: _ => walk_of graph first cycle ∧ NoDup cycle
  end.

(** Consecutive nodes of a path are joined by edges of the graph. *)
Definition chain_of (graph : list (string * string)) (path : list string)
  : Prop :=
  ∀ i a b, path !! i = Some a → path !! S i = Some b →
    alist_lookup a graph = Some b.

(** [x] may stand before [y] in a list sorted by decreasing key. *)
Definition descending {A} (key : A → Q) (x y : A) : Prop :=
  (key y <= key x)%Q.

(** ** allocation_finder.py: Phase 1B, the cycles of the champion graph *)

(** [l[i]] for an index that is not negative. *)
Definition list_index {A} (l : list A) (i : nat) : result A :=
  match l !! i with
  | Some x => Ok x
  | None => Raise IndexError
  end.

(** One round of the loop of [_calculate_envy_reduction]. *)
Definition envy_reduction_step (all_players : list Player)
    (cycle : list string) (good : string)
    (allocation : gmap string (list string))
    (total_gain : Q) (entry : nat * string) : result Q :=
  let '(i, player_name) := entry in
  player ← find_player all_players player_name;
  current_bundle ← dict_get allocation player_name;
  current_value ← bundle_value player current_bundle;
  next_player_name ← list_index cycle ((i + 1) `mod` length cycle);
  next_bundle ← dict_get allocation next_player_name;
  let next_bundle :=
    if bool_decide (i = 0%nat) then (next_bundle ++ [good])%list
    else next_bundle in
  next_value ← bundle_value player next_bundle;
  let gain := (next_value - current_value)%Q in
  Ok (total_gain + max0 gain)%Q.

(** [AllocationFinder._calculate_envy_reduction] *)
Definition _calculate_envy_reduction (all_players : list Player)
    (cycle : list string) (good : string)
    (allocation : gmap string (list string)) : result Q :=
  for_each (envy_reduction_step all_players cycle good allocation)
    (enumerate cycle) 0%Q.

(** The loop of [_choose_best_cycle]: the state is
    [(best_cycle, best_envy_reduction)]. *)
Definition best_cycle_step (all_players : list Player) (good : string)
    (allocation : gmap string (list string))
    (st : list string * Q) (cycle : list string)
  : result (list string * Q) :=
  envy_reduction ← _calculate_envy_reduction all_players cycle good allocation;
  if Qltb st.2 envy_reduction then Ok (cycle, envy_reduction) else Ok st.

(** [AllocationFinder._choose_best_cycle] *)
Definition _choose_best_cycle (all_players : list Player)
    (cycles : list (list string)) (good : string)
    (allocation : gmap string (list string)) : result (list string) :=
  match cycles with
  | [only] => Ok only
  | _ =>
      best_cycle ← first_item cycles;
      st ← for_each (best_cycle_step all_players good allocation) cycles
             (best_cycle, 0%Q);
      Ok st.1
  end.

(** The state of the first strategy of [_process_cycle]; [None] stands for
    [float('inf')] in the two envy figures and for Python's [None] in the
    recipient. *)
Record Direct : Type := mkDirect {
  best_direct_efx_envy : option Q;
  best_direct_envy : option Q;
  best_direct_recipient : option string;
  best_direct_valuation : option Q;
  tied_direct_candidates : list string
}.

(** [x < best - tolerance] and [abs(x - best) <= tolerance] where [best]
    may still be [float('inf')]. *)
Definition clearly_below (tolerance x : Q) (best : option Q) : bool :=
  match best with
  | None => true
  | Some b => Qltb x (b - tolerance)
  end.

Definition within (tolerance x : Q) (best : option Q) : bool :=
  match best with
  | None => false
  | Some b => Qle_bool (Qabs (x - b)) tolerance
  end.

(** [min(x, best)] written as the source writes it: [if x < best: best = x]. *)
Definition lowered (x : Q) (best : option Q) : option Q :=
  if below x best then Some x else best.

(** The test of a direct assignment of [good] to one player of the cycle. *)
Definition direct_step (cfg : Config) (all_players : list Player)
    (good : string) (allocation : gmap string (list string))
    (st : Direct) (player_name : string) : result Direct :=
  let tolerance := phase_1b_tie_tolerance cfg in
  player ← find_player all_players player_name;
  valuation ← get_valuation player good;
  test_allocation ← dict_append allocation player_name good;
  test_allocation_obj ← _dict_to_allocation all_players test_allocation;
  test_efx_envy ← total_efx_envy_of all_players test_allocation_obj;
  test_envy ← total_envy_of all_players test_allocation_obj;
  let winner :=
    mkDirect (Some test_efx_envy) (Some test_envy) (Some player_name)
      (Some valuation) [player_name] in
  if clearly_below tolerance test_efx_envy (best_direct_efx_envy st) then
    Ok winner
  else if within tolerance test_efx_envy (best_direct_efx_envy st) then
    if clearly_below tolerance test_envy (best_direct_envy st) then Ok winner
    else if within tolerance test_envy (best_direct_envy st) then
      let tied :=
        if bool_decide (player_name ∈ tied_direct_candidates st)
        then tied_direct_candidates st
        else (tied_direct_candidates st ++ [player_name])%list in
      let tied :=
        match best_direct_recipient st with
        | Some recipient =>
            if bool_decide (length tied = 1%nat) && str_truthy recipient
               && negb (bool_decide (recipient ∈ tied))
            then recipient :: tied else tied
        | None => tied
        end in
      Ok (mkDirect (lowered test_efx_envy (best_direct_efx_envy st))
            (lowered test_envy (best_direct_envy st))
            (Some player_name) (Some valuation) tied)
    else Ok st
  else Ok st.

(** [min(l)] on strings: the first of the least items. *)
Definition py_min_str (l : list string) : result string :=
  match l with
  | [] => Raise ValueError
  | x :: rest =>
      Ok (foldl (λ acc y, if String.ltb y acc then y else acc) x rest)
  end.

(** The lexicographic choice among tied recipients. *)
Definition break_direct_tie (all_players : list Player) (good : string)
    (st : Direct) : result Direct :=
  if bool_decide (1 < length (tied_direct_candidates st))%nat then
    recipient ← py_min_str (tied_direct_candidates st);
    chosen_player ← find_player all_players recipient;
    valuation ← get_valuation chosen_player good;
    Ok (mkDirect (best_direct_efx_envy st) (best_direct_envy st)
          (Some recipient) (Some valuation) (tied_direct_candidates st))
  else Ok st.

(** The rotation of the bundles along a cycle: every player of the cycle
    receives the bundle that the next player held before. *)
Definition rotate_bundles (cycle : list string)
    (allocation : gmap string (list string))
  : result (gmap string (list string)) :=
  original_bundles ←
    for_each (λ (original : gmap string (list string)) player_name,
        bundle ← dict_get allocation player_name;
        Ok (<[player_name := bundle]> original))
      cycle ∅;
  for_each (λ (rotated : gmap string (list string)) i,
      current_player ← list_index cycle i;
      next_player ← list_index cycle ((i + 1) `mod` length cycle);
      bundle ← dict_get original_bundles next_player;
      Ok (<[current_player := bundle]> rotated))
    (seq 0 (length cycle)) allocation.

(** The rotation followed by the new good for the first player of the
    cycle. *)
Definition rotation_with_good (cycle : list string) (good : string)
    (allocation : gmap string (list string))
  : result (gmap string (list string)) :=
  rotated ← rotate_bundles cycle allocation;
  recipient_rotation ← first_item cycle;
  dict_append rotated recipient_rotation good.

Inductive Strategy : Type :=
  | DirectAssignment
  | Rotation.

(** [==] and [<] on floats that may be [float('inf')], and [<] on the
    pairs that [strategies.sort] uses as keys. *)
Definition inf_eqb (x y : option Q) : bool :=
  match x, y with
  | Some a, Some b => Qeq_bool a b
  | None, None => true
  | _, _ => false
  end.

Definition inf_ltb (x y : option Q) : bool :=
  match x, y with
  | Some a, Some b => Qltb a b
  | Some _, None => true
  | None, _ => false
  end.

Definition key_ltb (a b : option Q * option Q) : bool :=
  if inf_eqb a.1 b.1 then inf_ltb a.2 b.2 else inf_ltb a.1 b.1.

(** [list.sort(key=...)]: ascending by key, items with equal keys keep
    their original order. *)
Fixpoint insert_asc {A} (key : A → option Q * option Q) (x : A) (l : list A)
  : list A :=
  match l with
  | [] => [x]
  | y :: rest =>
      if key_ltb (key y) (key x) then y :: insert_asc key x rest
      else x :: y :: rest
  end.

Definition sort_asc {A} (key : A → option Q * option Q) (l : list A)
  : list A :=
  foldr (insert_asc key) [] l.

(** [AllocationFinder._process_cycle]; the first [print] evaluates
    [cycle[0]]. *)
Definition _process_cycle (cfg : Config) (all_players : list Player)
    (cycle : list string) (good : string)
    (allocation : gmap string (list string))
  : result (gmap string (list string)) :=
  _ ← first_item cycle;
  current_allocation_obj ← _dict_to_allocation all_players allocation;
  current_envy ← total_envy_of all_players current_allocation_obj;
  (* Strategy 1 *)
  st ← for_each (direct_step cfg all_players good allocation) cycle
         (mkDirect None None None None []);
  st ← break_direct_tie all_players good st;
  (* Strategy 2 *)
  test_allocation_rotation ← rotation_with_good cycle good allocation;
  test_allocation_rotation_obj ←
    _dict_to_allocation all_players test_allocation_rotation;
  rotation_efx_envy ←
    total_efx_envy_of all_players test_allocation_rotation_obj;
  rotation_envy ← total_envy_of all_players test_allocation_rotation_obj;
  let strategies :=
    [ (best_direct_efx_envy st, best_direct_envy st, DirectAssignment);
      (Some rotation_efx_envy, Some rotation_envy, Rotation) ] in
  best ← first_item (sort_asc (λ x, (x.1.1, x.1.2)) strategies);
  match best.2 with
  | DirectAssignment =>
      match best_direct_recipient st with
      | Some recipient => dict_append allocation recipient good
      | None => Raise (KeyError "None")
      end
  | Rotation => rotation_with_good cycle good allocation
  end.

(** The branch of [_champion_graph_allocation] taken when the graph has
    a cycle. *)
Definition process_best_cycle (cfg : Config) (all_players : list Player)
    (cycles : list (list string)) (good : string)
    (allocation : gmap string (list string))
  : result (gmap string (list string)) :=
  best_cycle ← _choose_best_cycle all_players cycles good allocation;
  _process_cycle cfg all_players best_cycle good allocation.

(** ** allocation_finder.py: the reports

    The text that a report prints is not modelled; what it evaluates is,
    because an evaluation may raise. *)

(** [min(l)] on floats. *)
Definition py_min (l : list Q) : result Q :=
  match l with
  | [] => Raise ValueError
  | x :: rest => Ok (foldl (λ acc y, if Qltb y acc then y else acc) x rest)
  end.

(** [max(l, key=...)]: the first of the items with the greatest key. *)
Definition py_max_by {A} (key : A → Q) (l : list A) : result A :=
  match l with
  | [] => Raise ValueError
  | x :: rest =>
      Ok (foldl (λ acc y, if Qltb (key acc) (key y) then y else acc) x rest)
  end.

(** [AllocationFinder._print_value_functions] *)
Definition _print_value_functions (all_players : list Player)
    (all_goods : list string) : result unit :=
  _ ← for_each (λ _ good,
         for_each (λ _ player, _ ← get_valuation player good; Ok tt)
           all_players tt)
       all_goods tt;
  for_each (λ _ player,
      valuations ← mapM (get_valuation player) all_goods;
      avg_val ← py_div (py_sum valuations) (Q_of_nat (length valuations));
      min_val ← py_min valuations;
      max_val ← py_max valuations;
      Ok tt)
    all_players tt.

(** [matrix[i][j]] *)
Definition matrix_get (m : gmap string (gmap string Q)) (i j : string)
  : result Q :=
  row ← dict_get m i; dict_get row j.

(** The players that [player_i] envies, with the amounts: the inner loop
    shared by the breakdown and by the list of problem areas. *)
Definition positive_envies (envy_matrix : gmap string (gmap string Q))
    (all_players : list Player) (player_i : Player)
  : result (list (string * Q)) :=
  for_each (λ envies player_j,
      if bool_decide (name player_i ≠ name player_j) then
        envy_val ← matrix_get envy_matrix (name player_i) (name player_j);
        if Qltb 0 envy_val
        then Ok (envies ++ [(name player_j, envy_val)])%list
        else Ok envies
      else Ok envies)
    all_players [].

(** [AllocationFinder._print_envy_analysis]; the order in which the keys of
    a dictionary are visited matters only to the names that are printed. *)
Definition _print_envy_analysis (checker : AllocationChecker)
    (all_players : list Player) (allocation : Allocation) : result unit :=
  st ← _calculate_envy_matrix all_players allocation;
  let '(envy_matrix, total_envy, individual_envy_totals) := st in
  (* the matrix *)
  _ ← for_each (λ _ player_i,
         row_total ← dict_get individual_envy_totals (name player_i);
         for_each (λ _ player_j,
             _ ← matrix_get envy_matrix (name player_i) (name player_j);
             Ok tt)
           all_players tt)
       all_players tt;
  (* the breakdown by player *)
  _ ← for_each (λ _ player_i,
         player_total_envy ← dict_get individual_envy_totals (name player_i);
         if Qeq_bool player_total_envy 0 then Ok tt
         else
           envies ← positive_envies envy_matrix all_players player_i;
           for_each (λ _ (e : string * Q),
               percentage ← py_div e.2 player_total_envy; Ok tt)
             (sort_desc snd envies) tt)
       all_players tt;
  (* the problem areas *)
  high_envy_pairs ←
    for_each (λ pairs player_i,
        envies ← positive_envies envy_matrix all_players player_i;
        Ok (pairs ++ ((λ e : string * Q, (name player_i, e.1, e.2))
                        <$> envies))%list)
      all_players [];
  _ ← for_each (λ _ (e : string * string * Q),
         percentage ← py_div e.2 total_envy; Ok tt)
       (take 5 (sort_desc snd high_envy_pairs)) tt;
  is_efx ← check_EFX checker allocation;
  if Qltb 0 total_envy then
    max_envy_player ←
      py_max_by (λ p, default 0%Q (individual_envy_totals !! p))
        (map_to_list individual_envy_totals).*1;
    envy_received ←
      for_each (λ received player_i,
          for_each (λ (received : gmap string Q) player_j,
              if bool_decide (name player_i ≠ name player_j) then
                old ← dict_get received (name player_j);
                envy_val ←
                  matrix_get envy_matrix (name player_i) (name player_j);
                Ok (<[name player_j := (old + envy_val)%Q]> received)
              else Ok received)
            all_players received)
        all_players
        (foldl (λ d player, <[name player := 0%Q]> d) ∅ all_players);
    most_envied ←
      py_max_by (λ p, default 0%Q (envy_received !! p))
        (map_to_list envy_received).*1;
    Ok tt
  else Ok tt.

(** [AllocationFinder._print_allocation_state] *)
Definition _print_allocation_state (checker : AllocationChecker)
    (all_players : list Player) (allocation : Allocation) : result unit :=
  is_efx ← check_EFX checker allocation;
  _print_envy_analysis checker all_players allocation.

(** ** allocation_finder.py: the algorithm *)

(** The dictionary [phase2_info]. *)
Record Phase2Info : Type := mkPhase2Info {
  executed : bool;
  steps : nat;
  improvements_found : bool;
  efx_achieved_in_phase2 : bool;
  envy_reduction : Q;
  initial_envy : Q;
  final_envy : Q
}.

Section Algorithm.

Variable sqrt : Q → Q.
Variable py_hash : Phase2State → Z.
Variable set_order : gset string → list string.
Variable cfg : Config.

(** One round of the loop of Phase 1B. *)
Definition phase_1b_step (checker : AllocationChecker)
    (all_players : list Player)
    (allocation_dict : gmap string (list string)) (good : string)
  : result (gmap string (list string)) :=
  allocation_dict ←
    _champion_graph_allocation set_order (process_best_cycle cfg all_players)
      all_players good allocation_dict;
  allocation_obj ← _dict_to_allocation all_players allocation_dict;
  _ ← _print_allocation_state checker all_players allocation_obj;
  Ok allocation_dict.

(** Phase 1 of [find_efx_allocation_algorithm_1]: the normalisation, the
    round robin and the champion graph; the result is the normalised
    players with the allocation at the end of the phase.  The players are
    normalised in place, and the checker holds the same player objects as
    the manager (as [tests/test_runner.py] builds them), so the checker
    works with the normalised valuations. *)
Definition phase_1 (self_players : list Player) (self_goods : list string)
  : result (list Player * Allocation) :=
  all_players ←
    _normalize_all_valuations sqrt (normalization_target cfg) self_players;
  let checker := mkChecker all_players in
  _ ← _print_value_functions all_players self_goods;
  allocation_dict ←
    _initial_round_robin_with_consideration cfg all_players self_goods;
  allocation_obj ← _dict_to_allocation all_players allocation_dict;
  _ ← _print_allocation_state checker all_players allocation_obj;
  let remaining_goods := _get_remaining_goods self_goods allocation_dict in
  _ ← match remaining_goods with
      | [] => Ok tt
      | _ => _print_value_functions all_players self_goods
      end;
  allocation_dict ←
    for_each (phase_1b_step checker all_players) remaining_goods
      allocation_dict;
  final_allocation ← _dict_to_allocation all_players allocation_dict;
  _ ← _print_value_functions all_players self_goods;
  _ ← _print_allocation_state checker all_players final_allocation;
  Ok (all_players, final_allocation).

(** What follows a successful return of Phase 2; an [Allocation] object is
    always truthy, so the branch for a falsy [improved_allocation] is never
    taken. *)
Definition after_phase_2 (all_players : list Player) (initial_envy : Q)
    (improved_allocation : Allocation) (steps_executed : nat)
  : result (Allocation * Phase2Info) :=
  let checker := mkChecker all_players in
  final_envy ← total_envy_of all_players improved_allocation;
  _ ← _print_allocation_state checker all_players improved_allocation;
  is_efx_final ← check_EFX checker improved_allocation;
  Ok (improved_allocation,
      mkPhase2Info true steps_executed true is_efx_final
        (initial_envy - final_envy)%Q initial_envy final_envy).

(** [AllocationFinder.find_efx_allocation_algorithm_1]; [fuel] bounds the
    iterations of Phase 2 and [None] means that it ran out.  A
    [RuntimeError] of Phase 2 is caught and raised again as a
    [RuntimeError] with a longer message; every other exception
    propagates. *)
Definition find_efx_allocation_algorithm_1 (fuel : nat)
    (self_players : list Player) (self_goods : list string)
  : option (result (Allocation * Phase2Info)) :=
  match phase_1 self_players self_goods with
  | Raise e => Some (Raise e)
  | Ok (all_players, final_allocation) =>
      match check_EFX (mkChecker all_players) final_allocation with
      | Raise e => Some (Raise e)
      | Ok true =>
          Some (Ok (final_allocation,
                    mkPhase2Info false 0 false false 0%Q 0%Q 0%Q))
      | Ok false =>
          match total_envy_of all_players final_allocation with
          | Raise e => Some (Raise e)
          | Ok initial_envy =>
              match _phase2_stepwise_redistribution py_hash fuel all_players
                      final_allocation with
              | None => None
              | Some (Raise (RuntimeError why)) =>
                  Some (Raise (RuntimeError why))
              | Some (Raise e) => Some (Raise e)
              | Some (Ok (improved_allocation, steps_executed)) =>
                  Some (after_phase_2 all_players initial_envy
                          improved_allocation steps_executed)
              end
          end
      end
  end.

End Algorithm.

(** * Properties *)

(** ** The result monad and loops *)

Lemma bind_Ok {A B} (m : result A) (f : A → result B) (b : B) :
  m ≫= f = Ok b ↔ ∃ a, m = Ok a ∧ f a = Ok b.
Proof.
  destruct m as [a|e]; simpl; split.
  - intros H. by exists a.
  - by intros (a' & [= ->] & H).
  - discriminate.
  - by intros (a' & [=] & _).
Qed.

(** A loop whose body keeps an invariant and never raises on states that
    satisfy it returns a state that satisfies it. *)
Lemma for_each_inv {S A} (P : S → Prop) (body : S → A → result S)
    (l : list A) (s : S) :
  P s →
  (∀ s x, x ∈ l → P s → ∃ s', body s x = Ok s' ∧ P s') →
  ∃ s', for_each body l s = Ok s' ∧ P s'.
Proof.
  revert s. induction l as [|x l IH]; intros s Hs Hbody; simpl.
  - by exists s.
  - destruct (Hbody s x) as (s1 & -> & Hs1); [left | done |]. simpl.
    apply IH; [done|]. intros s2 y Hy. apply Hbody. by right.
Qed.

(** ** Sums of rationals *)

Lemma fold_left_Qplus (l : list Q) (a : Q) :
  (fold_left Qplus l a == a + py_sum l)%Q.
Proof.
  unfold py_sum. revert a. induction l as [|x l IH]; intros a; simpl.
  - lra.
  - rewrite (IH (a + x)%Q), (IH (0 + x)%Q). lra.
Qed.

Lemma py_sum_cons (x : Q) (l : list Q) : (py_sum (x :: l) == x + py_sum l)%Q.
Proof. unfold py_sum at 1. simpl. rewrite fold_left_Qplus. lra. Qed.

Lemma py_sum_scale (s : Q) (l : list Q) :
  (py_sum ((λ v, v * s)%Q <$> l) == py_sum l * s)%Q.
Proof.
  induction l as [|x l IH]; simpl.
  - unfold py_sum. simpl. lra.
  - rewrite !py_sum_cons, IH. lra.
Qed.

(** ** Dictionary comprehensions *)

Lemma dict_comprehension_Ok {V W} (f : string → V → result W) (h : V → W)
    (d : gmap string V) :
  (∀ k v, d !! k = Some v → f k v = Ok (h v)) →
  dict_comprehension f d = Ok (h <$> d).
Proof.
  unfold dict_comprehension.
  induction d as [|i x m Hi Hfirst IH] using map_first_key_ind; intros Hf.
  - by rewrite map_fold_empty, fmap_empty.
  - rewrite map_fold_insert_first_key by done.
    rewrite IH.
    + simpl. rewrite (Hf i x) by apply lookup_insert_eq. simpl.
      by rewrite fmap_insert.
    + intros k v Hk. apply Hf. rewrite lookup_insert_ne; [done|].
      intros ->. congruence.
Qed.

Lemma dict_values_fmap {V W} (h : V → W) (d : gmap string V) :
  dict_values (h <$> d) = h <$> dict_values d.
Proof.
  unfold dict_values. rewrite map_to_list_fmap.
  induction (map_to_list d) as [|[k v] l IH]; simpl; [done|]. by f_equal.
Qed.

Lemma length_dict_values {V} (d : gmap string V) :
  length (dict_values d) = size d.
Proof. unfold dict_values. by rewrite length_fmap, length_map_to_list. Qed.

Lemma Q_of_nat_nonzero (n : nat) : n ≠ 0%nat → ¬ (Q_of_nat n == 0)%Q.
Proof.
  intros Hn H. unfold Q_of_nat, Qeq in H. simpl in H. lia.
Qed.

(** ** C10: queries for unknown players *)

(** C10. For any allocation and any player name with no recorded entry,
    [get_assignment] returns the empty list and [get_utility] returns 0:
    the query never fails and behaves as an empty bundle of zero utility. *)
Theorem unknown_player_is_empty_bundle (a : Allocation) (player_name : string) :
  (assignments a !! player_name = None → get_assignment a player_name = []) ∧
  (utilities a !! player_name = None → get_utility a player_name = 0%Q).
Proof.
  unfold get_assignment, get_utility. split; intros ->; done.
Qed.

Lemma unknown_player_is_empty_bundle_witness :
  get_assignment (set_assignment Allocation_init "P1" ["A"]) "P2" = [] ∧
  get_utility (set_utility Allocation_init "P1" 1%Q) "P2" = 0%Q.
Proof.
  split.
  - apply (proj1 (unknown_player_is_empty_bundle
                    (set_assignment Allocation_init "P1" ["A"]) "P2")).
    reflexivity.
  - apply (proj2 (unknown_player_is_empty_bundle
                    (set_utility Allocation_init "P1" 1%Q) "P2")).
    reflexivity.
Defined.

(** ** C8: construction-time validation *)

(** C8, as stated, fails: four players of whom [P1] has no valuation for
    good [B] are accepted by all three constructors; the gap only shows
    later, as a [KeyError] at the first lookup. *)
Lemma construction_accepts_missing_valuation :
  let ps := [ Player_init "P1" {[ "A" := 5%Q ]};
              Player_init "P2" {[ "A" := 2%Q; "B" := 5%Q ]};
              Player_init "P3" {[ "A" := 1%Q; "B" := 2%Q ]};
              Player_init "P4" {[ "A" := 3%Q; "B" := 1%Q ]} ] in
  let gs := ["A"; "B"] in
  (∃ p g, p ∈ ps ∧ g ∈ gs ∧ valuation p !! g = None) ∧
  AllocationManager_init ps gs = Ok (mkManager ps gs) ∧
  AllocationChecker_init ps = Ok (mkChecker ps) ∧
  AllocationFinder_init (mkManager ps gs) (mkChecker ps)
    = Ok (mkFinder (mkManager ps gs) (mkChecker ps) ps gs) ∧
  (∃ p, p ∈ ps ∧ get_valuation p "B" = Raise (KeyError "B")).
Proof.
  intros ps gs. split; [|split; [|split; [|split]]].
  - exists (Player_init "P1" {[ "A" := 5%Q ]}), "B".
    split; [left|]. split; [right; left | reflexivity].
  - reflexivity.
  - reflexivity.
  - reflexivity.
  - exists (Player_init "P1" {[ "A" := 5%Q ]}). split; [left | reflexivity].
Qed.

(** C8 (amended). Construction of the three components fails with
    [ValueError], producing no component, exactly when the player count is
    not four; with four players it succeeds and stores the players and goods
    as given, whatever the valuation tables contain. *)
Theorem construction_validates_player_count
    (ps : list Player) (gs : list string) (checker : AllocationChecker) :
  (length ps ≠ 4%nat →
     AllocationManager_init ps gs = Raise ValueError ∧
     AllocationChecker_init ps = Raise ValueError ∧
     AllocationFinder_init (mkManager ps gs) checker = Raise ValueError) ∧
  (length ps = 4%nat →
     AllocationManager_init ps gs = Ok (mkManager ps gs) ∧
     AllocationChecker_init ps = Ok (mkChecker ps) ∧
     AllocationFinder_init (mkManager ps gs) checker
       = Ok (mkFinder (mkManager ps gs) checker ps gs)).
Proof.
  unfold AllocationManager_init, AllocationChecker_init, AllocationFinder_init.
  simpl. split; intros H.
  - rewrite bool_decide_eq_true_2 by done. done.
  - rewrite bool_decide_eq_false_2 by (intros Hne; by apply Hne). done.
Qed.

Lemma construction_validates_player_count_witness :
  AllocationManager_init [] ["A"] = Raise ValueError ∧
  AllocationChecker_init [] = Raise ValueError ∧
  AllocationFinder_init (mkManager [] ["A"]) (mkChecker []) = Raise ValueError.
Proof.
  apply (proj1 (construction_validates_player_count [] ["A"] (mkChecker []))).
  simpl. lia.
Defined.

(** ** C7: normalisation *)

Lemma guarded_stdev_is_spec_dispersion (sqrt : Q → Q) (l : list Q) :
  (if bool_decide (1 < length l)%nat then statistics_stdev sqrt l else Ok 0%Q)
  = Ok (spec_dispersion sqrt l).
Proof.
  unfold statistics_stdev, spec_dispersion, sample_variance.
  destruct (decide (1 < length l)%nat) as [Hlt|Hge].
  - rewrite (bool_decide_eq_true_2 _ Hlt).
    rewrite bool_decide_eq_false_2 by lia.
    rewrite bool_decide_eq_false_2 by lia. done.
  - rewrite (bool_decide_eq_false_2 _ Hge).
    rewrite bool_decide_eq_true_2 by lia. done.
Qed.

Lemma py_div_nonzero (x y : Q) : ¬ (y == 0)%Q → py_div x y = Ok (x / y)%Q.
Proof.
  intros Hy. unfold py_div. destruct (Qeq_bool y 0) eqn:E; [|done].
  by apply Qeq_bool_iff in E.
Qed.



(** ** Bundle values *)

Lemma sum_valuations_Ok (p : Player) (bundle : list string) (acc : Q) :
  knows_goods p bundle →
  sum_valuations p bundle acc = Ok (fold_left Qplus (value_of p <$> bundle) acc).
Proof.
  revert acc. induction bundle as [|g bundle IH]; intros acc Hk; simpl; [done|].
  destruct (Hk g) as [v Hv]; [left|].
  assert (value_of p g = v) as -> by (unfold value_of; by rewrite Hv).
  rewrite Hv. simpl. apply IH.
  intros g' Hg'. apply Hk. by right.
Qed.

Lemma bundle_value_Ok (p : Player) (bundle : list string) :
  knows_goods p bundle → bundle_value p bundle = Ok (total_value p bundle).
Proof. apply sum_valuations_Ok. Qed.

Lemma knows_goods_without (p : Player) (x : string) (bundle : list string) :
  knows_goods p bundle → knows_goods p (without x bundle).
Proof.
  intros Hk g Hg. apply Hk. unfold without in Hg.
  by apply list_elem_of_filter in Hg as [_ Hg].
Qed.

Lemma Qle_bool_false (x y : Q) : Qle_bool x y = false ↔ (y < x)%Q.
Proof.
  split.
  - intros H. apply Qnot_le_lt. intros Hle.
    apply Qle_bool_iff in Hle. congruence.
  - intros H. destruct (Qle_bool x y) eqn:E; [|done].
    apply Qle_bool_iff in E. lra.
Qed.

(** ** C1: the EFX predicate *)

Lemma envy_after_any_removal_spec (player_i : Player) (u : Q)
    (goods_j to_remove : list string) :
  knows_goods player_i goods_j →
  ∃ b, envy_after_any_removal player_i u goods_j to_remove = Ok b ∧
       (b = true ↔
        ∀ g, g ∈ to_remove → (u < total_value player_i (without g goods_j))%Q).
Proof.
  intros Hk. induction to_remove as [|g rest IH]; simpl.
  - exists true. split; [done|]. split; [|done].
    intros _ g Hg. by apply elem_of_nil in Hg.
  - rewrite bundle_value_Ok by by apply knows_goods_without. simpl.
    destruct (Qle_bool _ u) eqn:E.
    + exists false. split; [done|]. split; [done|].
      intros H. apply Qle_bool_iff in E.
      specialize (H g (list_elem_of_here _ _)). lra.
    + destruct IH as (b & -> & Hb). exists b. split; [done|].
      rewrite Hb. apply Qle_bool_false in E. split.
      * intros H g' [->|Hg']%elem_of_cons; [done | by apply H].
      * intros H g' Hg'. apply H. by right.
Qed.

Lemma check_EFX_row_spec (a : Allocation) (i : nat) (player_i : Player)
    (js : list (nat * Player)) :
  (∀ jp, jp ∈ js → knows_goods player_i (get_assignment a (name jp.2))) →
  ∃ b, check_EFX_row a i player_i js = Ok b ∧
       (b = false ↔ ∃ jp, jp ∈ js ∧ pair_violates a i player_i jp).
Proof.
  induction js as [|[j player_j] js IH]; intros Hk; simpl.
  - exists true. split; [done|]. split; [done|].
    intros (jp & Hjp & _). by apply elem_of_nil in Hjp.
  - destruct IH as (b & Hrun & Hb).
    { intros jp Hjp. apply Hk. by right. }
    assert (∀ P : Prop, ¬ pair_violates a i player_i (j, player_j) →
              ((∃ jp, jp ∈ js ∧ pair_violates a i player_i jp) ↔ P) →
              ((∃ jp, jp ∈ (j, player_j) :: js
                      ∧ pair_violates a i player_i jp) ↔ P)) as Hskip.
    { intros P Hno <-. split.
      - intros (jp & [->|Hjp]%elem_of_cons & Hv); [done | by exists jp].
      - intros (jp & Hjp & Hv). exists jp. split; [by right | done]. }
    destruct (decide (i = j)) as [->|Hij].
    { rewrite bool_decide_eq_true_2 by done. exists b. split; [done|].
      rewrite Hb. symmetry. apply Hskip; [|done]. intros (Hne & _). by apply Hne. }
    rewrite bool_decide_eq_false_2 by done.
    destruct (get_assignment a (name player_j)) as [|g0 gs] eqn:Hgoods.
    { exists b. split; [done|]. rewrite Hb. symmetry. apply Hskip; [|done].
      intros (_ & Hne & _). simpl in Hne. by rewrite Hgoods in Hne. }
    destruct (envy_after_any_removal_spec player_i
                (get_utility a (name player_i)) (g0 :: gs) (g0 :: gs))
      as (d & Hd & Hd').
    { specialize (Hk (j, player_j) (list_elem_of_here _ _)). simpl in Hk.
      by rewrite Hgoods in Hk. }
    rewrite Hd. simpl. destruct d.
    + exists false. split; [done|]. split; [|done]. intros _.
      exists (j, player_j). split; [left|].
      split; [done|]. simpl. rewrite Hgoods. split; [done|]. by apply Hd'.
    + exists b. split; [done|]. rewrite Hb. symmetry. apply Hskip; [|done].
      intros (_ & _ & Hall). simpl in Hall. rewrite Hgoods in Hall.
      apply Hd' in Hall. done.
Qed.

Lemma check_EFX_rows_spec (a : Allocation)
    (outer all : list (nat * Player)) :
  (∀ ip jp, ip ∈ outer → jp ∈ all →
     knows_goods ip.2 (get_assignment a (name jp.2))) →
  ∃ b, check_EFX_rows a outer all = Ok b ∧
       (b = false ↔
        ∃ ip jp, ip ∈ outer ∧ jp ∈ all ∧ pair_violates a ip.1 ip.2 jp).
Proof.
  induction outer as [|[i player_i] outer IH]; intros Hk; simpl.
  - exists true. split; [done|]. split; [done|].
    intros (ip & _ & Hip & _). by apply elem_of_nil in Hip.
  - destruct (check_EFX_row_spec a i player_i all) as (r & -> & Hr).
    { intros jp Hjp. apply (Hk (i, player_i) jp); [left | done]. }
    simpl. destruct r.
    + destruct IH as (b & -> & Hb).
      { intros ip jp Hip Hjp. apply Hk; [by right | done]. }
      exists b. split; [done|]. rewrite Hb. split.
      * intros (ip & jp & Hip & Hjp & Hv). exists ip, jp.
        split; [by right | done].
      * intros (ip & jp & [->|Hip]%elem_of_cons & Hjp & Hv).
        -- assert (true = false) as [=]. apply Hr. by exists jp.
        -- by exists ip, jp.
    + exists false. split; [done|]. split; [|done]. intros _.
      destruct Hr as [Hr _]. destruct (Hr eq_refl) as (jp & Hjp & Hv).
      exists (i, player_i), jp. split; [left | done].
Qed.

Lemma elem_of_enumerate {A} (l : list A) (i : nat) (x : A) :
  (i, x) ∈ enumerate l ↔ l !! i = Some x.
Proof.
  unfold enumerate. rewrite elem_of_lookup_imap. split.
  - by intros (i' & x' & [= -> ->] & H).
  - intros H. by exists i, x.
Qed.

(** The characterisation with the cached utility, as the code reads it. *)
Lemma check_EFX_cached (ps : list Player) (a : Allocation) :
  valuations_cover ps a →
  ∃ b, check_EFX (mkChecker ps) a = Ok b ∧
       (b = false ↔
        ∃ i j player_i player_j,
          ps !! i = Some player_i ∧ ps !! j = Some player_j ∧
          pair_violates a i player_i (j, player_j)).
Proof.
  intros Hcover. unfold check_EFX. simpl.
  destruct (check_EFX_rows_spec a (enumerate ps) (enumerate ps))
    as (b & Hrun & Hb).
  { intros [i p] [j q] Hi%elem_of_enumerate Hj%elem_of_enumerate. simpl.
    apply Hcover; by eapply list_elem_of_lookup_2. }
  exists b. split; [done|]. rewrite Hb. split.
  - intros ([i p] & [j q] & Hi%elem_of_enumerate & Hj%elem_of_enumerate & Hv).
    by exists i, j, p, q.
  - intros (i & j & p & q & Hi & Hj & Hv).
    exists (i, p), (j, q). by rewrite !elem_of_enumerate.
Qed.

Lemma check_EFX_characterisation (ps : list Player) (a : Allocation) :
  valuations_cover ps a →
  utilities_consistent ps a →
  ∃ b, check_EFX (mkChecker ps) a = Ok b ∧ (b = false ↔ EFX_violation ps a).
Proof.
  intros Hcover Hcons.
  destruct (check_EFX_cached ps a Hcover) as (b & Hrun & Hb).
  exists b. split; [done|]. rewrite Hb. unfold EFX_violation, pair_violates.
  split.
  - intros (i & j & p & q & Hi & Hj & Hne & Hgoods & Hall).
    exists i, j, p, q. repeat split; try done.
    intros g Hg. rewrite <- (Hcons p) by by eapply list_elem_of_lookup_2.
    by apply Hall.
  - intros (i & j & p & q & Hne & Hi & Hj & Hgoods & Hall).
    exists i, j, p, q. repeat split; try done.
    intros g Hg. simpl. rewrite (Hcons p) by by eapply list_elem_of_lookup_2.
    by apply Hall.
Qed.



(** ** Envy matrices *)

Lemma least_step_Ok (p : Player) (best : option (string * Q)) (g : string) :
  is_Ok (get_valuation p g) →
  least_step p best g
  = Ok match best with
       | None => Some (g, value_of p g)
       | Some (item, least) =>
           if Qltb (value_of p g) least
           then Some (g, value_of p g) else Some (item, least)
       end.
Proof.
  intros [v Hv]. unfold least_step, value_of. rewrite Hv. simpl.
  destruct best as [[item least]|]; [|done]. by destruct (Qltb v least).
Qed.

Lemma find_least_valued_Ok (p : Player) (bundle : list string) :
  knows_goods p bundle →
  find_least_valued p bundle = Ok (least_valued p bundle).
Proof.
  unfold find_least_valued, least_valued. generalize (@None (string * Q)).
  induction bundle as [|g bundle IH]; intros best Hk; [done|].
  change (least_step p best g ≫= for_each (least_step p) bundle = Ok
    (foldl (λ best good,
           match best with
           | None => Some (good, value_of p good)
           | Some (item, least) =>
               if Qltb (value_of p good) least
               then Some (good, value_of p good) else Some (item, least)
           end)
       match best with
       | None => Some (g, value_of p g)
       | Some (item, least) =>
           if Qltb (value_of p g) least
           then Some (g, value_of p g) else Some (item, least)
       end bundle)).
  rewrite least_step_Ok by (apply Hk; left). simpl. apply IH.
  intros g' Hg'. apply Hk. by right.
Qed.

Lemma row_loop (cell : envy_state → Player → result envy_state)
    (i : string) (entry : Player → Q) (js : list Player) :
  NoDup (name <$> js) →
  (∀ player_j, player_j ∈ js → cell_writes cell i entry player_j) →
  ∀ m t ind row, m !! i = Some row → is_Some (ind !! i) →
    ∃ m' t' ind' row',
      for_each cell js (m, t, ind) = Ok (m', t', ind') ∧
      m' !! i = Some row' ∧
      (∀ n, n ≠ i → m' !! n = m !! n) ∧
      (∀ player_j, player_j ∈ js →
         row' !! name player_j = Some (entry player_j)) ∧
      (∀ n, n ∉ name <$> js → row' !! n = row !! n).
Proof.
  induction js as [|pj js IH]; intros Hnd Hcell m t ind row Hrow Hind; simpl.
  - exists m, t, ind, row. repeat split; try done.
    intros pj Hpj. by apply elem_of_nil in Hpj.
  - rewrite fmap_cons in Hnd. apply NoDup_cons in Hnd as [Hfresh Hnd].
    destruct (Hcell pj (list_elem_of_here _ _) m t ind row Hrow Hind)
      as (t1 & ind1 & -> & Hind1). simpl.
    destruct (IH Hnd (λ q Hq, Hcell q (list_elem_of_further _ _ _ Hq))
                (<[i := <[name pj := entry pj]> row]> m) t1 ind1
                (<[name pj := entry pj]> row))
      as (m' & t' & ind' & row' & Hrun & Hrow' & Hothers & Hcells & Hrest).
    { apply lookup_insert_eq. }
    { done. }
    exists m', t', ind', row'. split; [done|]. split; [done|].
    split; [|split].
    + intros n Hn. rewrite Hothers by done. by rewrite lookup_insert_ne.
    + intros q [->|Hq]%elem_of_cons; [|by apply Hcells].
      rewrite Hrest by done. apply lookup_insert_eq.
    + intros n Hn. apply not_elem_of_cons in Hn as [Hn1 Hn2].
      rewrite Hrest by done. by rewrite lookup_insert_ne.
Qed.

Lemma matrix_loop (rowf : envy_state → Player → result envy_state)
    (cell : Player → envy_state → Player → result envy_state)
    (entry : Player → Player → Q) (all : list Player) :
  NoDup (name <$> all) →
  (∀ player_i m t ind, player_i ∈ all →
     rowf (m, t, ind) player_i
     = for_each (cell player_i) all
         (<[name player_i := ∅]> m, t, <[name player_i := 0%Q]> ind)) →
  (∀ player_i player_j, player_i ∈ all → player_j ∈ all →
     cell_writes (cell player_i) (name player_i) (entry player_i) player_j) →
  ∀ outer, outer ⊆ all → NoDup (name <$> outer) →
    ∀ m t ind,
    ∃ m' t' ind',
      for_each rowf outer (m, t, ind) = Ok (m', t', ind') ∧
      (∀ player_i player_j, player_i ∈ outer → player_j ∈ all →
         matrix_entry m' (name player_i) (name player_j)
         = Some (entry player_i player_j)) ∧
      (∀ n, n ∉ name <$> outer → m' !! n = m !! n).
Proof.
  intros Hnd Hrowf Hcell outer.
  induction outer as [|pi outer IH]; intros Hsub Hnd' m t ind; simpl.
  - exists m, t, ind. repeat split; try done.
    intros pi pj Hpi. by apply elem_of_nil in Hpi.
  - rewrite fmap_cons in Hnd'. apply NoDup_cons in Hnd' as [Hfresh Hnd'].
    assert (pi ∈ all) as Hpi by (apply Hsub; left).
    rewrite Hrowf by done.
    destruct (row_loop (cell pi) (name pi) (entry pi) all Hnd
                (λ q Hq, Hcell pi q Hpi Hq)
                (<[name pi := ∅]> m) t (<[name pi := 0%Q]> ind) ∅)
      as (m1 & t1 & ind1 & row1 & -> & Hrow1 & Hothers & Hcells & _).
    { apply lookup_insert_eq. }
    { rewrite lookup_insert_eq. by eexists. }
    simpl.
    destruct (IH (λ q Hq, Hsub q (list_elem_of_further _ _ _ Hq)) Hnd' m1 t1 ind1)
      as (m' & t' & ind' & Hrun & Hentries & Hrest).
    exists m', t', ind'. split; [done|]. split.
    + intros p q [->|Hp]%elem_of_cons Hq; [|by apply Hentries].
      unfold matrix_entry. rewrite Hrest by done. rewrite Hrow1. simpl.
      by apply Hcells.
    + intros n Hn. apply not_elem_of_cons in Hn as [Hn1 Hn2].
      rewrite Hrest by done. rewrite Hothers by done.
      by rewrite lookup_insert_ne.
Qed.

Lemma envy_cell_writes (a : Allocation) (player_i player_j : Player) :
  knows_goods player_i (get_assignment a (name player_j)) →
  cell_writes
    (envy_cell a player_i
       (total_value player_i (get_assignment a (name player_i))))
    (name player_i) (envy_entry a player_i) player_j.
Proof.
  intros Hk m t ind row Hrow [old Hind].
  unfold envy_cell, envy_entry, matrix_set, totals_add, dict_get.
  destruct (bool_decide (name player_i = name player_j)).
  - rewrite Hrow. simpl. exists t, ind. split; [done | by exists old].
  - rewrite (bundle_value_Ok _ _ Hk). simpl. rewrite Hrow, Hind. simpl.
    eexists _, _. split; [done|]. rewrite lookup_insert_eq. by eexists.
Qed.

Lemma efx_envy_cell_writes (a : Allocation) (player_i player_j : Player) :
  knows_goods player_i (get_assignment a (name player_j)) →
  cell_writes
    (efx_envy_cell a player_i
       (total_value player_i (get_assignment a (name player_i))))
    (name player_i) (efx_envy_entry a player_i) player_j.
Proof.
  intros Hk m t ind row Hrow [old Hind].
  unfold efx_envy_cell, efx_envy_entry, matrix_set, totals_add, dict_get.
  destruct (bool_decide (name player_i = name player_j)).
  { rewrite Hrow. simpl. exists t, ind. split; [done | by exists old]. }
  destruct (get_assignment a (name player_j)) as [|g0 gs] eqn:Hgoods.
  { rewrite Hrow. simpl. exists t, ind. split; [done | by exists old]. }
  rewrite (find_least_valued_Ok _ _ Hk). simpl.
  rewrite bundle_value_Ok.
  - simpl. rewrite Hrow, Hind. simpl.
    eexists _, _. split; [done|]. rewrite lookup_insert_eq. by eexists.
  - destruct (least_valued player_i (g0 :: gs)) as [[item least]|]; simpl;
      [by apply knows_goods_without | done].
Qed.

(** Both matrix functions return, and their entries are the
    specification-level ones. *)
Lemma envy_matrices_entries (ps : list Player) (a : Allocation) :
  NoDup (name <$> ps) →
  valuations_cover ps a →
  ∃ envy efx : envy_state,
    _calculate_envy_matrix ps a = Ok envy ∧
    _calculate_efx_envy_matrix ps a = Ok efx ∧
    ∀ player_i player_j, player_i ∈ ps → player_j ∈ ps →
      matrix_entry envy.1.1 (name player_i) (name player_j)
        = Some (envy_entry a player_i player_j) ∧
      matrix_entry efx.1.1 (name player_i) (name player_j)
        = Some (efx_envy_entry a player_i player_j).
Proof.
  intros Hnd Hcover.
  destruct (matrix_loop (envy_row ps a)
              (λ p, envy_cell a p (total_value p (get_assignment a (name p))))
              (envy_entry a) ps Hnd) with (outer := ps) (m := ∅ : gmap string (gmap string Q))
              (t := 0%Q) (ind := ∅ : gmap string Q)
    as (m1 & t1 & ind1 & Hrun1 & Hent1 & _); try done.
  { intros p m t ind Hp. unfold envy_row.
    by rewrite (bundle_value_Ok _ _ (Hcover p p Hp Hp)). }
  { intros p q Hp Hq. apply envy_cell_writes. by apply Hcover. }
  destruct (matrix_loop (efx_envy_row ps a)
              (λ p, efx_envy_cell a p
                      (total_value p (get_assignment a (name p))))
              (efx_envy_entry a) ps Hnd) with (outer := ps) (m := ∅ : gmap string (gmap string Q))
              (t := 0%Q) (ind := ∅ : gmap string Q)
    as (m2 & t2 & ind2 & Hrun2 & Hent2 & _); try done.
  { intros p m t ind Hp. unfold efx_envy_row.
    by rewrite (bundle_value_Ok _ _ (Hcover p p Hp Hp)). }
  { intros p q Hp Hq. apply efx_envy_cell_writes. by apply Hcover. }
  exists (m1, t1, ind1), (m2, t2, ind2).
  split; [done|]. split; [done|]. intros p q Hp Hq. split; simpl.
  - by apply Hent1.
  - by apply Hent2.
Qed.

(** Arithmetic of [max0] and of bundle values. *)

Lemma Qltb_true (x y : Q) : Qltb x y = true ↔ (x < y)%Q.
Proof.
  unfold Qltb. rewrite negb_true_iff. apply Qle_bool_false.
Qed.

Lemma Qltb_false (x y : Q) : Qltb x y = false ↔ (y <= x)%Q.
Proof.
  unfold Qltb. rewrite negb_false_iff. apply Qle_bool_iff.
Qed.

Lemma max0_nonneg (x : Q) : (0 <= max0 x)%Q.
Proof.
  unfold max0. destruct (Qltb 0 x) eqn:E; [|lra].
  apply Qltb_true in E. lra.
Qed.

Lemma max0_mono (x y : Q) : (x <= y)%Q → (max0 x <= max0 y)%Q.
Proof.
  intros Hxy. unfold max0.
  destruct (Qltb 0 x) eqn:Ex; destruct (Qltb 0 y) eqn:Ey;
    rewrite ?Qltb_true, ?Qltb_false in *; lra.
Qed.

Lemma max0_nonpos (x : Q) : (x <= 0)%Q → max0 x = 0%Q.
Proof.
  intros Hx. unfold max0. destruct (Qltb 0 x) eqn:E; [|done].
  apply Qltb_true in E. lra.
Qed.

Lemma max0_pos (x : Q) : (0 < x)%Q → max0 x = x.
Proof. intros Hx. unfold max0. by rewrite (proj2 (Qltb_true 0 x) Hx). Qed.

Lemma total_value_nil (p : Player) : total_value p [] = 0%Q.
Proof. done. Qed.

Lemma total_value_cons (p : Player) (g : string) (bundle : list string) :
  (total_value p (g :: bundle) == value_of p g + total_value p bundle)%Q.
Proof. unfold total_value. rewrite fmap_cons. apply py_sum_cons. Qed.

Lemma total_value_nonneg (p : Player) (bundle : list string) :
  (∀ g, g ∈ bundle → (0 <= value_of p g)%Q) →
  (0 <= total_value p bundle)%Q.
Proof.
  induction bundle as [|g bundle IH]; intros Hpos.
  - rewrite total_value_nil. lra.
  - rewrite total_value_cons.
    specialize (Hpos g (list_elem_of_here _ _)) as Hg.
    assert (0 <= total_value p bundle)%Q.
    { apply IH. intros g' Hg'. apply Hpos. by right. }
    lra.
Qed.

Lemma total_value_without_le (p : Player) (x : string) (bundle : list string) :
  (∀ g, g ∈ bundle → (0 <= value_of p g)%Q) →
  (total_value p (without x bundle) <= total_value p bundle)%Q.
Proof.
  unfold without. induction bundle as [|g bundle IH]; intros Hpos.
  - rewrite filter_nil. apply Qle_refl.
  - assert (total_value p (filter (λ g, g ≠ x) bundle)
            <= total_value p bundle)%Q as Hrec.
    { apply IH. intros g' Hg'. apply Hpos. by right. }
    specialize (Hpos g (list_elem_of_here _ _)) as Hg.
    rewrite filter_cons. destruct (decide (g ≠ x)).
    + rewrite !total_value_cons. lra.
    + rewrite total_value_cons. lra.
Qed.

Lemma least_valued_spec (p : Player) (bundle : list string) :
  bundle ≠ [] →
  ∃ item, least_valued p bundle = Some (item, value_of p item) ∧
          item ∈ bundle ∧
          ∀ g, g ∈ bundle → (value_of p item <= value_of p g)%Q.
Proof.
  intros Hne. unfold least_valued.
  destruct bundle as [|g0 bundle]; [done|]. simpl. clear Hne.
  assert (∀ (best : string) (seen : list string),
            best ∈ seen →
            (∀ g, g ∈ seen → (value_of p best <= value_of p g)%Q) →
            ∃ item,
              foldl (λ best good,
                match best with
                | None => Some (good, value_of p good)
                | Some (item, least) =>
                    if Qltb (value_of p good) least
                    then Some (good, value_of p good) else Some (item, least)
                end) (Some (best, value_of p best)) bundle
              = Some (item, value_of p item) ∧
              item ∈ (seen ++ bundle)%list ∧
              ∀ g, g ∈ (seen ++ bundle)%list → (value_of p item <= value_of p g)%Q)
    as Hgen.
  { induction bundle as [|g bundle IH]; intros best seen Hbest Hmin.
    - exists best. rewrite app_nil_r. done.
    - simpl. destruct (Qltb (value_of p g) (value_of p best)) eqn:E.
      + apply Qltb_true in E.
        destruct (IH g (seen ++ [g])%list) as (item & Hrun & Hin & Hle).
        * apply elem_of_app. right. left.
        * intros g' [Hg'|Hg']%elem_of_app.
          -- specialize (Hmin g' Hg'). lra.
          -- apply list_elem_of_singleton in Hg' as ->. lra.
        * exists item. rewrite <- app_assoc in Hin, Hle. done.
      + apply Qltb_false in E.
        destruct (IH best (seen ++ [g])%list) as (item & Hrun & Hin & Hle).
        * apply elem_of_app. by left.
        * intros g' [Hg'|Hg']%elem_of_app.
          -- by apply Hmin.
          -- apply list_elem_of_singleton in Hg' as ->. done.
        * exists item. rewrite <- app_assoc in Hin, Hle. done. }
  destruct (Hgen g0 [g0]) as (item & Hrun & Hin & Hle).
  - left.
  - intros g ->%list_elem_of_singleton. lra.
  - exists item. done.
Qed.

Lemma NoDup_names_inj (ps : list Player) (p q : Player) :
  NoDup (name <$> ps) → p ∈ ps → q ∈ ps → name p = name q → p = q.
Proof.
  induction ps as [|r ps IH]; intros Hnd Hp Hq Hname.
  - by apply elem_of_nil in Hp.
  - rewrite fmap_cons in Hnd. apply NoDup_cons in Hnd as [Hfresh Hnd].
    apply elem_of_cons in Hp as [->|Hp]; apply elem_of_cons in Hq as [->|Hq].
    + done.
    + destruct Hfresh. rewrite Hname. by apply list_elem_of_fmap_2.
    + destruct Hfresh. rewrite <- Hname. by apply list_elem_of_fmap_2.
    + by apply IH.
Qed.

(** ** C4: envy dominance *)

(** C4, as stated, fails in its last part: with [P1] holding [B] and [P2]
    holding the single good [A], [envy(P1,P2)] is 2 while [efx_envy(P1,P2)]
    is 0, although [bundle_P2] has exactly one good. *)
Lemma efx_envy_differs_on_singleton_bundle :
  ∃ envy efx : envy_state,
    _calculate_envy_matrix scenario_players singleton_envy_allocation
      = Ok envy ∧
    _calculate_efx_envy_matrix scenario_players singleton_envy_allocation
      = Ok efx ∧
    length (get_assignment singleton_envy_allocation "P2") = 1%nat ∧
    matrix_entry envy.1.1 "P1" "P2" = Some 2%Q ∧
    matrix_entry efx.1.1 "P1" "P2" = Some 0%Q.
Proof.
  eexists _, _. split; [vm_compute; reflexivity|].
  split; [vm_compute; reflexivity|].
  split; [reflexivity|]. split; vm_compute; reflexivity.
Qed.

(** C4 (amended). For nonnegative valuations, both matrix functions
    return and for every ordered pair [(i, j)]:
    [efx_envy(i,j) <= envy(i,j)]; both diagonals are 0;
    [envy(i,j) = max(0, v_i(bundle_j) - v_i(bundle_i))] and [efx_envy]
    removes from [bundle_j] an item [i] values least; and when [bundle_j]
    has at most one good [efx_envy(i,j)] is 0 (it equals [envy(i,j)] when
    [bundle_j] is empty, where both are 0). *)
Theorem efx_envy_below_envy (ps : list Player) (a : Allocation) :
  NoDup (name <$> ps) →
  valuations_cover ps a →
  nonnegative_valuations ps a →
  ∃ envy efx : envy_state,
    _calculate_envy_matrix ps a = Ok envy ∧
    _calculate_efx_envy_matrix ps a = Ok efx ∧
    ∀ player_i player_j, player_i ∈ ps → player_j ∈ ps →
      let bundle_i := get_assignment a (name player_i) in
      let bundle_j := get_assignment a (name player_j) in
      ∃ e x : Q,
        matrix_entry envy.1.1 (name player_i) (name player_j) = Some e ∧
        matrix_entry efx.1.1 (name player_i) (name player_j) = Some x ∧
        (x <= e)%Q ∧
        (player_i = player_j → e = 0%Q ∧ x = 0%Q) ∧
        (player_i ≠ player_j →
           e = max0 (total_value player_i bundle_j
                     - total_value player_i bundle_i)) ∧
        (player_i ≠ player_j → bundle_j ≠ [] →
           ∃ item, item ∈ bundle_j ∧
             (∀ g, g ∈ bundle_j →
                (value_of player_i item <= value_of player_i g)%Q) ∧
             x = max0 (total_value player_i (without item bundle_j)
                       - total_value player_i bundle_i)) ∧
        (length bundle_j ≤ 1 → x = 0%Q)%nat ∧
        (bundle_j = [] → e = 0%Q).
Proof.
  intros Hnd Hcover Hpos.
  destruct (envy_matrices_entries ps a Hnd Hcover)
    as (envy & efx & Henvy & Hefx & Hentries).
  exists envy, efx. split; [done|]. split; [done|].
  intros p q Hp Hq bundle_i bundle_j.
  destruct (Hentries p q Hp Hq) as [He Hx].
  exists (envy_entry a p q), (efx_envy_entry a p q).
  split; [done|]. split; [done|].
  assert (0 <= total_value p bundle_i)%Q as Hui.
  { apply total_value_nonneg. intros g Hg. by apply (Hpos p p g). }
  assert (∀ g, g ∈ bundle_j → (0 <= value_of p g)%Q) as Hposj.
  { intros g Hg. by apply (Hpos p q g). }
  unfold envy_entry, efx_envy_entry. fold bundle_i bundle_j.
  destruct (decide (name p = name q)) as [Hname|Hname].
  { rewrite !bool_decide_eq_true_2 by done.
    assert (p = q) as Hpq by by apply (NoDup_names_inj ps).
    split; [apply Qle_refl|]. split; [done|].
    split; [intros Hne; by destruct Hne|].
    split; [intros Hne; by destruct Hne|]. done. }
  rewrite !bool_decide_eq_false_2 by done.
  assert (p ≠ q) as Hpq by (intros ->; by apply Hname).
  destruct bundle_j as [|g0 gs] eqn:Hbj.
  { rewrite total_value_nil.
    assert (max0 (0 - total_value p bundle_i) = 0%Q) as Hzero
      by (apply max0_nonpos; lra).
    rewrite Hzero. split; [apply Qle_refl|].
    split; [intros Heq; by destruct Hpq|]. done. }
  destruct (least_valued_spec p (g0 :: gs)) as (item & Hleast & Hin & Hmin);
    [done|].
  rewrite Hleast. simpl.
  split; [|split; [done|split; [done|split; [|split; [|done]]]]].
  - apply max0_mono.
    pose proof (total_value_without_le p item (g0 :: gs) Hposj). lra.
  - intros _ _. by exists item.
  - intros Hlen. destruct gs; [|simpl in Hlen; lia].
    apply list_elem_of_singleton in Hin as ->.
    unfold without. rewrite filter_cons, filter_nil.
    destruct (decide (g0 ≠ g0)); [done|].
    rewrite total_value_nil. apply max0_nonpos. lra.
Qed.

Lemma efx_envy_below_envy_witness :
  NoDup (name <$> scenario_players) ∧
  valuations_cover scenario_players singleton_envy_allocation ∧
  nonnegative_valuations scenario_players singleton_envy_allocation ∧
  ∃ envy efx : envy_state,
    _calculate_envy_matrix scenario_players singleton_envy_allocation
      = Ok envy ∧
    _calculate_efx_envy_matrix scenario_players singleton_envy_allocation
      = Ok efx.
Proof.
  assert (NoDup (name <$> scenario_players)) as Hnd.
  { apply (bool_decide_unpack (NoDup (name <$> scenario_players))).
    vm_compute. exact I. }
  assert (valuations_cover scenario_players singleton_envy_allocation)
    as Hcover.
  { intros p q Hp Hq g Hg. unfold scenario_players in Hp, Hq.
    elem_cases Hp; elem_cases Hq; vm_compute in Hg; elem_cases Hg;
      eexists; vm_compute; reflexivity. }
  assert (nonnegative_valuations scenario_players singleton_envy_allocation)
    as Hpos.
  { intros p q g Hp Hq Hg. unfold scenario_players in Hp, Hq.
    elem_cases Hp; elem_cases Hq; vm_compute in Hg; elem_cases Hg;
      vm_compute; discriminate. }
  split; [exact Hnd|]. split; [exact Hcover|]. split; [exact Hpos|].
  destruct (efx_envy_below_envy scenario_players singleton_envy_allocation
              Hnd Hcover Hpos) as (envy & efx & H1 & H2 & _).
  by exists envy, efx.
Defined.

(** ** Lists: removal, sorting, slicing *)

Lemma list_remove_spec (x : string) (l : list string) :
  x ∈ l →
  ∃ l', list_remove x l = Ok l' ∧ l ≡ₚ x :: l'.
Proof.
  induction l as [|y l IH]; intros Hx.
  - by apply elem_of_nil in Hx.
  - simpl. destruct (decide (y = x)) as [->|Hne].
    + rewrite bool_decide_eq_true_2 by done. by exists l.
    + rewrite bool_decide_eq_false_2 by done.
      apply elem_of_cons in Hx as [->|Hx]; [done|].
      destruct (IH Hx) as (l' & -> & Hperm). exists (y :: l'). split; [done|].
      rewrite Hperm. apply Permutation_swap.
Qed.

Lemma insert_desc_perm {A} (key : A → Q) (x : A) (l : list A) :
  insert_desc key x l ≡ₚ x :: l.
Proof.
  induction l as [|y l IH]; simpl; [done|].
  destruct (Qltb (key x) (key y)); [|done].
  rewrite IH. apply Permutation_swap.
Qed.

Lemma sort_desc_perm {A} (key : A → Q) (l : list A) : sort_desc key l ≡ₚ l.
Proof.
  unfold sort_desc. induction l as [|x l IH]; simpl; [done|].
  by rewrite insert_desc_perm, IH.
Qed.

Lemma insert_desc_head_max {A} (key : A → Q) (x : A) (l : list A) :
  head_is_max key l → head_is_max key (insert_desc key x l).
Proof.
  intros Hmax. destruct l as [|y l]; simpl.
  - intros z [= <-] w Hw. apply list_elem_of_singleton in Hw as ->.
    apply Qle_refl.
  - destruct (Qltb (key x) (key y)) eqn:E.
    + apply Qltb_true in E. intros z [= <-] w Hw.
      apply elem_of_cons in Hw as [->|Hw]; [apply Qle_refl|].
      rewrite insert_desc_perm in Hw.
      apply elem_of_cons in Hw as [->|Hw]; [lra|].
      apply (Hmax y); [done | by right].
    + apply Qltb_false in E. intros z [= <-] w Hw.
      apply elem_of_cons in Hw as [->|Hw]; [apply Qle_refl|].
      specialize (Hmax y eq_refl w Hw). lra.
Qed.

Lemma sort_desc_head_max {A} (key : A → Q) (l : list A) :
  head_is_max key (sort_desc key l).
Proof.
  unfold sort_desc. induction l as [|x l IH]; simpl.
  - intros x [=].
  - by apply insert_desc_head_max.
Qed.

Lemma slice_to_prefix {A} (n : Z) (l : list A) :
  ∃ k, slice_to n l = take k l ∧ ((1 <= n)%Z → (1 ≤ k)%nat).
Proof.
  unfold slice_to. destruct (0 <=? n)%Z eqn:E.
  - exists (Z.to_nat n). split; [done|]. lia.
  - exists (length l - Z.to_nat (- n))%nat. split; [done|]. lia.
Qed.

(** ** Phase 1A: the functions return *)

Lemma get_valuation_value_of (p : Player) (g : string) :
  is_Ok (get_valuation p g) → get_valuation p g = Ok (value_of p g).
Proof. intros [v Hv]. unfold value_of. by rewrite Hv. Qed.

Lemma mapM_options_Ok (p : Player) (available_goods : list string) :
  knows_goods p available_goods →
  mapM (λ g, v ← get_valuation p g; Ok (mkChoice g v None)) available_goods
  = Ok (plain_options p available_goods).
Proof.
  unfold plain_options.
  induction available_goods as [|g l IH]; intros Hk; [done|].
  simpl. rewrite get_valuation_value_of by (apply Hk; left). simpl.
  rewrite IH; [done|]. intros g' Hg'. apply Hk. by right.
Qed.

Lemma mapM_valuations_Ok (p : Player) (l : list string) :
  knows_goods p l → mapM (get_valuation p) l = Ok (value_of p <$> l).
Proof.
  induction l as [|g l IH]; intros Hk; [done|].
  simpl. rewrite get_valuation_value_of by (apply Hk; left). simpl.
  rewrite IH; [done|]. intros g' Hg'. apply Hk. by right.
Qed.

Lemma get_top_options_Ok (p : Player) (available_goods : list string) (n : Z) :
  knows_goods p available_goods →
  _get_top_options p available_goods n
  = Ok (slice_to n (sort_desc value (plain_options p available_goods))).
Proof.
  intros Hk. unfold _get_top_options. by rewrite mapM_options_Ok.
Qed.

Lemma knows_goods_subset (p : Player) (l l' : list string) :
  (∀ g, g ∈ l' → g ∈ l) → knows_goods p l → knows_goods p l'.
Proof. intros Hsub Hk g Hg. apply Hk. by apply Hsub. Qed.

Lemma best_pick_Ok (p : Player) (simulated_goods : list string) :
  knows_goods p simulated_goods →
  ∃ pick, best_pick p simulated_goods = Ok pick ∧
          ∀ g, pick.2 = Some g → g ∈ simulated_goods.
Proof.
  intros Hk. unfold best_pick.
  apply (for_each_inv (λ st, ∀ g, st.2 = Some g → g ∈ simulated_goods)).
  - by intros g [=].
  - intros st g Hg Hst. unfold best_pick_step.
    rewrite get_valuation_value_of by by apply Hk. simpl.
    destruct (Qltb st.1 (value_of p g)).
    + eexists. split; [done|]. by intros g' [= <-].
    + by exists st.
Qed.

Lemma simulate_picks_unfold (p : Player) (rest : list Player) (total : Q)
    (gs : list string) :
  gs ≠ [] →
  simulate_picks (p :: rest) total gs
  = pick ← best_pick p gs;
    match pick.2 with
    | Some best_good =>
        if str_truthy best_good then
          goods' ← list_remove best_good gs;
          simulate_picks rest (total + pick.1)%Q goods'
        else simulate_picks rest total gs
    | None => simulate_picks rest total gs
    end.
Proof. by destruct gs. Qed.

Lemma simulate_picks_Ok (remaining_players : list Player)
    (total : Q) (simulated_goods : list string) :
  (∀ p, p ∈ remaining_players → knows_goods p simulated_goods) →
  is_Ok (simulate_picks remaining_players total simulated_goods).
Proof.
  revert total simulated_goods.
  induction remaining_players as [|p rest IH]; intros total gs Hk.
  - by eexists.
  - destruct (decide (gs = [])) as [->|Hne]; [by eexists|].
    rewrite simulate_picks_unfold by done.
    destruct (best_pick_Ok p gs) as (pick & -> & Hpick).
    { apply Hk. left. }
    simpl.
    assert (∀ q, q ∈ rest → knows_goods q gs) as Hk'.
    { intros q Hq. apply Hk. by right. }
    destruct pick.2 as [best_good|] eqn:E; [|by apply IH].
    destruct (str_truthy best_good); [|by apply IH].
    destruct (list_remove_spec best_good gs) as (l' & -> & Hperm).
    { by apply Hpick. }
    simpl. apply IH. intros q Hq.
    apply (knows_goods_subset q gs); [|by apply Hk'].
    intros g Hg. rewrite Hperm. by right.
Qed.

Lemma calculate_future_benefit_Ok (remaining_players : list Player)
    (remaining_goods : list string) :
  (∀ p, p ∈ remaining_players → knows_goods p remaining_goods) →
  _calculate_future_benefit remaining_players remaining_goods
  = Ok (future_benefit remaining_players remaining_goods).
Proof.
  intros Hk. unfold future_benefit.
  assert (is_Ok (_calculate_future_benefit remaining_players remaining_goods))
    as [b Hb]; [|by rewrite Hb].
  unfold _calculate_future_benefit.
  destruct remaining_players as [|p rest]; [by eexists|].
  destruct remaining_goods as [|g gs]; [by eexists|].
  destruct (simulate_picks_Ok (p :: rest) 0%Q (g :: gs) Hk) as [t ->].
  simpl. rewrite py_div_nonzero; [by eexists|].
  by apply Q_of_nat_nonzero.
Qed.

Lemma opportunity_cost_Ok (next_player : Player)
    (available_goods : list string) (g : string) :
  knows_goods next_player available_goods → g ∈ available_goods →
  opportunity_cost next_player available_goods g
  = Ok (cost_of next_player available_goods g).
Proof.
  intros Hk Hg. unfold cost_of.
  assert (is_Ok (opportunity_cost next_player available_goods g)) as [c Hc];
    [|by rewrite Hc].
  unfold opportunity_cost.
  rewrite get_valuation_value_of by by apply Hk.
  destruct (without g available_goods) as [|g0 gs] eqn:E; [by eexists|].
  rewrite (mapM_valuations_Ok next_player (g0 :: gs))
    by (rewrite <- E; by apply knows_goods_without).
  simpl. by eexists.
Qed.

(** ** Phase 1A: the consideration scan *)

Lemma sacrifice_ratio_of_Ok (best_value : Q) (opt : Choice) :
  sacrifice_ratio_of best_value (value opt)
  = Ok (sacrifice_ratio best_value opt).
Proof.
  unfold sacrifice_ratio_of, sacrifice_ratio, sacrifice_of.
  destruct (Qltb 0 best_value) eqn:E; [|done].
  apply Qltb_true in E. apply py_div_nonzero. lra.
Qed.

Lemma consider_option_Ok (cfg : Config) (remaining_players : list Player)
    (available_goods : list string) (ceiling best_value : Q)
    (st : Scan) (opt : Choice) :
  (∀ p, p ∈ remaining_players → knows_goods p available_goods) →
  consider_option cfg remaining_players available_goods ceiling best_value
    st opt
  = Ok (scan_step cfg remaining_players available_goods ceiling best_value
          st opt).
Proof.
  intros Hk. unfold consider_option, scan_step.
  rewrite sacrifice_ratio_of_Ok. simpl.
  destruct (Qltb ceiling (sacrifice_ratio best_value opt)); [done|].
  rewrite calculate_future_benefit_Ok.
  2:{ intros p Hp. apply knows_goods_without. by apply Hk. }
  simpl. unfold with_metrics, score_of, sacrifice_of.
  repeat match goal with |- context [if ?b then _ else _] => destruct b end;
    done.
Qed.

Lemma scan_loop_Ok (cfg : Config) (remaining_players : list Player)
    (available_goods : list string) (ceiling best_value : Q)
    (options : list Choice) (st : Scan) :
  (∀ p, p ∈ remaining_players → knows_goods p available_goods) →
  for_each (consider_option cfg remaining_players available_goods ceiling
              best_value) options st
  = Ok (foldl (scan_step cfg remaining_players available_goods ceiling
                 best_value) st options).
Proof.
  intros Hk. revert st. induction options as [|opt options IH]; intros st.
  - done.
  - cbn [for_each foldl]. rewrite consider_option_Ok by done. simpl.
    apply IH.
Qed.

Section ScanProofs.

Variables (cfg : Config) (remaining_players : list Player)
  (available_goods : list string) (ceiling best_value : Q)
  (best_option : Choice).

Local Abbreviation tol := (phase_1a_tie_tolerance cfg).
Local Abbreviation sc := (score_of remaining_players available_goods best_value).
Local Abbreviation wm :=
  (with_metrics remaining_players available_goods best_value).
Local Abbreviation step :=
  (scan_step cfg remaining_players available_goods ceiling best_value).
Local Abbreviation untouched :=
  (scan_untouched cfg remaining_players available_goods ceiling best_value
     best_option).
Local Abbreviation won :=
  (scan_won cfg remaining_players available_goods ceiling best_value).
Local Abbreviation nearb :=
  (near cfg remaining_players available_goods ceiling best_value).

Hypothesis tol_nonneg : (0 <= tol)%Q.

Local Ltac qlra := pose proof tol_nonneg; lra.

Lemma choice_in_fresh (opt : Choice) (l : list Choice) :
  good opt ∉ good <$> l → choice_in (wm opt) (wm <$> l) = false.
Proof.
  induction l as [|x l IH]; intros Hfresh; [done|].
  rewrite fmap_cons in Hfresh. apply not_elem_of_cons in Hfresh as [Hne Hfresh].
  rewrite fmap_cons. unfold choice_in. cbn [existsb].
  fold (choice_in (wm opt) (wm <$> l)). rewrite IH by done.
  rewrite orb_false_r. unfold choice_eqb. simpl.
  by rewrite bool_decide_eq_false_2.
Qed.

Lemma scan_step_untouched (scanned : list Choice) (st : Scan) (opt : Choice) :
  untouched scanned st →
  untouched (scanned ++ [opt])%list (step st opt)
  ∨ won (scanned ++ [opt])%list (step st opt).
Proof.
  intros [-> Hlow]. unfold scan_step. cbn [best_score best_choice tied_options].
  destruct (Qltb ceiling (sacrifice_ratio best_value opt)) eqn:Hsurv.
  { left. split; [done|]. intros s [Hs|Hs]%elem_of_app; [by apply Hlow|].
    apply list_elem_of_singleton in Hs as ->. unfold survivesb.
    by rewrite Hsurv. }
  destruct (Qltb (0 + tol) (sc opt)) eqn:Hraise.
  - right. apply Qltb_true in Hraise.
    exists scanned, opt, []. split; [done|].
    split; [unfold survivesb; by rewrite Hsurv|].
    split; [qlra|]. split; [|split; [|done]].
    + intros s Hs Hss. specialize (Hlow s Hs Hss). qlra.
    + intros s Hs. by apply elem_of_nil in Hs.
  - apply Qltb_false in Hraise.
    assert (Qltb 0 0 = false) as -> by done. rewrite andb_false_r.
    left. split; [done|]. intros s [Hs|Hs]%elem_of_app; [by apply Hlow|].
    apply list_elem_of_singleton in Hs as ->. intros _. qlra.
Qed.

Lemma scan_step_won (scanned : list Choice) (st : Scan) (opt : Choice) :
  good opt ∉ good <$> scanned →
  won scanned st → won (scanned ++ [opt])%list (step st opt).
Proof.
  intros Hfresh (before & w & after & -> & Hw & Hpos & Hbefore & Hafter & ->).
  unfold scan_step. cbn [best_score best_choice tied_options].
  assert (filter (λ s, nearb w s) (after ++ [opt])%list
          = (filter (λ s, nearb w s) after
             ++ if nearb w opt then [opt] else [])%list) as Hfilter.
  { rewrite filter_app. f_equal. rewrite filter_cons, filter_nil.
    destruct (nearb w opt); by case_decide. }
  destruct (Qltb ceiling (sacrifice_ratio best_value opt)) eqn:Hsurv.
  { exists before, w, (after ++ [opt])%list.
    split; [by rewrite <- app_assoc|]. split; [done|]. split; [done|].
    split; [done|]. split.
    - intros s [Hs|Hs]%elem_of_app; [by apply Hafter|].
      apply list_elem_of_singleton in Hs as ->. unfold survivesb.
      by rewrite Hsurv.
    - assert (nearb w opt = false) as Hnear
        by (unfold near, survivesb; by rewrite Hsurv).
      by rewrite Hfilter, Hnear, app_nil_r. }
  assert (survivesb ceiling best_value opt = true) as Hopt
    by (unfold survivesb; by rewrite Hsurv).
  destruct (Qltb (sc w + tol) (sc opt)) eqn:Hraise.
  - apply Qltb_true in Hraise.
    exists (before ++ w :: after)%list, opt, [].
    split; [done|]. split; [done|]. split; [qlra|]. split; [|split; [|done]].
    + intros s [Hs|[->|Hs]%elem_of_cons]%elem_of_app Hss.
      * specialize (Hbefore s Hs Hss). qlra.
      * qlra.
      * specialize (Hafter s Hs Hss). qlra.
    + intros s Hs. by apply elem_of_nil in Hs.
  - apply Qltb_false in Hraise.
    assert (Qltb 0 (sc w) = true) as -> by (apply Qltb_true; qlra).
    rewrite andb_true_r.
    assert (Qle_bool (Qabs (sc opt - sc w)) tol = nearb w opt) as Htie.
    { unfold near. rewrite Hopt, andb_true_l.
      apply eq_true_iff_eq. rewrite !Qle_bool_iff, Qabs_Qle_condition.
      split; [intros [H1 H2]; qlra | intros H; split; qlra]. }
    rewrite Htie.
    exists before, w, (after ++ [opt])%list.
    split; [by rewrite <- app_assoc|]. split; [done|]. split; [done|].
    split; [done|]. split.
    + intros s [Hs|Hs]%elem_of_app; [by apply Hafter|].
      apply list_elem_of_singleton in Hs as ->. done.
    + rewrite Hfilter.
      destruct (nearb w opt) eqn:Hnear.
      * change (wm w :: (wm <$> ?l)) with (wm <$> (w :: l)).
        rewrite choice_in_fresh.
        -- by rewrite !fmap_cons, fmap_app.
        -- intros Hin. apply Hfresh. rewrite fmap_app, fmap_cons.
           rewrite fmap_cons in Hin.
           apply elem_of_cons in Hin as [Hin|Hin].
           ++ apply elem_of_app. right. rewrite Hin. left.
           ++ apply elem_of_app. right. right.
              apply list_elem_of_fmap in Hin as (s & -> & Hs).
              apply list_elem_of_filter in Hs as [_ Hs].
              by apply list_elem_of_fmap_2.
      * by rewrite app_nil_r.
Qed.

Lemma scan_invariant (todo scanned : list Choice) (st : Scan) :
  NoDup (good <$> (scanned ++ todo)%list) →
  untouched scanned st ∨ won scanned st →
  untouched (scanned ++ todo)%list (foldl step st todo)
  ∨ won (scanned ++ todo)%list (foldl step st todo).
Proof.
  revert scanned st. induction todo as [|opt todo IH]; intros scanned st Hnd H.
  - by rewrite app_nil_r.
  - simpl. replace (scanned ++ opt :: todo)%list
      with ((scanned ++ [opt]) ++ todo)%list by by rewrite <- app_assoc.
    apply IH; [by rewrite <- app_assoc|].
    destruct H as [H|H].
    + by apply scan_step_untouched.
    + right. apply scan_step_won; [|done].
      rewrite fmap_app in Hnd. apply NoDup_app in Hnd as (_ & Hdisj & _).
      intros Hin. apply (Hdisj _ Hin). rewrite fmap_cons. left.
Qed.

End ScanProofs.

(** ** Phase 1A: the opportunity-cost tie-break *)

Lemma for_each_cons {S A} (body : S → A → result S) (x : A) (l : list A)
    (s : S) :
  for_each body (x :: l) s = body s x ≫= for_each body l.
Proof. done. Qed.

Lemma tie_step_Ok (next_player : Player) (available_goods : list string)
    (st : Choice * option Q) (x : Choice) :
  knows_goods next_player available_goods →
  good x ∈ available_goods →
  tie_step next_player available_goods st x
  = Ok match st.2 with
       | None => (x, Some (cost_of next_player available_goods (good x)))
       | Some lowest =>
           if Qltb (cost_of next_player available_goods (good x)) lowest
           then (x, Some (cost_of next_player available_goods (good x)))
           else st
       end.
Proof.
  intros Hk Hx. unfold tie_step. rewrite opportunity_cost_Ok by done.
  simpl. destruct st.2 as [lowest|]; [|done].
  by destruct (Qltb _ lowest).
Qed.

Lemma tie_loop_spec (next_player : Player) (available_goods : list string)
    (l : list Choice) (best : Choice) :
  knows_goods next_player available_goods →
  (∀ t, t ∈ l → good t ∈ available_goods) →
  ∃ best',
    for_each (tie_step next_player available_goods) l
      (best, Some (cost_of next_player available_goods (good best)))
    = Ok (best', Some (cost_of next_player available_goods (good best'))) ∧
    (best' = best ∨ best' ∈ l) ∧
    (cost_of next_player available_goods (good best')
     <= cost_of next_player available_goods (good best))%Q ∧
    ∀ t, t ∈ l →
      (cost_of next_player available_goods (good best')
       <= cost_of next_player available_goods (good t))%Q.
Proof.
  intros Hk. revert best. induction l as [|x l IH]; intros best Hgoods.
  - exists best. split; [done|]. split; [by left|]. split; [apply Qle_refl|].
    intros t Ht. by apply elem_of_nil in Ht.
  - rewrite for_each_cons, tie_step_Ok by (done || apply Hgoods; left).
    cbn [mbind result_bind snd].
    assert (∀ t, t ∈ l → good t ∈ available_goods) as Hgoods'
      by (intros t Ht; apply Hgoods; by right).
    destruct (Qltb (cost_of next_player available_goods (good x))
                (cost_of next_player available_goods (good best))) eqn:E.
    + apply Qltb_true in E.
      destruct (IH x Hgoods') as (b & -> & Hsrc & Hle & Hmin).
      exists b. split; [done|]. split; [|split].
      * right. destruct Hsrc as [->|Hb]; [left | by right].
      * lra.
      * intros t [->|Ht]%elem_of_cons; [done | by apply Hmin].
    + apply Qltb_false in E.
      destruct (IH best Hgoods') as (b & -> & Hsrc & Hle & Hmin).
      exists b. split; [done|]. split; [|split].
      * destruct Hsrc as [->|Hb]; [by left | right; by right].
      * done.
      * intros t [->|Ht]%elem_of_cons; [lra | by apply Hmin].
Qed.

Lemma break_tie_spec (tied : list Choice) (next_player : Player)
    (rest : list Player) (available_goods : list string) :
  tied ≠ [] →
  knows_goods next_player available_goods →
  (∀ t, t ∈ tied → good t ∈ available_goods) →
  ∃ c, _break_tie_with_opportunity_cost tied (next_player :: rest)
         available_goods = Ok c ∧
       c ∈ tied ∧
       ∀ t, t ∈ tied →
         (cost_of next_player available_goods (good c)
          <= cost_of next_player available_goods (good t))%Q.
Proof.
  intros Hne Hk Hgoods. destruct tied as [|first more]; [done|].
  unfold _break_tie_with_opportunity_cost.
  cbn [first_item mbind result_bind].
  rewrite for_each_cons, tie_step_Ok by (done || apply Hgoods; left).
  cbn [mbind result_bind snd].
  destruct (tie_loop_spec next_player available_goods more first Hk)
    as (c & -> & Hsrc & Hle & Hmin).
  { intros t Ht. apply Hgoods. by right. }
  exists c. split; [done|]. split.
  - destruct Hsrc as [->|Hc]; [left | by right].
  - intros t [->|Ht]%elem_of_cons; [done | by apply Hmin].
Qed.

(** ** Phase 1A: what [_choose_with_consideration] returns *)

Lemma choose_with_consideration_spec (cfg : Config) (next_player : Player)
    (rest : list Player) (available_goods : list string) (ceiling : Q)
    (head : Choice) (more : list Choice) :
  (0 <= phase_1a_tie_tolerance cfg)%Q →
  NoDup (good <$> head :: more) →
  (∀ o, o ∈ head :: more → good o ∈ available_goods) →
  (∀ p, p ∈ next_player :: rest → knows_goods p available_goods) →
  ∃ c, _choose_with_consideration cfg (head :: more) (next_player :: rest)
         available_goods ceiling = Ok c ∧
       chosen_by_scan cfg next_player rest available_goods ceiling
         head more c.
Proof.
  intros Htol Hnd Hgoods Hk. unfold _choose_with_consideration.
  cbn [first_item mbind result_bind]. rewrite scan_loop_Ok by done.
  cbn [mbind result_bind].
  destruct (scan_invariant cfg (next_player :: rest) available_goods ceiling
              (value head) head Htol (head :: more) []
              (mkScan head 0%Q [])) as [Hscan|Hscan].
  { done. }
  { left. split; [done|]. intros s Hs. by apply elem_of_nil in Hs. }
  - (* the scan state is still the initial one *)
    destruct Hscan as [-> Hlow]. simpl. exists head. split; [done|].
    left. split; [done|]. exact Hlow.
  - destruct Hscan as (before & w & after & Hsplit & Hw & Hpos & Hbefore
                       & Hafter & ->).
    cbn [tied_options best_choice].
    set (rp := next_player :: rest) in *.
    set (tied := tied_with cfg rp available_goods ceiling (value head) w after).
    assert (∀ s, s ∈ tied →
              survivesb ceiling (value head) s = true ∧
              (score_of rp available_goods (value head) w
               - phase_1a_tie_tolerance cfg
               <= score_of rp available_goods (value head) s)%Q ∧
              (score_of rp available_goods (value head) s
               <= score_of rp available_goods (value head) w
                  + phase_1a_tie_tolerance cfg)%Q) as Htied.
    { intros s [->|Hs]%elem_of_cons.
      - split; [done|]. split; lra.
      - apply list_elem_of_filter in Hs as [Hnear Hs].
        apply Is_true_true in Hnear. unfold near in Hnear.
        apply andb_true_iff in Hnear as [Hsurv Hle].
        apply Qle_bool_iff in Hle. split; [done|]. split; [done|].
        by apply Hafter. }
    assert (∀ t, t ∈ tied → good t ∈ available_goods) as Htgoods.
    { intros t Ht. apply Hgoods. simpl in Hsplit. rewrite Hsplit.
      apply elem_of_app. right.
      apply elem_of_cons in Ht as [->|Ht]; [left|right].
      by apply list_elem_of_filter in Ht as [_ Ht]. }
    change (with_metrics rp available_goods (value head) w
            :: (with_metrics rp available_goods (value head) <$>
                filter (λ s, near cfg rp available_goods ceiling
                               (value head) w s) after))
      with (with_metrics rp available_goods (value head) <$> tied).
    destruct (decide (1 < length (with_metrics rp available_goods
                                    (value head) <$> tied))%nat) as [Hlen|Hlen].
    + rewrite bool_decide_eq_true_2 by done.
      destruct (break_tie_spec
                  (with_metrics rp available_goods (value head) <$> tied)
                  next_player rest available_goods)
        as (c & Hrun & Hc & Hmin).
      { unfold tied, tied_with. by rewrite fmap_cons. }
      { apply Hk. left. }
      { intros t (t0 & -> & Ht0)%list_elem_of_fmap.
        change (good t0 ∈ available_goods). by apply Htgoods. }
      exists c. split; [exact Hrun|]. right.
      exists before, w, after. split; [done|]. split; [done|].
      split; [done|]. split; [done|]. split; [done|]. split; [exact Htied|].
      apply list_elem_of_fmap in Hc as (t & -> & Ht).
      exists t. split; [done|]. split; [done|].
      intros t' Ht'. apply (Hmin (with_metrics rp available_goods
                                    (value head) t')).
      by apply list_elem_of_fmap_2.
    + rewrite bool_decide_eq_false_2 by done.
      exists (with_metrics rp available_goods (value head) w).
      split; [done|]. right.
      exists before, w, after. split; [done|]. split; [done|].
      split; [done|]. split; [done|]. split; [done|]. split; [exact Htied|].
      exists w. split; [left|]. split; [done|].
      intros t' Ht'. rewrite length_fmap in Hlen.
      unfold tied, tied_with in Ht', Hlen.
      destruct (filter _ after); [|simpl in Hlen; lia].
      apply list_elem_of_singleton in Ht' as ->. apply Qle_refl.
Qed.

Lemma top_options_spec (p : Player) (available_goods : list string) (n : Z) :
  knows_goods p available_goods →
  available_goods ≠ [] →
  NoDup available_goods →
  (1 <= n)%Z →
  ∃ head more,
    _get_top_options p available_goods n = Ok (head :: more) ∧
    NoDup (good <$> head :: more) ∧
    (∀ o, o ∈ head :: more →
       good o ∈ available_goods ∧ value o = value_of p (good o)) ∧
    (∀ o, o ∈ head :: more → (value o <= value head)%Q).
Proof.
  intros Hk Hne Hnd Hn. rewrite get_top_options_Ok by done.
  set (sorted := sort_desc value (plain_options p available_goods)).
  assert (sorted ≡ₚ plain_options p available_goods) as Hperm
    by apply sort_desc_perm.
  assert (good <$> plain_options p available_goods = available_goods) as Hgoods.
  { unfold plain_options. rewrite <- list_fmap_compose.
    clear. induction available_goods as [|g l IH]; [done|].
    rewrite fmap_cons. simpl. by rewrite IH. }
  destruct (slice_to_prefix n sorted) as (k & -> & Hk1).
  specialize (Hk1 Hn).
  destruct sorted as [|head rest] eqn:Hsorted.
  { apply Permutation_nil_l in Hperm. unfold plain_options in Hperm.
    by destruct available_goods. }
  destruct k as [|k]; [lia|]. rewrite firstn_cons.
  exists head, (take k rest). split; [done|].
  assert (∀ o, o ∈ head :: take k rest → o ∈ head :: rest) as Hsub.
  { intros o [->|Ho]%elem_of_cons; [left|right].
    by apply (subseteq_take k rest). }
  split; [|split].
  - assert (NoDup (good <$> head :: rest)) as Hnd'.
    { rewrite Hperm, Hgoods. done. }
    rewrite fmap_cons in Hnd' |- *. apply NoDup_cons in Hnd' as [Hfresh Hnd'].
    apply NoDup_cons. split.
    + intros (o & Ho1 & Ho2)%list_elem_of_fmap. apply Hfresh.
      rewrite Ho1. apply list_elem_of_fmap_2. by apply (subseteq_take k rest).
    + rewrite fmap_take.
      apply (sublist_NoDup _ (good <$> rest)); [done | apply sublist_take].
  - intros o Ho%Hsub. rewrite Hperm in Ho. unfold plain_options in Ho.
    apply list_elem_of_fmap in Ho as (g & -> & Hg). done.
  - intros o Ho%Hsub.
    pose proof (sort_desc_head_max value (plain_options p available_goods))
      as Hmax.
    fold sorted in Hmax. rewrite Hsorted in Hmax.
    by apply (Hmax head).
Qed.

(** ** C6: the consideration choice *)




(** ** Phase 1A: the chosen good is one of the options *)

Lemma scan_membership (cfg : Config) (remaining_players : list Player)
    (available_goods : list string) (ceiling best_value : Q)
    (head : Choice) (options todo : list Choice) (st : Scan) :
  (∀ o, o ∈ todo → o ∈ options) →
  good (best_choice st) ∈ good <$> head :: options →
  (∀ t, t ∈ tied_options st → good t ∈ good <$> options) →
  let st' := foldl (scan_step cfg remaining_players available_goods ceiling
                      best_value) st todo in
  good (best_choice st') ∈ good <$> head :: options ∧
  ∀ t, t ∈ tied_options st' → good t ∈ good <$> options.
Proof.
  revert st. induction todo as [|opt todo IH]; intros st Hsub Hbest Htied.
  - done.
  - cbn [foldl]. apply IH.
    + intros o Ho. apply Hsub. by right.
    + unfold scan_step.
      repeat match goal with |- context [if ?b then _ else _] => destruct b end;
        try done.
      cbn [best_choice with_metrics good]. rewrite fmap_cons. right.
      apply list_elem_of_fmap_2, Hsub. left.
    + assert (good opt ∈ good <$> options) as Hopt
        by (apply list_elem_of_fmap_2, Hsub; left).
      unfold scan_step.
      repeat match goal with |- context [if ?b then _ else _] => destruct b end;
        try done; cbn [tied_options].
      * intros t ->%list_elem_of_singleton. done.
      * intros t [Ht|Ht]%elem_of_app; [by apply Htied|].
        by apply list_elem_of_singleton in Ht as ->.
Qed.

Lemma choose_returns_option (cfg : Config) (next_player : Player)
    (rest : list Player) (available_goods : list string) (ceiling : Q)
    (head : Choice) (more : list Choice) :
  (∀ o, o ∈ head :: more → good o ∈ available_goods) →
  (∀ p, p ∈ next_player :: rest → knows_goods p available_goods) →
  ∃ c, _choose_with_consideration cfg (head :: more) (next_player :: rest)
         available_goods ceiling = Ok c ∧
       good c ∈ available_goods.
Proof.
  intros Hgoods Hk. unfold _choose_with_consideration.
  cbn [first_item mbind result_bind]. rewrite scan_loop_Ok by done.
  cbn [mbind result_bind].
  destruct (scan_membership cfg (next_player :: rest) available_goods ceiling
              (value head) head (head :: more) (head :: more)
              (mkScan head 0%Q [])) as [Hbest Htied].
  { done. }
  { rewrite fmap_cons. left. }
  { intros t Ht. by apply elem_of_nil in Ht. }
  assert (∀ g, g ∈ good <$> head :: more → g ∈ available_goods) as Hin.
  { intros g (o & -> & Ho)%list_elem_of_fmap. by apply Hgoods. }
  set (st := foldl _ _ _) in *.
  destruct (decide (1 < length (tied_options st))%nat) as [Hlen|Hlen].
  - rewrite bool_decide_eq_true_2 by done.
    destruct (break_tie_spec (tied_options st) next_player rest
                available_goods) as (c & Hrun & Hc & _).
    { intros Hnil. rewrite Hnil in Hlen. simpl in Hlen. lia. }
    { apply Hk. left. }
    { intros t Ht. apply Hin. by apply Htied. }
    exists c. split; [done|]. apply Hin. by apply Htied.
  - rewrite bool_decide_eq_false_2 by done.
    exists (best_choice st). split; [done|].
    rewrite fmap_cons in Hbest.
    apply elem_of_cons in Hbest as [->|Hbest]; [|by apply Hin].
    apply Hgoods. left.
Qed.

(** ** C9: one good each after the round robin *)

Lemma round_robin_turns_spec (cfg : Config) (ordered : list Player)
    (allocation : gmap string (list string)) (available_goods : list string) :
  (1 <= top_options_to_consider cfg)%Z →
  NoDup (name <$> ordered) →
  NoDup available_goods →
  (∀ p, p ∈ ordered → knows_goods p available_goods) →
  (∀ p, p ∈ ordered → allocation !! name p = Some []) →
  ∃ allocation' chosen,
    round_robin_turns cfg ordered allocation available_goods
      = Ok allocation' ∧
    length chosen = (length ordered `min` length available_goods)%nat ∧
    NoDup chosen ∧
    (∀ g, g ∈ chosen → g ∈ available_goods) ∧
    (∀ n, n ∉ name <$> ordered → allocation' !! n = allocation !! n) ∧
    (∀ i p, ordered !! i = Some p →
       allocation' !! name p = Some (option_list (chosen !! i))).
Proof.
  intros Htop. revert allocation available_goods.
  induction ordered as [|current remaining IH];
    intros allocation avail Hnames Hnd Hk Hempty.
  { exists allocation, []. split; [done|]. split; [done|].
    split; [constructor|]. split; [|split; [done|]].
    - intros g Hg. by apply elem_of_nil in Hg.
    - intros i p Hp. by rewrite lookup_nil in Hp. }
  destruct avail as [|g0 avail0] eqn:Havail.
  { exists allocation, []. split; [done|]. split; [simpl; lia|].
    split; [constructor|]. split; [|split; [done|]].
    - intros g Hg. by apply elem_of_nil in Hg.
    - intros i p Hp. rewrite lookup_nil. simpl. apply Hempty.
      by eapply list_elem_of_lookup_2. }
  rewrite <- Havail in *.
  assert (avail ≠ []) as Hne by (rewrite Havail; done).
  assert (round_robin_turns cfg (current :: remaining) allocation avail
          = (player_options ← _get_top_options current avail
                                 (top_options_to_consider cfg);
             chosen_good ←
               match remaining with
               | [] => best_option ← first_item player_options;
                       Ok (good best_option)
               | _ => best ← _choose_with_consideration cfg player_options
                               remaining avail (max_sacrifice_threshold cfg);
                      Ok (good best)
               end;
             allocation' ← dict_append allocation (name current) chosen_good;
             available' ← list_remove chosen_good avail;
             round_robin_turns cfg remaining allocation' available'))
    as -> by (rewrite Havail; done).
  clear Havail g0 avail0.
  destruct (top_options_spec current avail (top_options_to_consider cfg))
    as (head & more & -> & _ & Hgoods & _); try done.
  { apply Hk. left. }
  cbn [mbind result_bind].
  assert (∃ chosen_good,
            match remaining with
            | [] => best_option ← first_item (head :: more);
                    Ok (good best_option)
            | _ => best ← _choose_with_consideration cfg (head :: more)
                            remaining avail (max_sacrifice_threshold cfg);
                   Ok (good best)
            end = Ok chosen_good ∧ chosen_good ∈ avail)
    as (chosen_good & -> & Hchosen).
  { destruct remaining as [|next rest].
    - exists (good head). split; [done|]. apply Hgoods. left.
    - destruct (choose_returns_option cfg next rest avail
                  (max_sacrifice_threshold cfg) head more)
        as (c & -> & Hc).
      + intros o Ho. by apply Hgoods.
      + intros p Hp. apply Hk. by right.
      + by exists (good c). }
  cbn [mbind result_bind]. unfold dict_append, dict_get.
  rewrite (Hempty current) by left. cbn [mbind result_bind app].
  destruct (list_remove_spec chosen_good avail Hchosen) as (avail' & -> & Hperm).
  cbn [mbind result_bind].
  rewrite fmap_cons in Hnames. apply NoDup_cons in Hnames as [Hfresh Hnames].
  assert (NoDup (chosen_good :: avail')) as Hnd' by by rewrite <- Hperm.
  apply NoDup_cons in Hnd' as [Hchosen' Hnd'].
  destruct (IH (<[name current := [chosen_good]]> allocation) avail')
    as (allocation' & chosen & Hrun & Hlen & Hndc & Hsub & Hothers & Hbundles);
    try done.
  { intros p Hp. apply (knows_goods_subset p avail).
    - intros g Hg. rewrite Hperm. by right.
    - apply Hk. by right. }
  { intros p Hp. rewrite lookup_insert_ne.
    - apply Hempty. by right.
    - intros Heq. apply Hfresh. rewrite Heq. by apply list_elem_of_fmap_2. }
  exists allocation', (chosen_good :: chosen). split; [done|].
  split; [|split; [|split; [|split]]].
  - apply Permutation_length in Hperm. cbn [length] in Hperm |- *.
    rewrite Hlen, Hperm. by rewrite Nat.succ_min_distr.
  - apply NoDup_cons. split; [|done]. intros Hin. apply Hchosen'.
    by apply Hsub.
  - intros g [->|Hg]%elem_of_cons; [done|]. rewrite Hperm. right.
    by apply Hsub.
  - intros n Hn. rewrite fmap_cons in Hn.
    apply not_elem_of_cons in Hn as [Hn1 Hn2].
    rewrite Hothers by done. by rewrite lookup_insert_ne.
  - intros [|i] p Hp.
    + injection Hp as <-. simpl. rewrite Hothers by done.
      apply lookup_insert_eq.
    + simpl. by apply Hbundles.
Qed.

Lemma initial_allocation_empty (ps : list Player) (p : Player) :
  p ∈ ps →
  foldl (λ d player, <[name player := []]> d)
    (∅ : gmap string (list string)) ps !! name p = Some [].
Proof.
  generalize (∅ : gmap string (list string)).
  induction ps as [|q ps IH] using rev_ind; intros d Hp.
  - by apply elem_of_nil in Hp.
  - rewrite foldl_snoc.
    destruct (decide (name q = name p)) as [Heq|Hne].
    + rewrite Heq. apply lookup_insert_eq.
    + rewrite lookup_insert_ne by done. apply IH.
      apply elem_of_app in Hp as [Hp|Hp]; [done|].
      apply list_elem_of_singleton in Hp. congruence.
Qed.

Lemma concat_option_list {A} (f : A → list string) (l : list A)
    (chosen : list string) :
  (length chosen ≤ length l)%nat →
  (∀ i x, l !! i = Some x → f x = option_list (chosen !! i)) →
  concat (f <$> l) = chosen.
Proof.
  revert chosen. induction l as [|x l IH]; intros chosen Hlen Hf.
  - destruct chosen; [done | simpl in Hlen; lia].
  - rewrite fmap_cons. simpl. rewrite (Hf 0%nat x) by done.
    destruct chosen as [|g chosen]; simpl.
    + apply (IH []); [simpl; lia|]. intros i y Hy.
      rewrite (Hf (S i) y) by done. done.
    + f_equal. apply IH; [simpl in Hlen; lia|]. intros i y Hy.
      by rewrite (Hf (S i) y).
Qed.

Lemma concat_fmap_perm {A} (f : A → list string) (l1 l2 : list A) :
  l1 ≡ₚ l2 → concat (f <$> l1) ≡ₚ concat (f <$> l2).
Proof.
  induction 1 as [|x l1 l2 _ IH|x y l|l1 l2 l3 _ IH1 _ IH2]; simpl.
  - done.
  - by rewrite IH.
  - rewrite !app_assoc. f_equiv. apply Permutation_app_comm.
  - by rewrite IH1.
Qed.

(** C9. After Phase 1A every one of the four players holds at most one
    good, exactly [min(4, number of goods)] goods have been assigned in
    total, every assigned good comes from the input goods list, and no
    good is assigned twice. *)
Theorem round_robin_one_good_each (cfg : Config) (ps : list Player)
    (gs : list string) :
  length ps = 4%nat →
  NoDup (name <$> ps) →
  NoDup gs →
  (∀ p, p ∈ ps → knows_goods p gs) →
  (1 <= top_options_to_consider cfg)%Z →
  ∃ allocation,
    _initial_round_robin_with_consideration cfg ps gs = Ok allocation ∧
    (∀ p, p ∈ ps →
       ∃ bundle, allocation !! name p = Some bundle ∧ (length bundle ≤ 1)%nat) ∧
    length (assigned_goods allocation ps) = (4 `min` length gs)%nat ∧
    (∀ g, g ∈ assigned_goods allocation ps → g ∈ gs) ∧
    NoDup (assigned_goods allocation ps).
Proof.
  intros Hfour Hnames Hnd Hk Htop.
  unfold _initial_round_robin_with_consideration.
  set (ordered := sort_desc get_std_deviation ps).
  assert (ordered ≡ₚ ps) as Hperm by apply sort_desc_perm.
  destruct (round_robin_turns_spec cfg ordered
              (foldl (λ d player, <[name player := []]> d) ∅ ps) gs)
    as (allocation & chosen & Hrun & Hlen & Hndc & Hsub & _ & Hbundles);
    try done.
  { by rewrite Hperm. }
  { intros p Hp. apply Hk. by rewrite <- Hperm. }
  { intros p Hp. apply initial_allocation_empty. by rewrite <- Hperm. }
  exists allocation. split; [done|].
  assert (assigned_goods allocation ps ≡ₚ chosen) as Hassigned.
  { unfold assigned_goods. rewrite <- (concat_fmap_perm _ _ _ Hperm).
    rewrite (concat_option_list _ ordered chosen); [done | lia |].
    intros i p Hp. unfold bundle_of. by rewrite (Hbundles i p Hp). }
  split; [|split; [|split]].
  - intros p Hp. rewrite <- Hperm in Hp.
    apply list_elem_of_lookup in Hp as [i Hi].
    rewrite (Hbundles i p Hi). eexists. split; [done|].
    destruct (chosen !! i); simpl; lia.
  - rewrite Hassigned, Hlen, (Permutation_length Hperm), Hfour. done.
  - intros g Hg. apply Hsub. by rewrite <- Hassigned.
  - by rewrite Hassigned.
Qed.

Lemma round_robin_one_good_each_witness :
  ∃ allocation,
    _initial_round_robin_with_consideration default_config scenario_players
      ["A"; "B"; "C"; "D"] = Ok allocation ∧
    length (assigned_goods allocation scenario_players) = 4%nat.
Proof.
  destruct (round_robin_one_good_each default_config scenario_players
              ["A"; "B"; "C"; "D"])
    as (allocation & Hrun & _ & Hlen & _).
  - reflexivity.
  - apply (bool_decide_unpack (NoDup (name <$> scenario_players))).
    vm_compute. exact I.
  - apply (bool_decide_unpack (NoDup ["A"; "B"; "C"; "D"])).
    vm_compute. exact I.
  - intros p Hp g Hg. unfold scenario_players in Hp.
    elem_cases Hp; elem_cases Hg; eexists; vm_compute; reflexivity.
  - simpl. lia.
  - by exists allocation.
Defined.

(** ** Phase 1B: the champion graph is built and searched without error *)

Lemma length_alist_insert (k v : string) (d : list (string * string)) :
  (length (alist_insert k v d) ≤ S (length d))%nat.
Proof.
  induction d as [|[k' v'] d IH]; simpl; [lia|].
  case_bool_decide; simpl; lia.
Qed.

Lemma champion_step_Ok (allocation : gmap string (list string))
    (target_name : string) (target_bundle : list string)
    (st : option Player * Q * option Q) (pc : Player) :
  is_Some (allocation !! name pc) →
  knows_goods pc (bundle_of allocation pc) →
  knows_goods pc target_bundle →
  is_Ok (champion_step allocation target_name target_bundle st pc).
Proof.
  intros [bundle Hb] Hk1 Hk2. unfold champion_step.
  destruct st as [[best_champion best_gain] best_current_utility].
  case_bool_decide; [by eexists|].
  unfold dict_get. rewrite Hb. cbn [mbind result_bind].
  unfold bundle_of in Hk1. rewrite Hb in Hk1. simpl in Hk1.
  rewrite (bundle_value_Ok _ _ Hk1). cbn [mbind result_bind].
  rewrite (bundle_value_Ok _ _ Hk2). cbn [mbind result_bind].
  destruct (_ || _); by eexists.
Qed.

Lemma allocation_ready_own (ps : list Player) (good : string)
    (allocation : gmap string (list string)) (p q : Player) :
  allocation_ready ps good allocation → p ∈ ps → q ∈ ps →
  knows_goods p (bundle_of allocation q).
Proof.
  intros [_ Hk] Hp Hq g Hg. apply (Hk p q Hp Hq). apply elem_of_app. by left.
Qed.

Lemma champion_target_Ok (ps : list Player) (good : string)
    (allocation : gmap string (list string))
    (graph : list (string * string)) (target : Player) :
  allocation_ready ps good allocation → target ∈ ps →
  ∃ graph', champion_target ps good allocation graph target = Ok graph' ∧
            (length graph' ≤ S (length graph))%nat.
Proof.
  intros Hready Ht. unfold champion_target. unfold dict_get.
  destruct (proj1 Hready target Ht) as [bundle Hb]. rewrite Hb.
  cbn [mbind result_bind].
  destruct (for_each_inv (λ _, True)
              (champion_step allocation (name target) (bundle ++ [good])%list)
              ps (None, (-1)%Q, None) I) as (st & -> & _).
  { intros st pc Hpc _.
    destruct (champion_step_Ok allocation (name target)
                (bundle ++ [good])%list st pc) as [st' Hst'].
    - by apply (proj1 Hready).
    - by apply (allocation_ready_own ps good).
    - pose proof (proj2 Hready pc target Hpc Ht) as Hk.
      unfold bundle_of in Hk. by rewrite Hb in Hk.
    - by exists st'. }
  cbn [mbind result_bind].
  destruct st as [[[champion|] best_gain] u]; [|exists graph; split; [done|lia]].
  destruct (Qltb 0 best_gain); [|exists graph; split; [done|lia]].
  eexists. split; [done|]. apply length_alist_insert.
Qed.

Lemma build_champion_graph_Ok (ps : list Player) (good : string)
    (allocation : gmap string (list string)) :
  allocation_ready ps good allocation →
  ∃ graph, _build_champion_graph ps good allocation = Ok graph ∧
           (length graph ≤ length ps)%nat.
Proof.
  intros Hready. unfold _build_champion_graph.
  assert (∀ outer graph0, (∀ p, p ∈ outer → p ∈ ps) →
            ∃ graph, for_each (champion_target ps good allocation) outer graph0
                     = Ok graph ∧
                     (length graph ≤ length outer + length graph0)%nat) as Hgen.
  { induction outer as [|t outer IH]; intros graph0 Hsub.
    - exists graph0. split; [done|]. simpl. lia.
    - rewrite for_each_cons.
      destruct (champion_target_Ok ps good allocation graph0 t Hready)
        as (graph1 & -> & Hlen1); [apply Hsub; left|].
      cbn [mbind result_bind].
      destruct (IH graph1) as (graph & -> & Hlen).
      { intros p Hp. apply Hsub. by right. }
      exists graph. split; [done|]. simpl. lia. }
  destruct (Hgen ps [] (λ p Hp, Hp)) as (graph & -> & Hlen).
  exists graph. split; [done|]. simpl in Hlen. lia.
Qed.

Lemma size_list_to_set_le (l : list string) :
  (size (list_to_set l : gset string) ≤ length l)%nat.
Proof.
  induction l as [|x l IH].
  - rewrite list_to_set_nil, size_empty. done.
  - rewrite list_to_set_cons, size_union_alt, size_singleton. cbn [length].
    assert (size ((list_to_set l : gset string) ∖ {[x]})
            ≤ size (list_to_set l : gset string))%nat as Hle
      by (apply subseteq_size; intros y Hy;
          by apply elem_of_difference in Hy as [Hy _]).
    lia.
Qed.

Lemma from_first_Ok (node : string) (path : list string) :
  node ∈ path → is_Ok (from_first node path).
Proof.
  induction path as [|x path IH]; intros Hin.
  - by apply elem_of_nil in Hin.
  - simpl. case_bool_decide; [by eexists|].
    apply IH. apply elem_of_cons in Hin as [->|Hin]; done.
Qed.

Lemma alist_lookup_value (k v : string) (graph : list (string * string)) :
  alist_lookup k graph = Some v → v ∈ graph.*2.
Proof.
  unfold alist_lookup.
  destruct (list_find _ graph) as [[i [k' v']]|] eqn:E; [|done].
  intros [= ->]. apply list_find_Some in E as (Hi & _ & _).
  apply list_elem_of_fmap. exists (k', v). split; [done|].
  by eapply list_elem_of_lookup_2.
Qed.

Lemma dfs_Ok (graph : list (string * string)) (depth : nat) :
  ∀ (visited : gset string) (node : string) (path : list string)
    (rec_stack : gset string),
    (size (nodes_of graph ∖ visited) < depth)%nat →
    node ∈ nodes_of graph →
    (∀ n, n ∈ rec_stack → n ∈ path) →
    is_Ok (dfs depth graph visited node path rec_stack).
Proof.
  induction depth as [|depth IH];
    intros visited node path rec_stack Hsize Hnode Hstack; [lia|].
  cbn [dfs]. case_bool_decide as Hrec.
  { destruct (from_first_Ok node path (Hstack node Hrec)) as [c ->].
    by eexists. }
  case_bool_decide as Hvis; [by eexists|].
  destruct (alist_lookup node graph) as [next|] eqn:Hnext; [|by eexists].
  destruct (IH ({[node]} ∪ visited) next (path ++ [node])%list
              ({[node]} ∪ rec_stack)) as [r ->].
  - assert (nodes_of graph ∖ ({[node]} ∪ visited)
            ⊂ nodes_of graph ∖ visited) as Hsub.
    { split.
      - intros y [Hy1 Hy2]%elem_of_difference. apply elem_of_difference.
        split; [done|]. intros Hy3. apply Hy2, elem_of_union. by right.
      - intros Hsup. assert (node ∈ nodes_of graph ∖ visited) as Hin
          by by apply elem_of_difference.
        apply Hsup, elem_of_difference in Hin as [_ Hin].
        apply Hin, elem_of_union. left. by apply elem_of_singleton. }
    apply subset_size in Hsub. lia.
  - unfold nodes_of. apply elem_of_list_to_set, elem_of_app. right.
    by eapply alist_lookup_value.
  - intros n [Hn|Hn]%elem_of_union.
    + apply elem_of_singleton in Hn as ->. apply elem_of_app. right. left.
    + apply elem_of_app. left. by apply Hstack.
  - cbn [mbind result_bind]. destruct r.1 as [[|c cycle]|]; by eexists.
Qed.

Lemma find_all_cycles_Ok (graph : list (string * string)) :
  (2 * length graph < recursion_limit)%nat →
  is_Ok (_find_all_cycles graph).
Proof.
  intros Hsmall. unfold _find_all_cycles.
  assert (size (nodes_of graph) < recursion_limit)%nat as Hsize.
  { unfold nodes_of.
    pose proof (size_list_to_set_le (graph.*1 ++ graph.*2)%list) as Hle.
    rewrite length_app, !length_fmap in Hle. lia. }
  destruct (for_each_inv (λ _, True) (cycles_step graph) graph.*1 (∅, []) I)
    as (st & -> & _); [|by eexists].
  intros [visited all_cycles] start Hstart _. unfold cycles_step.
  case_bool_decide; [by eexists|].
  destruct (dfs_Ok graph recursion_limit visited start [] ∅) as [r ->].
  - assert (size (nodes_of graph ∖ visited) ≤ size (nodes_of graph))%nat
      by (apply subseteq_size; intros y Hy;
          by apply elem_of_difference in Hy as [Hy _]).
    lia.
  - unfold nodes_of. apply elem_of_list_to_set, elem_of_app. by left.
  - intros n Hn. by apply elem_of_empty in Hn.
  - cbn [mbind result_bind]. destruct r.1 as [[|c cycle]|]; try by eexists.
    case_bool_decide; by eexists.
Qed.

(** ** Phase 1B: assignment to a source *)

Lemma find_player_Ok (ps : list Player) (p : Player) :
  NoDup (name <$> ps) → p ∈ ps → find_player ps (name p) = Ok p.
Proof.
  intros Hnd Hp. unfold find_player.
  destruct (list_find_elem_of (λ q, name q = name p) ps p Hp eq_refl)
    as [[i q] Hfind].
  rewrite Hfind. apply list_find_Some in Hfind as (Hi & Hname & _).
  f_equal. apply (NoDup_names_inj ps); [done | | done | done].
  by eapply list_elem_of_lookup_2.
Qed.

Lemma sum_source_valuations_Ok (ps : list Player) (p : Player)
    (bundle : list string) (acc : Q) :
  NoDup (name <$> ps) → p ∈ ps → knows_goods p bundle →
  sum_source_valuations ps (name p) bundle acc
  = Ok (fold_left Qplus (value_of p <$> bundle) acc).
Proof.
  intros Hnd Hp. revert acc.
  induction bundle as [|g bundle IH]; intros acc Hk; [done|].
  cbn [sum_source_valuations]. rewrite find_player_Ok by done.
  cbn [mbind result_bind].
  rewrite get_valuation_value_of by (apply Hk; left).
  cbn [mbind result_bind]. rewrite IH; [done|].
  intros g' Hg'. apply Hk. by right.
Qed.

Lemma source_step_Ok (ps : list Player) (good : string)
    (allocation : gmap string (list string))
    (st : option string * option Q) (p : Player) :
  NoDup (name <$> ps) → allocation_ready ps good allocation → p ∈ ps →
  source_step ps allocation st (name p)
  = Ok (if below (utility_of_name ps allocation (name p)) st.2
        then (Some (name p), Some (utility_of_name ps allocation (name p)))
        else st).
Proof.
  intros Hnd Hready Hp. unfold source_step, dict_get, utility_of_name.
  rewrite find_player_Ok by done.
  destruct (proj1 Hready p Hp) as [bundle Hb]. rewrite Hb.
  cbn [mbind result_bind].
  assert (knows_goods p bundle) as Hk.
  { pose proof (allocation_ready_own ps good allocation p p Hready Hp Hp) as H.
    unfold bundle_of in H. by rewrite Hb in H. }
  rewrite sum_source_valuations_Ok by done. cbn [mbind result_bind].
  unfold utility_in, bundle_of, total_value, py_sum. rewrite Hb. simpl.
  by destruct (below _ st.2).
Qed.

Lemma source_loop_spec (ps : list Player) (good : string)
    (allocation : gmap string (list string)) (l : list string) (best : string) :
  NoDup (name <$> ps) → allocation_ready ps good allocation →
  (∀ n, n ∈ l → n ∈ name <$> ps) →
  ∃ best',
    for_each (source_step ps allocation) l
      (Some best, Some (utility_of_name ps allocation best))
    = Ok (Some best', Some (utility_of_name ps allocation best')) ∧
    (best' = best ∨ best' ∈ l) ∧
    (utility_of_name ps allocation best'
     <= utility_of_name ps allocation best)%Q ∧
    ∀ n, n ∈ l →
      (utility_of_name ps allocation best'
       <= utility_of_name ps allocation n)%Q.
Proof.
  intros Hnd Hready. revert best.
  induction l as [|x l IH]; intros best Hnames.
  - exists best. split; [done|]. split; [by left|]. split; [apply Qle_refl|].
    intros n Hn. by apply elem_of_nil in Hn.
  - pose proof (Hnames x (list_elem_of_here _ _)) as Hx.
    apply list_elem_of_fmap in Hx as (p & -> & Hp).
    rewrite for_each_cons, (source_step_Ok ps good) by done.
    cbn [mbind result_bind snd below].
    assert (∀ n, n ∈ l → n ∈ name <$> ps) as Hnames'
      by (intros n Hn; apply Hnames; by right).
    destruct (Qltb (utility_of_name ps allocation (name p))
                (utility_of_name ps allocation best)) eqn:E.
    + apply Qltb_true in E.
      destruct (IH (name p) Hnames') as (b & -> & Hsrc & Hle & Hmin).
      exists b. split; [done|]. split; [|split].
      * right. destruct Hsrc as [->|Hb]; [left | by right].
      * lra.
      * intros n [->|Hn]%elem_of_cons; [done | by apply Hmin].
    + apply Qltb_false in E.
      destruct (IH best Hnames') as (b & -> & Hsrc & Hle & Hmin).
      exists b. split; [done|]. split; [|split].
      * destruct Hsrc as [->|Hb]; [by left | right; by right].
      * done.
      * intros n [->|Hn]%elem_of_cons; [lra | by apply Hmin].
Qed.

Lemma most_valued_step_Ok (good : string) (st : option string * Q)
    (p : Player) :
  knows_goods p [good] →
  most_valued_step good st p
  = Ok (if Qltb st.2 (value_of p good) then (Some (name p), value_of p good)
        else st).
Proof.
  intros Hk. unfold most_valued_step.
  rewrite get_valuation_value_of by (apply Hk; left).
  cbn [mbind result_bind]. by destruct (Qltb st.2 (value_of p good)).
Qed.

Lemma most_valued_loop_spec (good : string) (l : list Player) (best : Player) :
  (∀ p, p ∈ l → knows_goods p [good]) →
  ∃ best',
    for_each (most_valued_step good) l (Some (name best), value_of best good)
    = Ok (Some (name best'), value_of best' good) ∧
    (best' = best ∨ best' ∈ l) ∧
    (value_of best good <= value_of best' good)%Q ∧
    ∀ p, p ∈ l → (value_of p good <= value_of best' good)%Q.
Proof.
  revert best. induction l as [|x l IH]; intros best Hk.
  - exists best. split; [done|]. split; [by left|]. split; [apply Qle_refl|].
    intros p Hp. by apply elem_of_nil in Hp.
  - rewrite for_each_cons, most_valued_step_Ok by (apply Hk; left).
    cbn [mbind result_bind snd].
    assert (∀ p, p ∈ l → knows_goods p [good]) as Hk'
      by (intros p Hp; apply Hk; by right).
    destruct (Qltb (value_of best good) (value_of x good)) eqn:E.
    + apply Qltb_true in E.
      destruct (IH x Hk') as (b & -> & Hsrc & Hle & Hmax).
      exists b. split; [done|]. split; [|split].
      * right. destruct Hsrc as [->|Hb]; [left | by right].
      * lra.
      * intros p [->|Hp]%elem_of_cons; [done | by apply Hmax].
    + apply Qltb_false in E.
      destruct (IH best Hk') as (b & -> & Hsrc & Hle & Hmax).
      exists b. split; [done|]. split; [|split].
      * destruct Hsrc as [->|Hb]; [by left | right; by right].
      * done.
      * intros p [->|Hp]%elem_of_cons; [lra | by apply Hmax].
Qed.

Lemma utility_of_name_player (ps : list Player)
    (allocation : gmap string (list string)) (p : Player) :
  NoDup (name <$> ps) → p ∈ ps →
  utility_of_name ps allocation (name p) = utility_in allocation p.
Proof.
  intros Hnd Hp. unfold utility_of_name. by rewrite find_player_Ok.
Qed.

Lemma dict_append_bundle (allocation : gmap string (list string))
    (p : Player) (good : string) :
  is_Some (allocation !! name p) →
  dict_append allocation (name p) good
  = Ok (<[name p := (bundle_of allocation p ++ [good])%list]> allocation).
Proof.
  intros [bundle Hb]. unfold dict_append, dict_get, bundle_of.
  by rewrite Hb.
Qed.

Lemma assign_to_source_spec (set_order : gset string → list string)
    (ps : list Player) (good : string)
    (allocation : gmap string (list string))
    (graph : list (string * string)) :
  (∀ s, set_order s ≡ₚ elements s) →
  NoDup (name <$> ps) →
  allocation_ready ps good allocation →
  ps ≠ [] →
  (∀ p, p ∈ ps → (0 <= value_of p good)%Q) →
  ∃ r, r ∈ ps ∧
    _assign_to_source set_order ps good allocation graph
    = Ok (<[name r := (bundle_of allocation r ++ [good])%list]> allocation) ∧
    ((∃ s, s ∈ ps ∧ name s ∉ (graph.*1)) →
       (name r ∉ (graph.*1)) ∧
       ∀ s, s ∈ ps → name s ∉ (graph.*1) →
         (utility_in allocation r <= utility_in allocation s)%Q) ∧
    ((∀ s, s ∈ ps → name s ∈ (graph.*1)) →
       ∀ s, s ∈ ps → (value_of s good <= value_of r good)%Q).
Proof.
  intros Horder Hnd Hready Hne Hpos. unfold _assign_to_source.
  set (sources := (list_to_set (name <$> ps) : gset string)
                  ∖ list_to_set graph.*1).
  assert (∀ n, n ∈ sources ↔ n ∈ name <$> ps ∧ n ∉ (graph.*1)) as Hsources.
  { intros n. unfold sources.
    rewrite elem_of_difference, !elem_of_list_to_set. done. }
  assert (∀ n, n ∈ set_order sources ↔ n ∈ sources) as Hiter.
  { intros n. rewrite Horder. apply elem_of_elements. }
  destruct (decide (sources ≠ ∅)) as [Hsome|Hnone].
  - (* some player is a source *)
    rewrite bool_decide_eq_true_2 by done.
    destruct (set_order sources) as [|x l] eqn:Hl.
    { destruct Hsome. apply set_eq. intros n. rewrite <- Hiter.
      split; intros Hn; [by apply elem_of_nil in Hn|].
      by apply elem_of_empty in Hn. }
    assert (∀ n, n ∈ x :: l → n ∈ name <$> ps) as Hnames.
    { intros n Hn. by apply Hiter, Hsources in Hn as [Hn _]. }
    pose proof (Hnames x (list_elem_of_here _ _)) as Hx.
    apply list_elem_of_fmap in Hx as (px & Hx & Hpx).
    rewrite Hx in *. clear Hx x.
    rewrite for_each_cons, (source_step_Ok ps good) by done.
    cbn [mbind result_bind snd below].
    destruct (source_loop_spec ps good allocation l (name px) Hnd Hready)
      as (b & Hrun & Hsrc & _ & Hmin).
    { intros n Hn. apply Hnames. by right. }
    rewrite Hrun. cbn [mbind result_bind fst].
    assert (b ∈ name px :: l) as Hb
      by (destruct Hsrc as [->|Hb]; [left | by right]).
    pose proof (Hnames b Hb) as Hbn.
    apply list_elem_of_fmap in Hbn as (r & -> & Hr).
    exists r. split; [done|].
    split; [apply dict_append_bundle; by apply (proj1 Hready)|].
    split.
    + intros _. split; [by apply Hiter, Hsources in Hb as [_ Hb]|].
      intros s Hs Hkeys.
      rewrite <- (utility_of_name_player ps allocation r Hnd Hr).
      rewrite <- (utility_of_name_player ps allocation s Hnd Hs).
      assert (name s ∈ name px :: l) as Hsl.
      { apply Hiter, Hsources. split; [by apply list_elem_of_fmap_2 | done]. }
      apply elem_of_cons in Hsl as [Heq|Hsl]; [|by apply Hmin].
      rewrite Heq. destruct Hsrc as [Hbx|Hbl].
      * rewrite Hbx. apply Qle_refl.
      * pose proof (source_loop_spec ps good allocation l (name px) Hnd Hready)
          as (b' & Hrun' & _ & Hle' & _).
        { intros n Hn. apply Hnames. by right. }
        rewrite Hrun in Hrun'. injection Hrun' as Hbb _.
        by rewrite <- Hbb in Hle'.
    + intros Hall. apply Hiter, Hsources in Hb as [_ Hb].
      destruct Hb. by apply Hall.
  - (* every player is a key of the graph *)
    rewrite bool_decide_eq_false_2 by done.
    assert (sources = ∅) as Hempty by (by destruct (decide (sources = ∅))).
    destruct ps as [|p0 rest]; [done|].
    rewrite for_each_cons, most_valued_step_Ok.
    2:{ intros g Hg. apply (proj2 Hready p0 p0); [left | left |].
        apply elem_of_app. by right. }
    cbn [mbind result_bind snd].
    assert (Qltb (-1)%Q (value_of p0 good) = true) as ->.
    { apply Qltb_true. specialize (Hpos p0 (list_elem_of_here _ _)). lra. }
    destruct (most_valued_loop_spec good rest p0) as (r & -> & Hsrc & Hle & Hmax).
    { intros p Hp g Hg. apply (proj2 Hready p p); [by right | by right |].
      apply elem_of_app. by right. }
    cbn [mbind result_bind fst].
    assert (r ∈ p0 :: rest) as Hr
      by (destruct Hsrc as [->|Hr]; [left | by right]).
    exists r. split; [done|].
    split; [apply dict_append_bundle; by apply (proj1 Hready)|].
    split.
    + intros (s & Hs & Hkeys).
      assert (name s ∈ sources) as Hin.
      { apply Hsources. split; [by apply list_elem_of_fmap_2 | done]. }
      rewrite Hempty in Hin. by apply elem_of_empty in Hin.
    + intros _ s [->|Hs]%elem_of_cons; [done | by apply Hmax].
Qed.

(** ** C5: the no-cycle branch of the champion graph phase *)

(** C5, as stated, fails: in this state the champion graph has the single
    edge [P1 -> P2] ([P2] is the champion of [P1]'s bundle plus [E]) and no
    cycle; the good goes to [P2], the agent with the lowest utility among
    those without an outgoing edge, although [P2] is pointed to by the edge
    while [P3] and [P4] are not pointed to by any edge. *)
Lemma source_is_pointed_to_by_an_edge :
  let graph := [("P1", "P2")] in
  _build_champion_graph leftover_players "E" leftover_allocation = Ok graph ∧
  _find_all_cycles graph = Ok [] ∧
  _champion_graph_allocation elements (λ _ _ a, Ok a)
    leftover_players "E" leftover_allocation
  = Ok (<["P2" := ["B"; "E"]]> leftover_allocation) ∧
  ("P2" ∈ graph.*2) ∧
  ("P3" ∉ graph.*2) ∧
  ("P4" ∉ graph.*2).
Proof.
  split; [vm_compute; reflexivity|].
  split; [vm_compute; reflexivity|].
  split; [vm_compute; reflexivity|].
  split; [left|].
  split; intros Hin; simpl in Hin;
    apply list_elem_of_singleton in Hin; discriminate.
Qed.

(** C5 (amended). The champion graph is built and searched without error.
    When it contains no cycle, the good is appended to the bundle of a
    source agent, where a source is an agent with no outgoing edge in the
    graph (it is not a key: nobody gains from its bundle plus the good),
    and the source chosen has the lowest current utility among the sources;
    only when every agent has an outgoing edge is the good given to the
    agent who values it most. *)
Theorem champion_graph_source_assignment
    (set_order : gset string → list string)
    (cycle_branch : list (list string) → string →
                    gmap string (list string) →
                    result (gmap string (list string)))
    (ps : list Player) (good : string)
    (allocation : gmap string (list string)) :
  (∀ s, set_order s ≡ₚ elements s) →
  length ps = 4%nat →
  NoDup (name <$> ps) →
  allocation_ready ps good allocation →
  (∀ p, p ∈ ps → (0 <= value_of p good)%Q) →
  ∃ graph cycles,
    _build_champion_graph ps good allocation = Ok graph ∧
    _find_all_cycles graph = Ok cycles ∧
    (cycles = [] →
     ∃ r, r ∈ ps ∧
       _champion_graph_allocation set_order cycle_branch ps good allocation
       = Ok (<[name r := (bundle_of allocation r ++ [good])%list]> allocation) ∧
       ((∃ s, s ∈ ps ∧ name s ∉ (graph.*1)) →
          (name r ∉ (graph.*1)) ∧
          ∀ s, s ∈ ps → name s ∉ (graph.*1) →
            (utility_in allocation r <= utility_in allocation s)%Q) ∧
       ((∀ s, s ∈ ps → name s ∈ (graph.*1)) →
          ∀ s, s ∈ ps → (value_of s good <= value_of r good)%Q)).
Proof.
  intros Horder Hfour Hnd Hready Hpos.
  destruct (build_champion_graph_Ok ps good allocation Hready)
    as (graph & Hgraph & Hlen).
  destruct (find_all_cycles_Ok graph) as [cycles Hcycles].
  { unfold recursion_limit. lia. }
  exists graph, cycles. split; [done|]. split; [done|]. intros ->.
  destruct (assign_to_source_spec set_order ps good allocation graph)
    as (r & Hr & Hrun & Hsource & Hfallback); try done.
  { intros ->. simpl in Hfour. lia. }
  exists r. split; [done|]. split; [|done].
  unfold _champion_graph_allocation. rewrite Hgraph. cbn [mbind result_bind].
  rewrite Hcycles. cbn [mbind result_bind]. exact Hrun.
Qed.

Lemma champion_graph_source_assignment_witness :
  ∃ graph cycles,
    _build_champion_graph leftover_players "E" leftover_allocation
      = Ok graph ∧
    _find_all_cycles graph = Ok cycles.
Proof.
  destruct (champion_graph_source_assignment elements (λ _ _ a, Ok a)
              leftover_players "E" leftover_allocation)
    as (graph & cycles & H1 & H2 & _).
  - done.
  - reflexivity.
  - apply (bool_decide_unpack (NoDup (name <$> leftover_players))).
    vm_compute. exact I.
  - split.
    + intros p Hp. unfold leftover_players in Hp.
      elem_cases Hp; eexists; vm_compute; reflexivity.
    + intros p q Hp Hq g Hg. unfold leftover_players in Hp, Hq.
      elem_cases Hp; elem_cases Hq; vm_compute in Hg; elem_cases Hg;
        eexists; vm_compute; reflexivity.
  - intros p Hp. unfold leftover_players in Hp.
    elem_cases Hp; vm_compute; discriminate.
  - by exists graph, cycles.
Defined.

(** ** Phase 2: the envy figures are computed without error *)

Lemma total_efx_envy_of_Ok (ps : list Player) (a : Allocation) :
  NoDup (name <$> ps) → valuations_cover ps a →
  total_efx_envy_of ps a = Ok (efx_total ps a).
Proof.
  intros Hnd Hcover. unfold efx_total.
  destruct (envy_matrices_entries ps a Hnd Hcover) as (envy & efx & _ & H & _).
  unfold total_efx_envy_of. by rewrite H.
Qed.

Lemma total_envy_of_Ok (ps : list Player) (a : Allocation) :
  NoDup (name <$> ps) → valuations_cover ps a →
  is_Ok (total_envy_of ps a).
Proof.
  intros Hnd Hcover.
  destruct (envy_matrices_entries ps a Hnd Hcover) as (envy & efx & H & _ & _).
  unfold total_envy_of. rewrite H. by eexists.
Qed.

Lemma relationship_cell_Ok (matrix : gmap string (gmap string Q))
    (pi pj : Player) (acc : list (string * string)) :
  is_Some (matrix_entry matrix (name pi) (name pj)) →
  ∃ acc', relationship_cell matrix pi acc pj = Ok acc' ∧
          (acc' = acc
           ∨ (acc' = (acc ++ [(name pi, name pj)])%list
              ∧ name pi ≠ name pj)).
Proof.
  intros [e He]. unfold relationship_cell. case_bool_decide as Hne.
  - unfold matrix_entry in He.
    destruct (matrix !! name pi) as [row|] eqn:Hrow; [|done].
    simpl in He. unfold dict_get. rewrite Hrow. cbn [mbind result_bind].
    rewrite He. cbn [mbind result_bind].
    destruct (Qltb 0 e); eexists; (split; [done|]); [right | left]; done.
  - exists acc. split; [done | by left].
Qed.

Lemma relationships_of_Ok (ps : list Player)
    (matrix : gmap string (gmap string Q)) :
  (∀ p q, p ∈ ps → q ∈ ps →
     is_Some (matrix_entry matrix (name p) (name q))) →
  ∃ rel, relationships_of ps matrix = Ok rel ∧ queue_wf ps rel.
Proof.
  intros Hentries. unfold relationships_of, queue_wf, all_pairs.
  assert (∀ pi inner acc, pi ∈ ps → (∀ q, q ∈ inner → q ∈ ps) →
            ∃ r, for_each (relationship_cell matrix pi) inner acc
                 = Ok (acc ++ r)%list ∧
                 r `sublist_of`
                   (j ← name <$> inner;
                    if bool_decide (name pi ≠ j) then [(name pi, j)] else []))
    as Hinner.
  { intros pi inner. induction inner as [|pj inner IH]; intros acc Hpi Hsub.
    - exists []. split; [by rewrite app_nil_r | done].
    - rewrite for_each_cons.
      assert (pj ∈ ps) as Hpj by (apply Hsub; left).
      assert (∀ q, q ∈ inner → q ∈ ps) as Hsub'
        by (intros q Hq; apply Hsub; by right).
      destruct (relationship_cell_Ok matrix pi pj acc (Hentries pi pj Hpi Hpj))
        as (acc1 & -> & Hacc1).
      cbn [mbind result_bind]. rewrite fmap_cons, bind_cons.
      destruct (IH acc1 Hpi Hsub') as (r & -> & Hr).
      destruct Hacc1 as [->|[-> Hne]].
      + exists r. split; [done|]. by apply sublist_inserts_l.
      + exists ((name pi, name pj) :: r). split.
        * by rewrite <- app_assoc.
        * rewrite bool_decide_eq_true_2 by done. simpl.
          by apply sublist_skip. }
  assert (∀ outer acc, (∀ p, p ∈ outer → p ∈ ps) →
            ∃ r, for_each (λ acc player_i,
                     for_each (relationship_cell matrix player_i) ps acc)
                   outer acc = Ok (acc ++ r)%list ∧
                 r `sublist_of`
                   (i ← name <$> outer;
                    j ← name <$> ps;
                    if bool_decide (i ≠ j) then [(i, j)] else []))
    as Houter.
  { induction outer as [|pi outer IH]; intros acc Hsub.
    - exists []. split; [by rewrite app_nil_r | done].
    - rewrite for_each_cons.
      destruct (Hinner pi ps acc) as (r1 & -> & Hr1);
        [apply Hsub; left | done |].
      cbn [mbind result_bind]. rewrite fmap_cons, bind_cons.
      destruct (IH (acc ++ r1)%list) as (r & -> & Hr).
      { intros p Hp. apply Hsub. by right. }
      exists (r1 ++ r)%list. split; [by rewrite <- app_assoc|].
      by apply sublist_app. }
  destruct (Houter ps []) as (rel & -> & Hwf); [done|].
  by exists rel.
Qed.

Lemma elem_of_pair_cell (i j : string) (x : string * string) :
  x ∈ (if bool_decide (i ≠ j) then [(i, j)] else []) → x = (i, j) ∧ i ≠ j.
Proof.
  case_bool_decide; intros Hx; [|by apply elem_of_nil in Hx].
  by apply list_elem_of_singleton in Hx.
Qed.

Lemma elem_of_all_pairs (ps : list Player) (i j : string) :
  (i, j) ∈ all_pairs ps ↔ i ∈ name <$> ps ∧ j ∈ name <$> ps ∧ i ≠ j.
Proof.
  unfold all_pairs. rewrite list_elem_of_bind. split.
  - intros (i' & Hin & Hi). apply list_elem_of_bind in Hin as (j' & Hin & Hj).
    apply elem_of_pair_cell in Hin as [[= -> ->] Hne]. done.
  - intros (Hi & Hj & Hne). exists i. split; [|done].
    apply list_elem_of_bind. exists j. split; [|done].
    rewrite bool_decide_eq_true_2 by done. left.
Qed.

Lemma NoDup_all_pairs (ps : list Player) :
  NoDup (name <$> ps) → NoDup (all_pairs ps).
Proof.
  intros Hnd. unfold all_pairs. apply NoDup_bind; [| |done].
  - intros i i' [a b] Hi Hi' Hin Hin'.
    apply list_elem_of_bind in Hin as (j & Hin & _).
    apply list_elem_of_bind in Hin' as (j' & Hin' & _).
    apply elem_of_pair_cell in Hin as [[= -> ->] _].
    by apply elem_of_pair_cell in Hin' as [[= -> _] _].
  - intros i Hi. apply NoDup_bind; [| |done].
    + intros j j' [a b] Hj Hj' Hin Hin'.
      apply elem_of_pair_cell in Hin as [[= -> ->] _].
      by apply elem_of_pair_cell in Hin' as [[= ->] _].
    + intros j Hj. case_bool_decide; [apply NoDup_singleton | apply NoDup_nil_2].
Qed.

Lemma queue_wf_elem (ps : list Player) (queue : list (string * string))
    (e d : string) :
  queue_wf ps queue → (e, d) ∈ queue →
  e ≠ d ∧ e ∈ name <$> ps ∧ d ∈ name <$> ps.
Proof.
  intros Hwf Hin.
  assert ((e, d) ∈ all_pairs ps) as Hp by by apply (sublist_subseteq _ _ Hwf).
  apply elem_of_all_pairs in Hp as (? & ? & ?). done.
Qed.

Lemma queue_wf_tail (ps : list Player) (x : string * string)
    (queue : list (string * string)) :
  queue_wf ps (x :: queue) → queue_wf ps queue.
Proof.
  unfold queue_wf. intros Hwf. transitivity (x :: queue); [|done].
  by apply sublist_cons.
Qed.

Lemma queue_wf_length (ps : list Player) (queue : list (string * string)) :
  queue_wf ps queue → (length queue ≤ length (all_pairs ps))%nat.
Proof. apply sublist_length. Qed.

Lemma get_envy_relationships_Ok (ps : list Player) (a : Allocation) :
  NoDup (name <$> ps) → valuations_cover ps a →
  ∃ rel, _get_envy_relationships ps a = Ok rel ∧ queue_wf ps rel.
Proof.
  intros Hnd Hcover. unfold _get_envy_relationships.
  destruct (envy_matrices_entries ps a Hnd Hcover)
    as (envy & efx & _ & -> & Hentries).
  cbn [mbind result_bind]. apply relationships_of_Ok.
  intros p q Hp Hq. destruct (Hentries p q Hp Hq) as [_ ->]. by eexists.
Qed.

Lemma regular_relationships_Ok (ps : list Player) (a : Allocation) :
  NoDup (name <$> ps) → valuations_cover ps a →
  ∃ envy, _calculate_envy_matrix ps a = Ok envy ∧
          is_Ok (relationships_of ps envy.1.1).
Proof.
  intros Hnd Hcover.
  destruct (envy_matrices_entries ps a Hnd Hcover)
    as (envy & efx & -> & _ & Hentries).
  exists envy. split; [done|].
  destruct (relationships_of_Ok ps envy.1.1) as (rel & -> & _); [|by eexists].
  intros p q Hp Hq. destruct (Hentries p q Hp Hq) as [-> _]. by eexists.
Qed.

(** ** Phase 2: the cut *)

Lemma sort_by_valuation_Ok (p : Player) (goods : list string) :
  knows_goods p goods →
  ∃ sorted, sort_by_valuation p goods = Ok sorted ∧ sorted ≡ₚ goods.
Proof.
  intros Hk. unfold sort_by_valuation. rewrite mapM_valuations_Ok by done.
  cbn [mbind result_bind]. eexists. split; [done|].
  rewrite sort_desc_perm. rewrite fst_zip; [done|]. by rewrite length_fmap.
Qed.

Lemma split_step_Ok (p : Player) (total : nat) (bundle1 bundle2 : list string)
    (in_first : bool) (g : string) :
  knows_goods p (bundle1 ++ bundle2 ++ [g])%list →
  ∃ flag, split_step p total (bundle1, bundle2, in_first) g
          = Ok (if in_first then ((bundle1 ++ [g])%list, bundle2, flag)
                else (bundle1, (bundle2 ++ [g])%list, flag)).
Proof.
  intros Hk. unfold split_step.
  assert (knows_goods p bundle1) as Hk1.
  { intros x Hx. apply Hk. rewrite elem_of_app. by left. }
  assert (knows_goods p bundle2) as Hk2.
  { intros x Hx. apply Hk. rewrite !elem_of_app. right. by left. }
  assert (knows_goods p [g]) as Hkg.
  { intros x Hx. apply Hk. rewrite !elem_of_app. right. by right. }
  rewrite get_valuation_value_of by (apply Hkg; left).
  cbn [mbind result_bind]. destruct in_first.
  - rewrite (bundle_value_Ok p (bundle1 ++ [g])%list).
    2:{ intros x [Hx|Hx]%elem_of_app; [by apply Hk1 | by apply Hkg]. }
    cbn [mbind result_bind]. rewrite (bundle_value_Ok p bundle2) by done.
    cbn [mbind result_bind]. destruct (_ && _); by eexists.
  - rewrite (bundle_value_Ok p bundle1) by done. cbn [mbind result_bind].
    rewrite (bundle_value_Ok p (bundle2 ++ [g])%list).
    2:{ intros x [Hx|Hx]%elem_of_app; [by apply Hk2 | by apply Hkg]. }
    cbn [mbind result_bind]. destruct (_ && _); by eexists.
Qed.

Lemma split_loop_Ok (p : Player) (total : nat) (l : list string) :
  ∀ bundle1 bundle2 in_first,
    knows_goods p (bundle1 ++ bundle2 ++ l)%list →
    ∃ st, for_each (split_step p total) l (bundle1, bundle2, in_first) = Ok st ∧
          (st.1.1 ++ st.1.2 ≡ₚ bundle1 ++ bundle2 ++ l)%list.
Proof.
  induction l as [|g l IH]; intros bundle1 bundle2 in_first Hk.
  - eexists. split; [done|]. simpl. by rewrite app_nil_r.
  - rewrite for_each_cons.
    destruct (split_step_Ok p total bundle1 bundle2 in_first g) as [flag ->].
    { intros x Hx. apply Hk. rewrite !elem_of_app in Hx.
      rewrite !elem_of_app, elem_of_cons.
      destruct Hx as [Hx|[Hx|Hx]]; auto.
      apply list_elem_of_singleton in Hx. auto. }
    cbn [mbind result_bind]. destruct in_first.
    + destruct (IH (bundle1 ++ [g])%list bundle2 flag) as (st & -> & Hst).
      { intros x Hx. apply Hk. rewrite !elem_of_app in Hx.
        rewrite !elem_of_app, elem_of_cons.
        destruct Hx as [[Hx|Hx]|[Hx|Hx]]; auto.
        apply list_elem_of_singleton in Hx. auto. }
      exists st. split; [done|]. rewrite Hst, <- !app_assoc. f_equiv.
      simpl. by rewrite Permutation_middle.
    + destruct (IH bundle1 (bundle2 ++ [g])%list flag) as (st & -> & Hst).
      { intros x Hx. apply Hk. rewrite !elem_of_app in Hx.
        rewrite !elem_of_app, elem_of_cons.
        destruct Hx as [Hx|[[Hx|Hx]|Hx]]; auto.
        apply list_elem_of_singleton in Hx. auto. }
      exists st. split; [done|]. by rewrite Hst, <- !app_assoc.
Qed.

Lemma list_pop_Some (l : list string) (x : string) (rest : list string) :
  list_pop l = Some (x, rest) → l = (rest ++ [x])%list.
Proof.
  unfold list_pop. destruct (reverse l) as [|y r] eqn:E; [done|].
  intros [= <- <-]. rewrite <- (reverse_involutive l) at 1.
  by rewrite E, reverse_cons.
Qed.

Lemma rebalance_perm (bundle1 bundle2 : list string) :
  ((rebalance bundle1 bundle2).1 ++ (rebalance bundle1 bundle2).2
   ≡ₚ bundle1 ++ bundle2)%list.
Proof.
  unfold rebalance. destruct bundle1 as [|x1 b1], bundle2 as [|x2 b2];
    try done.
  - destruct (list_pop (x2 :: b2)) as [[x rest]|] eqn:E; [|done].
    apply list_pop_Some in E. rewrite E. simpl.
    by rewrite <- Permutation_cons_append.
  - destruct (list_pop (x1 :: b1)) as [[x rest]|] eqn:E; [|done].
    apply list_pop_Some in E. rewrite E. simpl. by rewrite app_nil_r.
Qed.

Lemma create_split_division_Ok (p : Player) (goods : list string) :
  knows_goods p goods →
  ∃ r, _create_efx_bundles_split_division p goods = Ok r ∧
       ∀ bundle_a bundle_b, r = Some (bundle_a, bundle_b) →
         (bundle_a ++ bundle_b ≡ₚ goods)%list.
Proof.
  intros Hk. unfold _create_efx_bundles_split_division.
  case_bool_decide; [by exists None|].
  destruct (sort_by_valuation_Ok p goods Hk) as (sorted & -> & Hsorted).
  cbn [mbind result_bind].
  destruct (split_loop_Ok p (length sorted) sorted [] [] true)
    as (st & -> & Hst).
  { simpl. intros g Hg. apply Hk. by rewrite <- Hsorted. }
  cbn [mbind result_bind].
  pose proof (rebalance_perm st.1.1 st.1.2) as Hre.
  destruct (rebalance st.1.1 st.1.2) as [bundle1 bundle2]. simpl in Hre.
  assert ((bundle1 ++ bundle2)%list ≡ₚ goods) as Hperm.
  { rewrite Hre, Hst. simpl. done. }
  rewrite (bundle_value_Ok p bundle1).
  2:{ intros g Hg. apply Hk. rewrite <- Hperm, elem_of_app. by left. }
  cbn [mbind result_bind]. rewrite (bundle_value_Ok p bundle2).
  2:{ intros g Hg. apply Hk. rewrite <- Hperm, elem_of_app. by right. }
  cbn [mbind result_bind]. eexists. split; [done|].
  by intros a b [= <- <-].
Qed.

Lemma no_envy_after_removal_Ok (p : Player) (own : Q)
    (bundle to_remove : list string) :
  knows_goods p bundle →
  is_Ok (no_envy_after_removal p own bundle to_remove).
Proof.
  intros Hk. induction to_remove as [|x rest IH]; simpl; [by eexists|].
  rewrite bundle_value_Ok by by apply knows_goods_without.
  cbn [mbind result_bind]. destruct (Qltb own _); [by eexists | done].
Qed.

Lemma is_division_efx_Ok (p : Player) (bundle_a bundle_b : list string) :
  knows_goods p bundle_a → knows_goods p bundle_b →
  is_Ok (_is_division_efx_for_player p bundle_a bundle_b).
Proof.
  intros Ha Hb. unfold _is_division_efx_for_player.
  destruct bundle_a as [|a0 a]; [by eexists|].
  destruct bundle_b as [|b0 b]; [by eexists|].
  rewrite (bundle_value_Ok _ _ Ha). cbn [mbind result_bind].
  rewrite (bundle_value_Ok _ _ Hb). cbn [mbind result_bind].
  destruct (no_envy_after_removal_Ok p (total_value p (a0 :: a))
              (b0 :: b) (b0 :: b) Hb) as [ok ->].
  cbn [mbind result_bind]. destruct ok; [|by eexists].
  by apply no_envy_after_removal_Ok.
Qed.

Lemma find_efx_division_Ok (p : Player) (goods : list string) :
  knows_goods p goods →
  ∃ r, _find_efx_division_for_envier p goods = Ok r ∧
       ∀ bundle_a bundle_b, r = Some (bundle_a, bundle_b) →
         (bundle_a ++ bundle_b ≡ₚ goods)%list.
Proof.
  intros Hk. unfold _find_efx_division_for_envier.
  case_bool_decide; [by exists None|].
  destruct (create_split_division_Ok p goods Hk) as (r & -> & Hr).
  cbn [mbind result_bind]. destruct r as [[a b]|]; [|by exists None].
  specialize (Hr a b eq_refl).
  destruct (is_division_efx_Ok p a b) as [ok ->].
  { intros g Hg. apply Hk. rewrite <- Hr, elem_of_app. by left. }
  { intros g Hg. apply Hk. rewrite <- Hr, elem_of_app. by right. }
  cbn [mbind result_bind]. destruct ok; [|by exists None].
  eexists. split; [done|]. by intros a' b' [= <- <-].
Qed.

(** ** Phase 2: the split division and its EFX test *)

Lemma split_loop_first (p : Player) (total : nat) (l : list string) :
  ∀ bundle1 bundle2 in_first st,
    for_each (split_step p total) l (bundle1, bundle2, in_first) = Ok st →
    (in_first = true ∨ bundle1 ≠ []) →
    (l ≠ [] ∨ bundle1 ≠ []) →
    st.1.1 ≠ [].
Proof.
  induction l as [|g l IH]; intros bundle1 bundle2 in_first st Hrun Hinv Hne.
  - injection Hrun as <-. simpl. by destruct Hne.
  - rewrite for_each_cons in Hrun.
    destruct (split_step p total (bundle1, bundle2, in_first) g)
      as [[[b1 b2] flag]|e] eqn:Hstep; cbn [mbind result_bind] in Hrun;
      [|done].
    assert (b1 ≠ []) as Hb1.
    { unfold split_step in Hstep.
      destruct (get_valuation p g); cbn [mbind result_bind] in Hstep; [|done].
      destruct in_first.
      - destruct (bundle_value p (bundle1 ++ [g])%list);
          cbn [mbind result_bind] in Hstep; [|done].
        destruct (bundle_value p bundle2); cbn [mbind result_bind] in Hstep;
          [|done].
        destruct (_ && _); injection Hstep as <- _ _; by destruct bundle1.
      - destruct Hinv as [|Hinv]; [done|].
        destruct (bundle_value p bundle1); cbn [mbind result_bind] in Hstep;
          [|done].
        destruct (bundle_value p (bundle2 ++ [g])%list);
          cbn [mbind result_bind] in Hstep; [|done].
        destruct (_ && _); by injection Hstep as <- _ _. }
    apply (IH b1 b2 flag st Hrun); by right.
Qed.

Lemma rebalance_nonempty (bundle1 bundle2 : list string) :
  bundle1 ≠ [] → (2 ≤ length bundle1 + length bundle2)%nat →
  (rebalance bundle1 bundle2).1 ≠ [] ∧ (rebalance bundle1 bundle2).2 ≠ [].
Proof.
  intros H1 Hlen. unfold rebalance.
  destruct bundle1 as [|x1 b1]; [done|].
  destruct bundle2 as [|x2 b2]; [|done].
  destruct (list_pop (x1 :: b1)) as [[x rest]|] eqn:E.
  - apply list_pop_Some in E. simpl. split; [|done].
    intros ->. simpl in E. injection E as _ ->. simpl in Hlen. lia.
  - unfold list_pop in E.
    destruct (reverse (x1 :: b1)) eqn:R; [|done].
    apply (f_equal length) in R. rewrite length_reverse in R. done.
Qed.

Lemma split_division_Some (p : Player) (goods : list string) :
  knows_goods p goods → (2 ≤ length goods)%nat →
  ∃ bundle1 bundle2,
    _create_efx_bundles_split_division p goods = Ok (Some (bundle1, bundle2)) ∧
    (bundle1 ++ bundle2 ≡ₚ goods)%list ∧ bundle1 ≠ [] ∧ bundle2 ≠ [].
Proof.
  intros Hk Hlen. unfold _create_efx_bundles_split_division.
  rewrite bool_decide_eq_false_2 by lia.
  destruct (sort_by_valuation_Ok p goods Hk) as (sorted & -> & Hsorted).
  cbn [mbind result_bind].
  destruct (split_loop_Ok p (length sorted) sorted [] [] true)
    as (st & Hrun & Hst).
  { simpl. intros g Hg. apply Hk. by rewrite <- Hsorted. }
  rewrite Hrun. cbn [mbind result_bind].
  assert (st.1.1 ≠ []) as Hfirst.
  { apply (split_loop_first p _ sorted [] [] true st Hrun); [by left|].
    left. intros ->. apply Permutation_nil_l in Hsorted.
    rewrite <- Hsorted in Hlen. simpl in Hlen. lia. }
  simpl in Hst.
  assert (2 ≤ length st.1.1 + length st.1.2)%nat as Htwo.
  { rewrite <- length_app, Hst, Hsorted. done. }
  pose proof (rebalance_perm st.1.1 st.1.2) as Hre.
  pose proof (rebalance_nonempty st.1.1 st.1.2 Hfirst Htwo) as [Hn1 Hn2].
  destruct (rebalance st.1.1 st.1.2) as [bundle1 bundle2]. simpl in *.
  assert ((bundle1 ++ bundle2)%list ≡ₚ goods) as Hperm
    by by rewrite Hre, Hst.
  rewrite (bundle_value_Ok p bundle1).
  2:{ intros g Hg. apply Hk. rewrite <- Hperm, elem_of_app. by left. }
  cbn [mbind result_bind]. rewrite (bundle_value_Ok p bundle2).
  2:{ intros g Hg. apply Hk. rewrite <- Hperm, elem_of_app. by right. }
  cbn [mbind result_bind]. by exists bundle1, bundle2.
Qed.

Lemma no_envy_after_removal_spec (p : Player) (own : Q)
    (bundle to_remove : list string) :
  knows_goods p bundle →
  ∃ b, no_envy_after_removal p own bundle to_remove = Ok b ∧
       (b = true ↔
        ∀ x, x ∈ to_remove → (total_value p (without x bundle) <= own)%Q).
Proof.
  intros Hk. induction to_remove as [|x rest IH]; simpl.
  - exists true. split; [done|]. split; [|done].
    intros _ x Hx. by apply elem_of_nil in Hx.
  - rewrite bundle_value_Ok by by apply knows_goods_without.
    cbn [mbind result_bind].
    destruct (Qltb own (total_value p (without x bundle))) eqn:E.
    + exists false. split; [done|]. split; [done|]. intros Hall.
      apply Qltb_true in E. specialize (Hall x (list_elem_of_here _ _)). lra.
    + destruct IH as (b & -> & Hb). exists b. split; [done|].
      rewrite Hb. apply Qltb_false in E. split.
      * intros Hall y [->|Hy]%elem_of_cons; [done | by apply Hall].
      * intros Hall y Hy. apply Hall. by right.
Qed.

Lemma is_division_efx_spec (p : Player) (bundle_a bundle_b : list string) :
  knows_goods p bundle_a → knows_goods p bundle_b →
  ∃ b, _is_division_efx_for_player p bundle_a bundle_b = Ok b ∧
       (b = true ↔ division_is_efx p bundle_a bundle_b).
Proof.
  intros Ha Hb. unfold _is_division_efx_for_player, division_is_efx.
  destruct bundle_a as [|a0 a].
  { exists false. split; [done|]. split; [done | by intros [? _]]. }
  destruct bundle_b as [|b0 b].
  { exists false. split; [done|]. split; [done | by intros (_ & ? & _)]. }
  rewrite (bundle_value_Ok _ _ Ha). cbn [mbind result_bind].
  rewrite (bundle_value_Ok _ _ Hb). cbn [mbind result_bind].
  destruct (no_envy_after_removal_spec p (total_value p (a0 :: a))
              (b0 :: b) (b0 :: b) Hb) as (ok1 & -> & Hok1).
  cbn [mbind result_bind]. destruct ok1.
  - destruct (no_envy_after_removal_spec p (total_value p (b0 :: b))
                (a0 :: a) (a0 :: a) Ha) as (ok2 & -> & Hok2).
    exists ok2. split; [done|]. rewrite Hok2. split.
    + intros Hall. split; [done|]. split; [done|]. split; [|done].
      by apply Hok1.
    + by intros (_ & _ & _ & Hall).
  - exists false. split; [done|]. split; [done|].
    intros (_ & _ & Hall & _). by apply Hok1 in Hall.
Qed.

Lemma find_efx_division_facts (envier : Player) (all_goods : list string) :
  knows_goods envier all_goods →
  ∃ r, _find_efx_division_for_envier envier all_goods = Ok r ∧
       ∀ bundle_a bundle_b, r = Some (bundle_a, bundle_b) →
         (bundle_a ++ bundle_b ≡ₚ all_goods)%list ∧
         division_is_efx envier bundle_a bundle_b.
Proof.
  intros Hk. unfold _find_efx_division_for_envier.
  case_bool_decide as Hlen; [by exists None|].
  destruct (split_division_Some envier all_goods Hk)
    as (bundle1 & bundle2 & Hsplit & Hperm & H1 & H2); [lia|].
  rewrite Hsplit. cbn [mbind result_bind].
  destruct (is_division_efx_spec envier bundle1 bundle2) as (ok & -> & Hok).
  { intros g Hg. apply Hk. rewrite <- Hperm, elem_of_app. by left. }
  { intros g Hg. apply Hk. rewrite <- Hperm, elem_of_app. by right. }
  cbn [mbind result_bind]. destruct ok; [|by exists None].
  eexists. split; [done|]. intros a b [= <- <-]. split; [done|]. by apply Hok.
Qed.

(** ** Phase 2: the tested allocation *)

Lemma build_test_allocation_bundle (ps : list Player) (current : Allocation)
    (envier_name envied_name : string) (envier_gets envied_chosen : list string)
    (n : string) :
  n ∈ name <$> ps →
  get_assignment
    (build_test_allocation ps current envier_name envied_name
       envier_gets envied_chosen) n
  = if bool_decide (n = envier_name) then envier_gets
    else if bool_decide (n = envied_name) then envied_chosen
    else get_assignment current n.
Proof.
  unfold build_test_allocation. generalize Allocation_init.
  induction ps as [|p ps IH] using rev_ind; intros t0 Hn.
  - by apply elem_of_nil in Hn.
  - rewrite foldl_snoc. rewrite fmap_app in Hn.
    destruct (decide (n = name p)) as [->|Hne].
    + repeat case_bool_decide; unfold get_assignment, set_assignment; simpl;
        by rewrite lookup_insert_eq.
    + apply elem_of_app in Hn as [Hn|Hn].
      2:{ apply list_elem_of_singleton in Hn. done. }
      rewrite <- (IH t0 Hn).
      repeat case_bool_decide; unfold get_assignment, set_assignment; simpl;
        by rewrite lookup_insert_ne.
Qed.

Lemma calculate_utilities_Ok (ps : list Player) (a : Allocation) :
  (∀ p, p ∈ ps → knows_goods p (get_assignment a (name p))) →
  ∃ a', calculate_utilities ps a = Ok a' ∧ assignments a' = assignments a.
Proof.
  intros Hk. unfold calculate_utilities.
  apply (for_each_inv (λ a', assignments a' = assignments a)); [done|].
  intros a' p Hp Ha'.
  assert (get_assignment a' (name p) = get_assignment a (name p)) as ->
    by (unfold get_assignment; by rewrite Ha').
  rewrite (bundle_value_Ok _ _ (Hk p Hp)). cbn [mbind result_bind].
  eexists. split; [done|]. done.
Qed.

Lemma calculate_utilities_consistent (ps : list Player) (a : Allocation) :
  NoDup (name <$> ps) →
  (∀ p, p ∈ ps → knows_goods p (get_assignment a (name p))) →
  ∃ a', calculate_utilities ps a = Ok a' ∧
        assignments a' = assignments a ∧
        (∀ p, p ∈ ps →
           get_utility a' (name p)
           = total_value p (get_assignment a (name p))) ∧
        (∀ n, n ∉ name <$> ps → utilities a' !! n = utilities a !! n).
Proof.
  unfold calculate_utilities. revert a.
  induction ps as [|p ps IH]; intros a Hnd Hk.
  - exists a. split; [done|]. split; [done|]. split; [|done].
    intros p Hp. by apply elem_of_nil in Hp.
  - rewrite fmap_cons in Hnd. apply NoDup_cons in Hnd as [Hfresh Hnd].
    rewrite for_each_cons.
    rewrite (bundle_value_Ok _ _ (Hk p (list_elem_of_here _ _))).
    cbn [mbind result_bind].
    set (a1 := set_utility a (name p)
                 (total_value p (get_assignment a (name p)))).
    destruct (IH a1 Hnd) as (a' & -> & Hassign & Hutil & Hrest).
    { intros q Hq. apply (Hk q). by right. }
    exists a'. split; [done|]. split; [done|]. split.
    + intros q [->|Hq]%elem_of_cons.
      * unfold get_utility. rewrite (Hrest _ Hfresh). unfold a1. simpl.
        by rewrite lookup_insert_eq.
      * by rewrite (Hutil q Hq).
    + intros n Hn. apply not_elem_of_cons in Hn as [Hn1 Hn2].
      rewrite (Hrest n Hn2). unfold a1. simpl. by rewrite lookup_insert_ne.
Qed.

Lemma elem_of_concat (x : string) (ls : list (list string)) :
  x ∈ concat ls ↔ ∃ l, x ∈ l ∧ l ∈ ls.
Proof.
  induction ls as [|l0 ls IH]; simpl.
  - split; [intros H; by apply elem_of_nil in H|].
    intros (l & _ & H). by apply elem_of_nil in H.
  - rewrite elem_of_app, IH. split.
    + intros [H|(l & H1 & H2)]; [exists l0; split; [done|left]|].
      exists l. split; [done | by right].
    + intros (l & H1 & [->|H2]%elem_of_cons); [by left|].
      right. by exists l.
Qed.

Lemma bundle_in_goods_of (ps : list Player) (a : Allocation) (q : Player)
    (g : string) :
  q ∈ ps → g ∈ get_assignment a (name q) → g ∈ goods_of ps a.
Proof.
  intros Hq Hg. unfold goods_of, bundle_vector.
  apply elem_of_concat. exists (get_assignment a (name q)).
  split; [done|].
  by apply (list_elem_of_fmap_2 (λ p, get_assignment a (name p))).
Qed.

Lemma cover_from_goods (ps : list Player) (gs : list string) (a : Allocation) :
  (∀ p, p ∈ ps → knows_goods p gs) →
  goods_of ps a ≡ₚ gs →
  valuations_cover ps a.
Proof.
  intros Hk Hgoods p q Hp Hq g Hg. apply (Hk p Hp). rewrite <- Hgoods.
  by apply (bundle_in_goods_of ps a q).
Qed.

(** Exchanging the bundles of two players for a rearrangement of their
    goods keeps the goods of the allocation. *)
Lemma goods_of_exchange (ps : list Player) (a a' : Allocation)
    (pe pd : Player) :
  NoDup (name <$> ps) → pe ∈ ps → pd ∈ ps → name pe ≠ name pd →
  (get_assignment a' (name pe) ++ get_assignment a' (name pd)
   ≡ₚ get_assignment a (name pe) ++ get_assignment a (name pd))%list →
  (∀ p, p ∈ ps → name p ≠ name pe → name p ≠ name pd →
     get_assignment a' (name p) = get_assignment a (name p)) →
  goods_of ps a' ≡ₚ goods_of ps a.
Proof.
  intros Hnd Hpe Hpd Hne Hswap Hsame.
  apply elem_of_Permutation in Hpe as [ps1 Hps1].
  assert (pd ∈ ps1) as Hpd1.
  { rewrite Hps1 in Hpd. apply elem_of_cons in Hpd as [->|Hpd]; done. }
  apply elem_of_Permutation in Hpd1 as [ps2 Hps2].
  assert (ps ≡ₚ pe :: pd :: ps2) as Hperm by by rewrite Hps1, Hps2.
  assert (NoDup (name <$> pe :: pd :: ps2)) as Hnd' by by rewrite <- Hperm.
  rewrite !fmap_cons in Hnd'.
  apply NoDup_cons in Hnd' as [Hfe Hnd']. apply NoDup_cons in Hnd' as [Hfd _].
  unfold goods_of, bundle_vector.
  rewrite (concat_fmap_perm _ _ _ Hperm).
  rewrite (concat_fmap_perm (λ p, get_assignment a (name p)) _ _ Hperm).
  rewrite !fmap_cons. cbn [concat]. rewrite !app_assoc, Hswap. f_equiv.
  assert ((λ p, get_assignment a' (name p)) <$> ps2
          = (λ p, get_assignment a (name p)) <$> ps2) as ->; [|done].
  apply list_fmap_ext. intros i p Hp.
  assert (p ∈ ps2) as Hp2 by by eapply list_elem_of_lookup_2.
  apply Hsame.
  - rewrite Hperm. right. by right.
  - intros Heq. apply Hfe. rewrite <- Heq. right. by apply list_elem_of_fmap_2.
  - intros Heq. apply Hfd. rewrite <- Heq. by apply list_elem_of_fmap_2.
Qed.

Lemma cut_and_choose_bundles (ps : list Player) (gs : list string)
    (current : Allocation) (envier_name envied_name : string) :
  NoDup (name <$> ps) →
  (∀ p, p ∈ ps → knows_goods p gs) →
  goods_of ps current ≡ₚ gs →
  envier_name ≠ envied_name →
  envier_name ∈ name <$> ps → envied_name ∈ name <$> ps →
  ∃ candidate,
    cut_and_choose ps current envier_name envied_name = Ok candidate ∧
    ∀ test, candidate = Some test →
      goods_of ps test ≡ₚ gs ∧
      utilities_consistent ps test ∧
      (∀ n, n ∈ name <$> ps → n ≠ envier_name → n ≠ envied_name →
         get_assignment test n = get_assignment current n) ∧
      ∃ pe pd, pe ∈ ps ∧ pd ∈ ps ∧
        name pe = envier_name ∧ name pd = envied_name ∧
        (get_assignment test envier_name ++ get_assignment test envied_name
         ≡ₚ get_assignment current envier_name
            ++ get_assignment current envied_name)%list ∧
        get_assignment test envied_name ≠ [] ∧
        (∀ x, x ∈ get_assignment test envied_name →
           (total_value pe (without x (get_assignment test envied_name))
            <= total_value pe (get_assignment test envier_name))%Q) ∧
        (total_value pd (get_assignment test envier_name)
         <= total_value pd (get_assignment test envied_name))%Q.
Proof.
  intros Hnd Hk Hgoods Hne He Hd.
  apply list_elem_of_fmap in He as (pe & -> & Hpe).
  apply list_elem_of_fmap in Hd as (pd & -> & Hpd).
  pose proof (cover_from_goods ps gs current Hk Hgoods) as Hcover.
  unfold cut_and_choose. rewrite !find_player_Ok by done.
  cbn [mbind result_bind]. case_bool_decide; [by exists None|].
  set (all_goods := (get_assignment current (name pe)
                     ++ get_assignment current (name pd))%list).
  assert (∀ p, p ∈ ps → knows_goods p all_goods) as Hkall.
  { intros p Hp g Hg. unfold all_goods in Hg.
    apply elem_of_app in Hg as [Hg|Hg];
      [apply (Hcover p pe Hp Hpe g Hg) | apply (Hcover p pd Hp Hpd g Hg)]. }
  destruct (find_efx_division_facts pe all_goods (Hkall pe Hpe))
    as (division & -> & Hdivision).
  cbn [mbind result_bind]. destruct division as [[bundle_a bundle_b]|];
    [|by exists None].
  destruct (Hdivision bundle_a bundle_b eq_refl)
    as (Hdiv & Hna & Hnb & Hefx_b & Hefx_a).
  assert (∀ p, p ∈ ps → knows_goods p bundle_a) as Hka.
  { intros p Hp g Hg. apply (Hkall p Hp). rewrite <- Hdiv, elem_of_app.
    by left. }
  assert (∀ p, p ∈ ps → knows_goods p bundle_b) as Hkb.
  { intros p Hp g Hg. apply (Hkall p Hp). rewrite <- Hdiv, elem_of_app.
    by right. }
  rewrite (bundle_value_Ok pd bundle_a) by by apply Hka.
  cbn [mbind result_bind].
  rewrite (bundle_value_Ok pd bundle_b) by by apply Hkb.
  cbn [mbind result_bind].
  set (choice := if Qle_bool (total_value pd bundle_b) (total_value pd bundle_a)
                 then (bundle_a, bundle_b) else (bundle_b, bundle_a)).
  assert ((choice.2 ++ choice.1)%list ≡ₚ all_goods) as Hchoice.
  { unfold choice. destruct (Qle_bool _ _); simpl; [|done].
    by rewrite Permutation_app_comm. }
  assert (choice.1 ≠ [] ∧
          (∀ x, x ∈ choice.1 →
             (total_value pe (without x choice.1) <= total_value pe choice.2)%Q) ∧
          (total_value pd choice.2 <= total_value pd choice.1)%Q) as Hfair.
  { unfold choice.
    destruct (Qle_bool (total_value pd bundle_b) (total_value pd bundle_a))
      eqn:Hpref; simpl.
    - apply Qle_bool_iff in Hpref. done.
    - apply Qle_bool_false in Hpref. split; [done|]. split; [done|]. lra. }
  destruct choice as [envied_chosen envier_gets]. simpl in Hchoice, Hfair.
  destruct Hfair as (Hchosen & Hefx & Hpref).
  set (built := build_test_allocation ps current (name pe) (name pd)
                  envier_gets envied_chosen).
  assert (get_assignment built (name pe) = envier_gets) as Hbe.
  { unfold built. rewrite build_test_allocation_bundle
      by by apply list_elem_of_fmap_2.
    by rewrite bool_decide_eq_true_2. }
  assert (get_assignment built (name pd) = envied_chosen) as Hbd.
  { unfold built. rewrite build_test_allocation_bundle
      by by apply list_elem_of_fmap_2.
    rewrite bool_decide_eq_false_2 by (intros Heq; by apply Hne).
    by rewrite bool_decide_eq_true_2. }
  assert (∀ p, p ∈ ps → name p ≠ name pe → name p ≠ name pd →
            get_assignment built (name p) = get_assignment current (name p))
    as Hbo.
  { intros p Hp Hpe' Hpd'. unfold built.
    rewrite build_test_allocation_bundle by by apply list_elem_of_fmap_2.
    by rewrite !bool_decide_eq_false_2. }
  assert (goods_of ps built ≡ₚ gs) as Hbuilt.
  { rewrite <- Hgoods. apply (goods_of_exchange ps current built pe pd);
      try done.
    by rewrite Hbe, Hbd. }
  destruct (calculate_utilities_consistent ps built Hnd)
    as (test & -> & Htest & Hutil & _).
  { intros p Hp. by apply (cover_from_goods ps gs built Hk Hbuilt p p). }
  cbn [mbind result_bind]. exists (Some test). split; [done|].
  intros test' [= <-].
  assert (∀ n, get_assignment test n = get_assignment built n) as Hsame.
  { intros n. unfold get_assignment. by rewrite Htest. }
  split.
  { assert (goods_of ps test = goods_of ps built) as ->; [|done].
    unfold goods_of, bundle_vector, get_assignment. by rewrite Htest. }
  split.
  { intros p Hp. rewrite (Hutil p Hp), Hsame. reflexivity. }
  split.
  { intros n (p & -> & Hp)%list_elem_of_fmap Hn1 Hn2.
    rewrite Hsame. by apply Hbo. }
  exists pe, pd. rewrite !Hsame, Hbe, Hbd. done.
Qed.

Lemma cut_and_choose_spec (ps : list Player) (gs : list string)
    (current : Allocation) (envier_name envied_name : string) :
  NoDup (name <$> ps) →
  (∀ p, p ∈ ps → knows_goods p gs) →
  goods_of ps current ≡ₚ gs →
  envier_name ≠ envied_name →
  envier_name ∈ name <$> ps → envied_name ∈ name <$> ps →
  ∃ candidate,
    cut_and_choose ps current envier_name envied_name = Ok candidate ∧
    ∀ test, candidate = Some test → goods_of ps test ≡ₚ gs.
Proof.
  intros Hnd Hk Hgoods Hne He Hd.
  destruct (cut_and_choose_bundles ps gs current envier_name envied_name)
    as (candidate & Hcut & Hcand); try done.
  exists candidate. split; [done|]. intros test Htest.
  by destruct (Hcand test Htest) as [? _].
Qed.

(** ** Phase 2: one iteration of the loop *)

Lemma finish_step_Ok (ps : list Player) (st : Phase2) :
  NoDup (name <$> ps) → valuations_cover ps (current_allocation st) →
  finish_step ps st
  = Ok (if Qeq_bool (efx_total ps (current_allocation st)) 0
        then Return (current_allocation st) (step st) else Continue st).
Proof.
  intros Hnd Hcover. unfold finish_step.
  rewrite total_efx_envy_of_Ok by done. cbn [mbind result_bind].
  destruct (total_envy_of_Ok ps _ Hnd Hcover) as [t ->].
  cbn [mbind result_bind]. by destruct (Qeq_bool _ 0).
Qed.

(** The three ways an iteration can end, as the code decides them. *)
Lemma phase2_iteration_spec (py_hash : Phase2State → Z) (ps : list Player)
    (gs : list string) (current : Allocation) (envier envied : string)
    (queue : list (string * string)) (seen : gset Z) (n : nat) :
  let st := mkPhase2 current ((envier, envied) :: queue) seen n in
  let state_hash :=
    _create_phase2_state_hash py_hash ((envier, envied) :: queue) current in
  let skipped := mkPhase2 current queue ({[state_hash]} ∪ seen) (S n) in
  NoDup (name <$> ps) →
  (∀ p, p ∈ ps → knows_goods p gs) →
  goods_of ps current ≡ₚ gs →
  envier ≠ envied → envier ∈ name <$> ps → envied ∈ name <$> ps →
  state_hash ∉ seen →
  ∃ candidate,
    cut_and_choose ps current envier envied = Ok candidate ∧
    match candidate with
    | None => phase2_iteration py_hash ps st = Ok (Continue skipped)
    | Some test =>
        goods_of ps test ≡ₚ gs ∧
        if Qltb (efx_total ps test) (efx_total ps current) then
          ∃ relationships,
            _get_envy_relationships ps test = Ok relationships ∧
            queue_wf ps relationships ∧
            phase2_iteration py_hash ps st
            = Ok (if Qeq_bool (efx_total ps test) 0
                  then Return test (S n)
                  else Continue (mkPhase2 test relationships ∅ (S n)))
        else
          phase2_iteration py_hash ps st
          = Ok (if Qeq_bool (efx_total ps current) 0
                then Return current (S n) else Continue skipped)
    end.
Proof.
  intros st state_hash skipped Hnd Hk Hgoods Hne He Hd Hfresh.
  pose proof (cover_from_goods ps gs current Hk Hgoods) as Hcover.
  destruct (cut_and_choose_spec ps gs current envier envied)
    as (candidate & Hcut & Hcand); try done.
  exists candidate. split; [done|].
  unfold phase2_iteration. cbn [envy_relationships current_allocation
                                 seen_states step st].
  fold state_hash. rewrite bool_decide_eq_false_2 by done.
  rewrite total_efx_envy_of_Ok by done. cbn [mbind result_bind].
  destruct (total_envy_of_Ok ps current Hnd Hcover) as [t ->].
  cbn [mbind result_bind]. rewrite Hcut. cbn [mbind result_bind].
  destruct candidate as [test|]; [|done].
  specialize (Hcand test eq_refl). split; [done|].
  pose proof (cover_from_goods ps gs test Hk Hcand) as Hcover'.
  rewrite total_efx_envy_of_Ok by done. cbn [mbind result_bind].
  destruct (total_envy_of_Ok ps test Hnd Hcover') as [t' ->].
  cbn [mbind result_bind].
  destruct (Qltb (efx_total ps test) (efx_total ps current)).
  - destruct (get_envy_relationships_Ok ps test Hnd Hcover')
      as (rel & Hrel & Hwf).
    exists rel. split; [done|]. split; [done|].
    rewrite Hrel. cbn [mbind result_bind].
    by rewrite finish_step_Ok.
  - by rewrite finish_step_Ok.
Qed.

(** X1. In every Phase 2 step the cut-and-choose candidate becomes the
    live allocation exactly when its total EFX-envy is strictly below the
    total before the step. A pair whose combined goods number fewer than
    two, or for which no EFX division of the envier exists, has no
    candidate, and the step leaves the allocation unchanged; so does a
    rejected candidate. On acceptance the seen-state set is reset to empty
    and the queue is recomputed from the new allocation; otherwise the
    queue loses its head and the seen-state set is kept, with the hash of
    the step added. The step also returns when the total EFX-envy of the
    live allocation is zero. *)
Theorem phase2_step_accepts_only_improvements (py_hash : Phase2State → Z)
    (ps : list Player) (gs : list string) (current : Allocation)
    (envier envied : string) (queue : list (string * string))
    (seen : gset Z) (n : nat) :
  let st := mkPhase2 current ((envier, envied) :: queue) seen n in
  let state_hash :=
    _create_phase2_state_hash py_hash ((envier, envied) :: queue) current in
  let unchanged := mkPhase2 current queue ({[state_hash]} ∪ seen) (S n) in
  let all_goods :=
    (get_assignment current envier ++ get_assignment current envied)%list in
  NoDup (name <$> ps) →
  (∀ p, p ∈ ps → knows_goods p gs) →
  goods_of ps current ≡ₚ gs →
  envier ≠ envied → envier ∈ name <$> ps → envied ∈ name <$> ps →
  state_hash ∉ seen →
  ∃ current_efx_envy candidate outcome,
    total_efx_envy_of ps current = Ok current_efx_envy ∧
    cut_and_choose ps current envier envied = Ok candidate ∧
    phase2_iteration py_hash ps st = Ok outcome ∧
    ((length all_goods < 2)%nat → candidate = None) ∧
    (∀ envier_obj, find_player ps envier = Ok envier_obj →
       _find_efx_division_for_envier envier_obj all_goods = Ok None →
       candidate = None) ∧
    match candidate with
    | None => outcome = Continue unchanged
    | Some test =>
        ∃ new_efx_envy,
          total_efx_envy_of ps test = Ok new_efx_envy ∧
          if Qltb new_efx_envy current_efx_envy then
            ∃ relationships,
              _get_envy_relationships ps test = Ok relationships ∧
              outcome = if Qeq_bool new_efx_envy 0 then Return test (S n)
                        else Continue (mkPhase2 test relationships ∅ (S n))
          else
            outcome = if Qeq_bool current_efx_envy 0
                      then Return current (S n)
                      else Continue unchanged
    end.
Proof.
  intros st state_hash unchanged all_goods Hnd Hk Hgoods Hne He Hd Hfresh.
  pose proof (cover_from_goods ps gs current Hk Hgoods) as Hcover.
  destruct (phase2_iteration_spec py_hash ps gs current envier envied queue
              seen n Hnd Hk Hgoods Hne He Hd Hfresh) as (candidate & Hcut & Hrun).
  exists (efx_total ps current), candidate.
  assert (∃ outcome, phase2_iteration py_hash ps st = Ok outcome) as [outcome Ho].
  { destruct candidate as [test|]; [|by eexists].
    destruct Hrun as [_ Hrun].
    destruct (Qltb _ _); [|by eexists].
    destruct Hrun as (rel & _ & _ & Hrun). by eexists. }
  exists outcome. split; [by apply total_efx_envy_of_Ok|].
  split; [done|]. split; [done|].
  apply list_elem_of_fmap in He as (pe & -> & Hpe).
  apply list_elem_of_fmap in Hd as (pd & -> & Hpd).
  split; [|split].
  - intros Hshort. unfold cut_and_choose in Hcut.
    rewrite !find_player_Ok in Hcut by done. cbn [mbind result_bind] in Hcut.
    fold all_goods in Hcut. rewrite bool_decide_eq_true_2 in Hcut by done.
    by injection Hcut as <-.
  - intros envier_obj Hfind Hnone. unfold cut_and_choose in Hcut.
    rewrite Hfind in Hcut. rewrite find_player_Ok in Hcut by done.
    cbn [mbind result_bind] in Hcut. fold all_goods in Hcut.
    rewrite Hnone in Hcut. cbn [mbind result_bind] in Hcut.
    case_bool_decide; by injection Hcut as <-.
  - fold st in Hrun. destruct candidate as [test|].
    + destruct Hrun as [Htest Hrun].
      exists (efx_total ps test). split.
      { apply total_efx_envy_of_Ok; [done|].
        by apply (cover_from_goods ps gs). }
      destruct (Qltb _ _).
      * destruct Hrun as (rel & Hrel & _ & Hrun). exists rel.
        split; [done|]. rewrite Ho in Hrun. by injection Hrun.
      * rewrite Ho in Hrun. by injection Hrun.
    + rewrite Ho in Hrun. by injection Hrun.
Qed.

Lemma phase2_step_accepts_only_improvements_witness :
  ∃ outcome,
    phase2_iteration example_hash scenario_players
      (mkPhase2 unbalanced_allocation [("P4", "P1")] ∅ 0) = Ok outcome.
Proof.
  destruct (phase2_step_accepts_only_improvements example_hash
              scenario_players ["A"; "D"; "B"; "C"] unbalanced_allocation
              "P4" "P1" [] ∅ 0)
    as (current_efx_envy & candidate & outcome & _ & _ & Hrun & _).
  - apply (bool_decide_unpack (NoDup (name <$> scenario_players))).
    vm_compute. exact I.
  - intros p Hp g Hg. unfold scenario_players in Hp.
    elem_cases Hp; elem_cases Hg; eexists; vm_compute; reflexivity.
  - vm_compute. reflexivity.
  - discriminate.
  - apply (bool_decide_unpack ("P4" ∈ name <$> scenario_players)).
    vm_compute. exact I.
  - apply (bool_decide_unpack ("P1" ∈ name <$> scenario_players)).
    vm_compute. exact I.
  - apply not_elem_of_empty.
  - by exists outcome.
Defined.

(** ** Phase 2: the total EFX-envy in closed form *)

Lemma for_each_total {A} (body : envy_state → A → result envy_state)
    (delta : A → Q) (l : list A) :
  (∀ x s s', x ∈ l → body s x = Ok s' → (s'.1.2 == s.1.2 + delta x)%Q) →
  ∀ s s', for_each body l s = Ok s' →
    (s'.1.2 == s.1.2 + py_sum (delta <$> l))%Q.
Proof.
  induction l as [|x l IH]; intros Hbody s s' Hrun.
  - injection Hrun as <-. unfold py_sum. simpl. lra.
  - rewrite for_each_cons in Hrun.
    destruct (body s x) as [s1|e] eqn:Hx; cbn [mbind result_bind] in Hrun;
      [|done].
    pose proof (IH (λ y t t' Hy, Hbody y t t' (list_elem_of_further _ _ _ Hy))
                  s1 s' Hrun) as H1.
    pose proof (Hbody x s s1 (list_elem_of_here _ _) Hx) as H2.
    pose proof (py_sum_cons (delta x) (delta <$> l)) as H3.
    rewrite fmap_cons. lra.
Qed.

Lemma efx_envy_cell_total (a : Allocation) (player_i player_j : Player)
    (s s' : envy_state) :
  knows_goods player_i (get_assignment a (name player_j)) →
  efx_envy_cell a player_i
    (total_value player_i (get_assignment a (name player_i))) s player_j
  = Ok s' →
  (s'.1.2 == s.1.2 + efx_envy_entry a player_i player_j)%Q.
Proof.
  intros Hk. destruct s as [[m t] ind].
  unfold efx_envy_cell, efx_envy_entry.
  destruct (bool_decide (name player_i = name player_j)).
  { destruct (matrix_set _ _ _ _) as [m'|]; cbn [mbind result_bind];
      [|done].
    intros [= <-]. simpl. lra. }
  destruct (get_assignment a (name player_j)) as [|g0 gs] eqn:Hgoods.
  { destruct (matrix_set _ _ _ _) as [m'|]; cbn [mbind result_bind];
      [|done].
    intros [= <-]. simpl. lra. }
  rewrite (find_least_valued_Ok _ _ Hk). cbn [mbind result_bind].
  rewrite bundle_value_Ok.
  2:{ destruct (least_valued player_i (g0 :: gs)) as [[item least]|]; simpl;
        [by apply knows_goods_without | done]. }
  cbn [mbind result_bind].
  destruct (matrix_set _ _ _ _) as [m'|]; cbn [mbind result_bind]; [|done].
  destruct (totals_add _ _ _) as [t'|]; cbn [mbind result_bind]; [|done].
  intros [= <-]. simpl. lra.
Qed.

Lemma efx_total_closed (ps : list Player) (a : Allocation) :
  NoDup (name <$> ps) → valuations_cover ps a →
  (efx_total ps a == efx_entries_sum ps a)%Q.
Proof.
  intros Hnd Hcover.
  pose proof (total_efx_envy_of_Ok ps a Hnd Hcover) as Htot.
  unfold total_efx_envy_of in Htot.
  destruct (_calculate_efx_envy_matrix ps a) as [st|] eqn:Hrun; [|done].
  cbn [mbind result_bind] in Htot. injection Htot as Htot. rewrite <- Htot.
  unfold _calculate_efx_envy_matrix in Hrun.
  apply (for_each_total (efx_envy_row ps a)
           (λ player_i, py_sum (efx_envy_entry a player_i <$> ps))) in Hrun.
  - simpl in Hrun. unfold efx_entries_sum. lra.
  - intros p [[m t] ind] s' Hp. unfold efx_envy_row.
    rewrite (bundle_value_Ok _ _ (Hcover p p Hp Hp)). cbn [mbind result_bind].
    intros Hrow.
    apply (for_each_total _ (efx_envy_entry a p)) in Hrow; [done|].
    intros q s1 s2 Hq. apply efx_envy_cell_total. by apply Hcover.
Qed.

(** ** Phase 2: the total EFX-envy does not depend on the order of a bundle *)

Lemma py_sum_ext {A} (f g : A → Q) (l : list A) :
  (∀ x, x ∈ l → (f x == g x)%Q) →
  (py_sum (f <$> l) == py_sum (g <$> l))%Q.
Proof.
  induction l as [|x l IH]; intros Hfg; [reflexivity|].
  rewrite !fmap_cons, !py_sum_cons.
  pose proof (Hfg x (list_elem_of_here _ _)) as H1.
  pose proof (IH (λ y Hy, Hfg y (list_elem_of_further _ _ _ Hy))) as H2.
  lra.
Qed.

Lemma total_value_perm (p : Player) (l l' : list string) :
  l ≡ₚ l' → (total_value p l == total_value p l')%Q.
Proof.
  induction 1 as [|x l l' _ IH|x y l|l l' l'' _ IH1 _ IH2].
  - reflexivity.
  - rewrite !total_value_cons. lra.
  - rewrite !total_value_cons. lra.
  - lra.
Qed.

Lemma without_fresh (x : string) (l : list string) :
  x ∉ l → without x l = l.
Proof.
  unfold without. induction l as [|g l IH]; intros Hx; [done|].
  apply not_elem_of_cons in Hx as [Hne Hx].
  rewrite filter_cons_True by done. by rewrite IH.
Qed.

Lemma total_value_without (p : Player) (x : string) (l : list string) :
  NoDup l → x ∈ l →
  (total_value p (without x l) == total_value p l - value_of p x)%Q.
Proof.
  induction l as [|g l IH]; intros Hnd Hx; [by apply elem_of_nil in Hx|].
  apply NoDup_cons in Hnd as [Hfresh Hnd].
  destruct (decide (g = x)) as [->|Hne].
  - unfold without. rewrite filter_cons_False by (intros H; by apply H).
    fold (without x l). rewrite (without_fresh x l Hfresh).
    rewrite total_value_cons. lra.
  - apply elem_of_cons in Hx as [->|Hx]; [done|].
    unfold without. rewrite filter_cons_True by done. fold (without x l).
    rewrite !total_value_cons. specialize (IH Hnd Hx). lra.
Qed.

Lemma reduced_value_perm (p : Player) (l l' : list string) :
  l ≡ₚ l' → NoDup l → l ≠ [] →
  (total_value p (without_item (fst <$> least_valued p l) l)
   == total_value p (without_item (fst <$> least_valued p l') l'))%Q.
Proof.
  intros Hperm Hnd Hne.
  assert (l' ≠ []) as Hne'.
  { intros ->. by apply Permutation_nil_r in Hperm. }
  destruct (least_valued_spec p l Hne) as (item & -> & Hin & Hmin).
  destruct (least_valued_spec p l' Hne') as (item' & -> & Hin' & Hmin').
  cbn [fmap option_fmap option_map fst without_item].
  pose proof (total_value_without p item l Hnd Hin) as Hl.
  assert (NoDup l') as Hnd' by by rewrite <- Hperm.
  pose proof (total_value_without p item' l' Hnd' Hin') as Hl'.
  pose proof (total_value_perm p l l' Hperm) as Htot.
  assert (value_of p item <= value_of p item')%Q as H1
    by (apply Hmin; by rewrite Hperm).
  assert (value_of p item' <= value_of p item)%Q as H2
    by (apply Hmin'; by rewrite <- Hperm).
  lra.
Qed.

Lemma max0_compat (x y : Q) : (x == y)%Q → (max0 x == max0 y)%Q.
Proof.
  intros Hxy. unfold max0.
  destruct (Qltb 0 x) eqn:Ex; destruct (Qltb 0 y) eqn:Ey;
    rewrite ?Qltb_true, ?Qltb_false in *; lra.
Qed.

Lemma efx_envy_entry_perm (a a' : Allocation) (player_i player_j : Player) :
  get_assignment a (name player_i) ≡ₚ get_assignment a' (name player_i) →
  get_assignment a (name player_j) ≡ₚ get_assignment a' (name player_j) →
  NoDup (get_assignment a (name player_j)) →
  (efx_envy_entry a player_i player_j == efx_envy_entry a' player_i player_j)%Q.
Proof.
  intros Hi Hj Hnd. unfold efx_envy_entry.
  case_bool_decide; [reflexivity|].
  pose proof (total_value_perm player_i _ _ Hi) as Hown.
  destruct (get_assignment a (name player_j)) as [|g gs] eqn:Ha;
    destruct (get_assignment a' (name player_j)) as [|g' gs'] eqn:Ha'.
  { reflexivity. }
  { by apply Permutation_nil_cons in Hj. }
  { symmetry in Hj. by apply Permutation_nil_cons in Hj. }
  apply max0_compat.
  pose proof (reduced_value_perm player_i (g :: gs) (g' :: gs') Hj Hnd) as Hred.
  specialize (Hred ltac:(done)). lra.
Qed.

Lemma efx_total_perm (ps : list Player) (a a' : Allocation) :
  NoDup (name <$> ps) → valuations_cover ps a →
  (∀ p, p ∈ ps → NoDup (get_assignment a (name p))) →
  (∀ p, p ∈ ps →
     get_assignment a (name p) ≡ₚ get_assignment a' (name p)) →
  (efx_total ps a == efx_total ps a')%Q.
Proof.
  intros Hnd Hcover Hbundles Hperm.
  assert (valuations_cover ps a') as Hcover'.
  { intros p q Hp Hq g Hg. apply (Hcover p q Hp Hq).
    by rewrite (Hperm q Hq). }
  rewrite (efx_total_closed ps a Hnd Hcover).
  rewrite (efx_total_closed ps a' Hnd Hcover').
  unfold efx_entries_sum. apply py_sum_ext. intros p Hp.
  apply py_sum_ext. intros q Hq.
  apply efx_envy_entry_perm; auto.
Qed.

(** ** Phase 2: arrangements of the goods *)

Lemma zip_fmap_same {A B C} (f : A → B) (g : A → C) (l : list A) :
  zip (f <$> l) (g <$> l) = (λ x, (f x, g x)) <$> l.
Proof. induction l as [|x l IH]; [done|]. rewrite !fmap_cons. simpl. by rewrite IH. Qed.

Lemma allocation_of_vector_bundle (ps : list Player) (a : Allocation)
    (p : Player) :
  NoDup (name <$> ps) → p ∈ ps →
  get_assignment (allocation_of_vector ps (bundle_vector ps a)) (name p)
  = get_assignment a (name p).
Proof.
  intros Hnd Hp. unfold allocation_of_vector, bundle_vector.
  unfold get_assignment at 1. cbn [assignments].
  rewrite zip_fmap_same.
  erewrite elem_of_list_to_map_1; [done| |].
  - rewrite <- list_fmap_compose.
    assert (fst ∘ (λ x, (name x, get_assignment a (name x))) <$> ps
            = name <$> ps) as ->; [|done].
    by apply list_fmap_ext.
  - by apply (list_elem_of_fmap_2 (λ x, (name x, get_assignment a (name x)))).
Qed.

Lemma splits_self (v : list (list string)) :
  v ∈ splits (length v) (concat v).
Proof.
  induction v as [|b v IH].
  - left.
  - cbn [length concat splits]. apply list_elem_of_bind.
    exists (length b). split.
    + rewrite take_app_length, drop_app_length.
      by apply (list_elem_of_fmap_2 (λ v, b :: v)).
    + apply elem_of_seq. rewrite length_app. lia.
Qed.

Lemma arrangement_of (ps : list Player) (gs : list string) (a : Allocation) :
  goods_of ps a ≡ₚ gs →
  allocation_of_vector ps (bundle_vector ps a) ∈ arrangements ps gs.
Proof.
  intros Hgoods. unfold arrangements. apply list_elem_of_fmap_2.
  apply list_elem_of_bind. exists (goods_of ps a). split.
  - assert (length ps = length (bundle_vector ps a)) as ->
      by (unfold bundle_vector; by rewrite length_fmap).
    apply splits_self.
  - apply permutations_Permutation. by symmetry.
Qed.

Lemma NoDup_concat_elem (ls : list (list string)) (l : list string) :
  NoDup (concat ls) → l ∈ ls → NoDup l.
Proof.
  induction ls as [|l0 ls IH]; intros Hnd Hl; [by apply elem_of_nil in Hl|].
  simpl in Hnd. apply NoDup_app in Hnd as (H0 & _ & Hrest).
  apply elem_of_cons in Hl as [->|Hl]; [done | by apply IH].
Qed.

Lemma bundle_NoDup (ps : list Player) (gs : list string) (a : Allocation)
    (p : Player) :
  NoDup gs → goods_of ps a ≡ₚ gs → p ∈ ps →
  NoDup (get_assignment a (name p)).
Proof.
  intros Hgs Hgoods Hp. apply (NoDup_concat_elem (bundle_vector ps a)).
  - unfold goods_of in Hgoods. by rewrite Hgoods.
  - by apply (list_elem_of_fmap_2 (λ p, get_assignment a (name p))).
Qed.

Lemma sublist_elem_of_sublists {A} (l1 l2 : list A) :
  l1 `sublist_of` l2 → l1 ∈ sublists l2.
Proof.
  induction 1 as [|x l1 l2 _ IH|x l1 l2 _ IH]; simpl.
  - left.
  - apply elem_of_app. left. by apply (list_elem_of_fmap_2 (x ::.)).
  - apply elem_of_app. by right.
Qed.

(** ** Phase 2: fingerprints *)

Lemma elem_of_involved (q : list (string * string)) (n : string) :
  n ∈ sort_strings (elements (list_to_set (q.*1 ++ q.*2)%list : gset string))
  ↔ n ∈ (q.*1 ++ q.*2)%list.
Proof.
  unfold sort_strings.
  rewrite merge_sort_Permutation, elem_of_elements, elem_of_list_to_set.
  done.
Qed.

Lemma phase2_state_ext (q : list (string * string)) (a a' : Allocation) :
  (∀ n, n ∈ (q.*1 ++ q.*2)%list → get_assignment a n = get_assignment a' n) →
  phase2_state q a = phase2_state q a'.
Proof.
  intros Hsame. unfold phase2_state. f_equal.
  apply list_fmap_ext. intros i n Hn. rewrite Hsame; [done|].
  apply elem_of_involved. by eapply list_elem_of_lookup_2.
Qed.

Lemma fmap_eq_pointwise {A B} (f g : A → B) (l : list A) :
  f <$> l = g <$> l → ∀ x, x ∈ l → f x = g x.
Proof.
  induction l as [|y l IH]; intros Heq x Hx; [by apply elem_of_nil in Hx|].
  rewrite !fmap_cons in Heq. injection Heq as Hy Hl.
  apply elem_of_cons in Hx as [->|Hx]; [done | by apply IH].
Qed.

Lemma fst_fmap_pair {A B} (f : A → B) (l : list A) :
  ((λ x, (x, f x)) <$> l).*1 = l.
Proof. induction l as [|x l IH]; [done|]. rewrite !fmap_cons. simpl. by rewrite IH. Qed.

(** Equal fingerprints: the involved players hold the same goods. *)
Lemma phase2_state_bundles (q q' : list (string * string))
    (a c : Allocation) :
  phase2_state q a = phase2_state q' c →
  ∀ n, n ∈ (q.*1 ++ q.*2)%list → get_assignment a n ≡ₚ get_assignment c n.
Proof.
  unfold phase2_state. intros [= _ Hgoods] n Hn.
  apply elem_of_involved in Hn.
  pose proof (f_equal (fmap fst) Hgoods) as Hnames.
  rewrite !fst_fmap_pair in Hnames. rewrite <- Hnames in Hgoods.
  apply (fmap_eq_pointwise _ _ _ Hgoods) in Hn. injection Hn as Hn.
  unfold sort_strings in Hn.
  rewrite <- (merge_sort_Permutation (λ a b, String.leb a b)
                (get_assignment a n)).
  rewrite Hn. apply merge_sort_Permutation.
Qed.

(** ** Phase 2: the queue of all pairs but one involves every player *)

Lemma elem_of_delete_ne {A} (l : list A) (k : nat) (x y : A) :
  x ∈ l → l !! k = Some y → x ≠ y → x ∈ delete k l.
Proof.
  intros Hx Hk Hne. rewrite delete_take_drop.
  rewrite <- (take_drop_middle l k y Hk) in Hx.
  rewrite elem_of_app, elem_of_cons in Hx. rewrite elem_of_app.
  destruct Hx as [?|[?|?]]; auto. done.
Qed.

Lemma not_elem_of_delete {A} (l : list A) (k : nat) (y : A) :
  NoDup l → l !! k = Some y → y ∉ delete k l.
Proof.
  intros Hnd Hk. rewrite delete_take_drop.
  rewrite <- (take_drop_middle l k y Hk) in Hnd.
  apply NoDup_app in Hnd as (H1 & H2 & H3).
  apply NoDup_cons in H3 as [H3 _]. rewrite elem_of_app.
  intros [H|H]; [|done]. apply (H2 y H). left.
Qed.

Lemma delete_covers (ps : list Player) (k : nat) (n : string) :
  (k < length (all_pairs ps))%nat → n ∈ name <$> ps →
  n ∈ ((delete k (all_pairs ps)).*1 ++ (delete k (all_pairs ps)).*2)%list.
Proof.
  intros Hk Hn. destruct (lookup_lt_is_Some_2 _ _ Hk) as [[i j] Hy].
  assert ((i, j) ∈ all_pairs ps) as Hij by by eapply list_elem_of_lookup_2.
  apply elem_of_all_pairs in Hij as (Hi & Hj & Hij).
  assert (∃ m, m ∈ name <$> ps ∧ m ≠ n) as (m & Hm & Hmn).
  { destruct (decide (i = n)) as [Heq|Hne].
    - exists j. split; [done|]. intros ->. by apply Hij.
    - by exists i. }
  apply elem_of_app. destruct (decide ((n, m) = (i, j))) as [[= -> ->]|Hne].
  - right. apply (list_elem_of_fmap_2 snd _ (j, i)).
    apply (elem_of_delete_ne _ _ _ (i, j)); [|done|].
    + apply elem_of_all_pairs. done.
    + intros [= -> _]. done.
  - left. apply (list_elem_of_fmap_2 fst _ (n, m)).
    apply (elem_of_delete_ne _ _ _ (i, j)); [|done|done].
    apply elem_of_all_pairs. split; [done|]. split; [done|]. by intros ->.
Qed.

(** ** Phase 2: the measure *)

Lemma Qltb_compat (x x' y y' : Q) :
  (x == x')%Q → (y == y')%Q → Qltb x y = Qltb x' y'.
Proof.
  intros Hx Hy. destruct (Qltb x' y') eqn:E.
  - apply Qltb_true in E. apply Qltb_true. lra.
  - apply Qltb_false in E. apply Qltb_false. lra.
Qed.

Lemma elem_of_fingerprints_below (ps : list Player) (gs : list string)
    (a : Allocation) (f : Phase2State) :
  f ∈ fingerprints_below ps gs a ↔
  ∃ c q, c ∈ arrangements ps gs ∧
         Qltb (efx_total ps c) (efx_total ps a) = true ∧
         q ∈ sublists (all_pairs ps) ∧ f = phase2_state q c.
Proof.
  unfold fingerprints_below. rewrite elem_of_list_to_set, list_elem_of_bind.
  split.
  - intros (c & Hf & Hc). apply list_elem_of_filter in Hc as [Hlt Hc].
    apply list_elem_of_fmap in Hf as (q & -> & Hq).
    exists c, q. split; [done|]. split; [by apply Is_true_true|]. done.
  - intros (c & q & Hc & Hlt & Hq & ->). exists c. split.
    + by apply (list_elem_of_fmap_2 (λ q, phase2_state q c)).
    + apply list_elem_of_filter. split; [by apply Is_true_true | done].
Qed.

Lemma elem_of_fingerprints_pending (ps : list Player) (a : Allocation)
    (k : nat) (f : Phase2State) :
  f ∈ fingerprints_pending ps a k ↔
  ∃ j, (j < k)%nat ∧ f = phase2_state (delete j (all_pairs ps)) a.
Proof.
  unfold fingerprints_pending. rewrite elem_of_list_to_set, list_elem_of_fmap.
  split.
  - intros (j & -> & Hj). apply elem_of_seq in Hj. exists j. split; [lia|done].
  - intros (j & Hj & ->). exists j. split; [done|]. apply elem_of_seq. lia.
Qed.

Lemma elem_of_observable_fingerprints (ps : list Player) (gs : list string)
    (f : Phase2State) :
  f ∈ observable_fingerprints ps gs ↔
  ∃ q c, q ∈ sublists (all_pairs ps) ∧ c ∈ arrangements ps gs ∧
         f = phase2_state q c.
Proof.
  unfold observable_fingerprints.
  rewrite elem_of_list_to_set, list_elem_of_bind. split.
  - intros (q & Hf & Hq). apply list_elem_of_fmap in Hf as (c & -> & Hc).
    by exists q, c.
  - intros (q & c & Hq & Hc & ->). exists q. split; [|done].
    by apply list_elem_of_fmap_2.
Qed.

Lemma involved_names (ps : list Player) (q : list (string * string))
    (n : string) :
  q `sublist_of` all_pairs ps → n ∈ (q.*1 ++ q.*2)%list → n ∈ name <$> ps.
Proof.
  intros Hq Hn.
  assert (∃ e d, (e, d) ∈ q ∧ (n = e ∨ n = d)) as (e & d & Hin & Hor).
  { apply elem_of_app in Hn as [Hn|Hn];
      apply list_elem_of_fmap in Hn as ([e d] & -> & Hin);
      exists e, d; auto. }
  destruct (queue_wf_elem ps q e d Hq Hin) as (_ & He & Hd).
  by destruct Hor as [->| ->].
Qed.

Section Phase2Measure.

Variables (ps : list Player) (gs : list string).
Hypothesis names_distinct : NoDup (name <$> ps).
Hypothesis goods_distinct : NoDup gs.
Hypothesis goods_valued : ∀ p, p ∈ ps → knows_goods p gs.

(** The arrangement that gives the players the bundles of [a]. *)
Local Abbreviation arranged a := (allocation_of_vector ps (bundle_vector ps a)).

Lemma arranged_fingerprint (a : Allocation) (q : list (string * string)) :
  q `sublist_of` all_pairs ps →
  phase2_state q a = phase2_state q (arranged a).
Proof.
  intros Hq. apply phase2_state_ext. intros n Hn.
  apply (involved_names ps q n Hq) in Hn.
  apply list_elem_of_fmap in Hn as (p & -> & Hp).
  by rewrite allocation_of_vector_bundle.
Qed.

Lemma arranged_efx_total (a : Allocation) :
  goods_of ps a ≡ₚ gs →
  (efx_total ps (arranged a) == efx_total ps a)%Q.
Proof.
  intros Hgoods. symmetry. apply efx_total_perm; [done| | |].
  - by apply (cover_from_goods ps gs).
  - intros p Hp. by apply (bundle_NoDup ps gs).
  - intros p Hp. by rewrite allocation_of_vector_bundle.
Qed.

Lemma fingerprint_efx_total (a c : Allocation) (k : nat)
    (q : list (string * string)) :
  goods_of ps a ≡ₚ gs → (k < length (all_pairs ps))%nat →
  phase2_state (delete k (all_pairs ps)) a = phase2_state q c →
  (efx_total ps a == efx_total ps c)%Q.
Proof.
  intros Hgoods Hk Heq. apply efx_total_perm; [done| | |].
  - by apply (cover_from_goods ps gs).
  - intros p Hp. by apply (bundle_NoDup ps gs).
  - intros p Hp. apply (phase2_state_bundles _ _ _ _ Heq).
    apply delete_covers; [done|]. by apply list_elem_of_fmap_2.
Qed.

Lemma pending_not_below (a : Allocation) (k : nat) :
  goods_of ps a ≡ₚ gs → (k < length (all_pairs ps))%nat →
  phase2_state (delete k (all_pairs ps)) a ∉ fingerprints_below ps gs a.
Proof.
  intros Hgoods Hk Hin.
  apply elem_of_fingerprints_below in Hin as (c & q & _ & Hlt & _ & Heq).
  pose proof (fingerprint_efx_total a c k q Hgoods Hk Heq) as Hsame.
  apply Qltb_true in Hlt. lra.
Qed.

Lemma pending_distinct (a a' : Allocation) (j k : nat) :
  j ≠ k → (j < length (all_pairs ps))%nat → (k < length (all_pairs ps))%nat →
  phase2_state (delete j (all_pairs ps)) a
  ≠ phase2_state (delete k (all_pairs ps)) a'.
Proof.
  intros Hjk Hj Hk Heq. unfold phase2_state in Heq.
  injection Heq as Hsets _.
  pose proof (NoDup_all_pairs ps names_distinct) as Hnd.
  destruct (lookup_lt_is_Some_2 _ _ Hj) as [x Hx].
  destruct (lookup_lt_is_Some_2 _ _ Hk) as [y Hy].
  assert (y ≠ x) as Hne.
  { intros ->. apply Hjk. by apply (NoDup_lookup _ _ _ x Hnd). }
  assert (y ∈ delete j (all_pairs ps)) as Hin.
  { apply (elem_of_delete_ne _ _ _ x); [|done|done].
    by eapply list_elem_of_lookup_2. }
  apply (not_elem_of_delete _ _ _ Hnd Hy).
  apply (elem_of_list_to_set (C := gset (string * string))).
  rewrite <- Hsets. by apply elem_of_list_to_set.
Qed.

Lemma pending_observable (a : Allocation) (k : nat) :
  goods_of ps a ≡ₚ gs →
  fingerprints_pending ps a k ⊆ observable_fingerprints ps gs.
Proof.
  intros Hgoods f Hf.
  apply elem_of_fingerprints_pending in Hf as (j & _ & ->).
  apply elem_of_observable_fingerprints.
  exists (delete j (all_pairs ps)), (arranged a).
  split; [apply sublist_elem_of_sublists, sublist_delete|].
  split; [by apply arrangement_of|].
  apply arranged_fingerprint, sublist_delete.
Qed.

Lemma below_observable (a : Allocation) :
  fingerprints_below ps gs a ⊆ observable_fingerprints ps gs.
Proof.
  intros f Hf.
  apply elem_of_fingerprints_below in Hf as (c & q & Hc & _ & Hq & ->).
  apply elem_of_observable_fingerprints. by exists q, c.
Qed.

Lemma measure_le_bound (st : Phase2) :
  goods_of ps (current_allocation st) ≡ₚ gs →
  (phase2_measure ps gs st ≤ size (observable_fingerprints ps gs))%nat.
Proof.
  intros Hgoods. unfold phase2_measure. apply subseteq_size.
  apply union_subseteq. split;
    [apply below_observable | by apply pending_observable].
Qed.

(** Popping the head of the queue decreases the measure. *)
Lemma measure_pop (a : Allocation) (k : nat) :
  goods_of ps a ≡ₚ gs → (S k ≤ length (all_pairs ps))%nat →
  (size (fingerprints_below ps gs a ∪ fingerprints_pending ps a k)
   < size (fingerprints_below ps gs a ∪ fingerprints_pending ps a (S k)))%nat.
Proof.
  intros Hgoods Hk. apply subset_size. split.
  - apply union_mono_l. intros f Hf.
    apply elem_of_fingerprints_pending in Hf as (j & Hj & ->).
    apply elem_of_fingerprints_pending. exists j. split; [lia|done].
  - intros Hsub.
    specialize (Hsub (phase2_state (delete k (all_pairs ps)) a)).
    apply elem_of_union in Hsub as [Hb|Hp].
    + by apply (pending_not_below a k Hgoods).
    + apply elem_of_fingerprints_pending in Hp as (j & Hj & Heq).
      apply (pending_distinct a a k j); [lia|lia|lia|done].
    + apply elem_of_union. right. apply elem_of_fingerprints_pending.
      exists k. split; [lia|done].
Qed.

(** Accepting an allocation of lower total EFX-envy decreases the measure,
    whatever the new queue. *)
Lemma measure_accept (a a' : Allocation) (k k' : nat) :
  goods_of ps a ≡ₚ gs → goods_of ps a' ≡ₚ gs →
  Qltb (efx_total ps a') (efx_total ps a) = true →
  (S k ≤ length (all_pairs ps))%nat →
  (size (fingerprints_below ps gs a' ∪ fingerprints_pending ps a' k')
   < size (fingerprints_below ps gs a ∪ fingerprints_pending ps a (S k)))%nat.
Proof.
  intros Hgoods Hgoods' Hlt Hk.
  assert (fingerprints_below ps gs a' ∪ fingerprints_pending ps a' k'
          ⊆ fingerprints_below ps gs a) as Hsub.
  { apply union_subseteq. split; intros f Hf.
    - apply elem_of_fingerprints_below in Hf as (c & q & Hc & Hlt' & Hq & ->).
      apply elem_of_fingerprints_below. exists c, q. split; [done|].
      split; [|done]. apply Qltb_true in Hlt, Hlt'. apply Qltb_true. lra.
    - apply elem_of_fingerprints_pending in Hf as (j & _ & ->).
      apply elem_of_fingerprints_below.
      exists (arranged a'), (delete j (all_pairs ps)).
      split; [by apply arrangement_of|]. split; [|split].
      + rewrite <- Hlt. apply Qltb_compat; [|reflexivity].
        by apply arranged_efx_total.
      + apply sublist_elem_of_sublists, sublist_delete.
      + apply arranged_fingerprint, sublist_delete. }
  apply subset_size. split.
  - intros f Hf. apply elem_of_union. left. by apply Hsub.
  - intros Hall.
    apply (pending_not_below a 0 Hgoods); [lia|].
    apply Hsub, Hall. apply elem_of_union. right.
    apply elem_of_fingerprints_pending. exists 0%nat. split; [lia|done].
Qed.

End Phase2Measure.

(** ** Phase 2: the loop terminates *)

Lemma run_outcome_mono (ps : list Player) (gs : list string)
    (limit limit' : nat) (r : result (Allocation * nat)) :
  (limit ≤ limit')%nat → run_outcome ps gs limit r → run_outcome ps gs limit' r.
Proof.
  intros Hle. destruct r as [[final steps]|e]; simpl; [|done].
  intros (? & ? & ?). split; [done|]. split; [done|lia].
Qed.

Lemma phase2_loop_more_fuel (py_hash : Phase2State → Z) (ps : list Player)
    (fuel fuel' : nat) (st : Phase2) (r : result (Allocation * nat)) :
  (fuel ≤ fuel')%nat →
  phase2_loop py_hash fuel ps st = Some r →
  phase2_loop py_hash fuel' ps st = Some r.
Proof.
  revert fuel' st. induction fuel as [|fuel IH]; intros fuel' st Hle Hrun;
    [done|].
  destruct fuel' as [|fuel']; [lia|]. simpl in *.
  destruct (envy_relationships st); [done|].
  destruct (phase2_iteration py_hash ps st) as [[st'|final steps]|e];
    [|done|done].
  apply IH; [lia|done].
Qed.

Lemma phase2_loop_terminates (py_hash : Phase2State → Z) (ps : list Player)
    (gs : list string) :
  NoDup (name <$> ps) → NoDup gs → (∀ p, p ∈ ps → knows_goods p gs) →
  ∀ fuel st,
    phase2_inv ps gs st → (phase2_measure ps gs st < fuel)%nat →
    ∃ r, phase2_loop py_hash fuel ps st = Some r ∧
         run_outcome ps gs (step st + phase2_measure ps gs st) r.
Proof.
  intros Hnd Hgs Hk. induction fuel as [|fuel IH]; intros st [Hgoods Hwf] Hfuel;
    [lia|].
  pose proof (cover_from_goods ps gs _ Hk Hgoods) as Hcover.
  destruct st as [current queue seen n]. cbn [phase2_loop envy_relationships].
  cbn [current_allocation envy_relationships step] in *.
  destruct queue as [|[envier envied] queue].
  { rewrite total_efx_envy_of_Ok by done. cbn [mbind result_bind].
    destruct (total_envy_of_Ok ps current Hnd Hcover) as [t ->].
    cbn [mbind result_bind].
    destruct (Qeq_bool (efx_total ps current) 0) eqn:Hzero.
    - eexists. split; [done|]. simpl. split; [done|]. split; [|lia].
      exists (efx_total ps current).
      split; [by apply total_efx_envy_of_Ok | by apply Qeq_bool_iff].
    - eexists. split; [done|]. simpl. by apply Qeq_bool_neq. }
  pose proof (queue_wf_length ps _ Hwf) as Hlen. simpl in Hlen.
  destruct (queue_wf_elem ps _ envier envied Hwf) as (Hne & He & Hd); [left|].
  pose proof (queue_wf_tail ps _ _ Hwf) as Hwf'.
  set (st := mkPhase2 current ((envier, envied) :: queue) seen n) in *.
  set (state_hash :=
         _create_phase2_state_hash py_hash ((envier, envied) :: queue) current).
  assert (phase2_measure ps gs (mkPhase2 current queue
                                  ({[state_hash]} ∪ seen) (S n))
          < phase2_measure ps gs st)%nat as Hpop.
  { unfold phase2_measure. simpl. by apply measure_pop. }
  assert (∀ final, goods_of ps final ≡ₚ gs →
            Qeq_bool (efx_total ps final) 0 = true →
            run_outcome ps gs (n + phase2_measure ps gs st)
              (Ok (final, S n))) as Hreturn.
  { intros final Hfinal Hzero. simpl. split; [done|]. split; [|lia].
    exists (efx_total ps final). split; [|by apply Qeq_bool_iff].
    apply total_efx_envy_of_Ok; [done|]. by apply (cover_from_goods ps gs). }
  assert (∀ st', phase2_inv ps gs st' → step st' = S n →
            (phase2_measure ps gs st' < phase2_measure ps gs st)%nat →
            ∃ r, phase2_loop py_hash fuel ps st' = Some r ∧
                 run_outcome ps gs (n + phase2_measure ps gs st) r) as Hnext.
  { intros st' Hinv Hstep Hless.
    destruct (IH st' Hinv) as (r & Hr & Hout); [lia|].
    exists r. split; [done|]. eapply run_outcome_mono; [|done]. lia. }
  destruct (decide (state_hash ∈ seen)) as [Hseen|Hfresh].
  { exists (Raise (RuntimeError CycleDetected)). split; [|done].
    unfold phase2_iteration, st. cbn [envy_relationships current_allocation
                                       seen_states step].
    fold state_hash. by rewrite bool_decide_eq_true_2. }
  destruct (phase2_iteration_spec py_hash ps gs current envier envied queue
              seen n Hnd Hk Hgoods Hne He Hd Hfresh) as (candidate & _ & Hrun).
  fold st in Hrun. fold state_hash in Hrun.
  destruct candidate as [test|].
  2:{ rewrite Hrun. by apply Hnext. }
  destruct Hrun as [Htest Hrun].
  destruct (Qltb (efx_total ps test) (efx_total ps current)) eqn:Hlt.
  - destruct Hrun as (relationships & _ & Hwfr & ->).
    destruct (Qeq_bool (efx_total ps test) 0) eqn:Hzero.
    + eexists. split; [done|]. by apply Hreturn.
    + apply Hnext; [done|done|].
      unfold phase2_measure. simpl. by apply measure_accept.
  - rewrite Hrun.
    destruct (Qeq_bool (efx_total ps current) 0) eqn:Hzero.
    + eexists. split; [done|]. by apply Hreturn.
    + by apply Hnext.
Qed.

(** ** Phase 2: the whole function *)

Lemma phase2_start_spec (py_hash : Phase2State → Z) (ps : list Player)
    (a : Allocation) :
  NoDup (name <$> ps) → valuations_cover ps a →
  ∃ relationships,
    _get_envy_relationships ps a = Ok relationships ∧
    queue_wf ps relationships ∧
    phase2_start ps a = Ok (mkPhase2 a relationships ∅ 0).
Proof.
  intros Hnd Hcover. unfold phase2_start.
  destruct (get_envy_relationships_Ok ps a Hnd Hcover) as (rel & Hrel & Hwf).
  exists rel. split; [done|]. split; [done|].
  rewrite Hrel. cbn [mbind result_bind].
  rewrite total_efx_envy_of_Ok by done. cbn [mbind result_bind].
  destruct (total_envy_of_Ok ps a Hnd Hcover) as [t ->].
  cbn [mbind result_bind].
  destruct (regular_relationships_Ok ps a Hnd Hcover) as (envy & -> & [r Hr]).
  cbn [mbind result_bind]. by rewrite Hr.
Qed.

Lemma phase2_run (py_hash : Phase2State → Z) (ps : list Player)
    (a : Allocation) :
  NoDup (name <$> ps) →
  NoDup (goods_of ps a) →
  (∀ p, p ∈ ps → knows_goods p (goods_of ps a)) →
  ∃ r,
    (∀ fuel, (phase2_bound ps a < fuel)%nat →
       _phase2_stepwise_redistribution py_hash fuel ps a = Some r) ∧
    run_outcome ps (goods_of ps a) (phase2_bound ps a) r.
Proof.
  intros Hnd Hgs Hk.
  pose proof (cover_from_goods ps _ a Hk (reflexivity _)) as Hcover.
  destruct (phase2_start_spec py_hash ps a Hnd Hcover)
    as (rel & _ & Hwf & Hstart).
  set (st := mkPhase2 a rel ∅ 0).
  assert (phase2_inv ps (goods_of ps a) st) as Hinv by done.
  pose proof (measure_le_bound ps (goods_of ps a) Hnd st (reflexivity _))
    as Hbound.
  destruct (phase2_loop_terminates py_hash ps (goods_of ps a) Hnd Hgs Hk
              (S (phase2_bound ps a)) st Hinv) as (r & Hr & Hout).
  { unfold phase2_bound. lia. }
  exists r. split.
  - intros fuel Hfuel. unfold _phase2_stepwise_redistribution.
    rewrite Hstart. apply (phase2_loop_more_fuel _ _ (S (phase2_bound ps a)));
      [lia|done].
  - eapply run_outcome_mono; [|done]. simpl. unfold phase2_bound. lia.
Qed.

(** X2. Phase 2 terminates: for every allocation of distinct, valued goods the
    function returns after at most as many steps as the instance has
    observable fingerprints, with an allocation of the same goods whose
    total EFX-envy is zero, or it raises one of its two errors; the
    exhaustion error carries a nonzero total EFX-envy. *)
Theorem phase2_terminates (py_hash : Phase2State → Z) (ps : list Player)
    (a : Allocation) :
  NoDup (name <$> ps) →
  NoDup (goods_of ps a) →
  (∀ p, p ∈ ps → knows_goods p (goods_of ps a)) →
  ∃ r,
    (∀ fuel, (phase2_bound ps a < fuel)%nat →
       _phase2_stepwise_redistribution py_hash fuel ps a = Some r) ∧
    run_outcome ps (goods_of ps a) (phase2_bound ps a) r.
Proof. apply phase2_run. Qed.

Lemma phase2_terminates_witness :
  ∃ r, _phase2_stepwise_redistribution example_hash
         (S (phase2_bound scenario_players unbalanced_allocation))
         scenario_players unbalanced_allocation = Some r.
Proof.
  destruct (phase2_terminates example_hash scenario_players
              unbalanced_allocation) as (r & Hr & _).
  - apply (bool_decide_unpack (NoDup (name <$> scenario_players))).
    vm_compute. exact I.
  - apply (bool_decide_unpack
             (NoDup (goods_of scenario_players unbalanced_allocation))).
    vm_compute. exact I.
  - intros p Hp g Hg. unfold scenario_players in Hp. vm_compute in Hg.
    elem_cases Hp; elem_cases Hg; eexists; vm_compute; reflexivity.
  - exists r. apply Hr. lia.
Defined.

(** ** Phase 2: cycle detection and hash collisions *)

Lemma phase2_loop_no_cycle (py_hash : Phase2State → Z) (ps : list Player)
    (gs : list string) :
  Inj (=) (=) py_hash →
  NoDup (name <$> ps) → (∀ p, p ∈ ps → knows_goods p gs) →
  ∀ fuel st r,
    phase2_inv ps gs st → seen_inv py_hash st →
    phase2_loop py_hash fuel ps st = Some r →
    r ≠ Raise (RuntimeError CycleDetected).
Proof.
  intros Hinj Hnd Hk. induction fuel as [|fuel IH];
    intros st r [Hgoods Hwf] Hseen Hrun; [done|].
  pose proof (cover_from_goods ps gs _ Hk Hgoods) as Hcover.
  destruct st as [current queue seen n]. cbn [phase2_loop envy_relationships] in Hrun.
  cbn [current_allocation envy_relationships step] in *.
  destruct queue as [|[envier envied] queue].
  { rewrite total_efx_envy_of_Ok in Hrun by done.
    cbn [mbind result_bind] in Hrun.
    destruct (total_envy_of_Ok ps current Hnd Hcover) as [t Ht].
    rewrite Ht in Hrun. cbn [mbind result_bind] in Hrun.
    destruct (Qeq_bool (efx_total ps current) 0); by injection Hrun as <-. }
  destruct (queue_wf_elem ps _ envier envied Hwf) as (Hne & He & Hd); [left|].
  pose proof (queue_wf_tail ps _ _ Hwf) as Hwf'.
  assert (NoDup ((envier, envied) :: queue)) as Hqnd.
  { apply (sublist_NoDup _ (all_pairs ps)); [by apply NoDup_all_pairs|done]. }
  apply NoDup_cons in Hqnd as [Hhead _].
  set (st := mkPhase2 current ((envier, envied) :: queue) seen n) in *.
  set (state_hash :=
         _create_phase2_state_hash py_hash ((envier, envied) :: queue) current).
  assert (state_hash ∉ seen) as Hfresh.
  { intros Hin. destruct (Hseen _ Hin) as (x & q & Heq & Hx & Hnx).
    apply Hinj in Heq. apply (f_equal fst) in Heq.
    unfold phase2_state in Heq. cbv beta iota delta [fst] in Heq.
    apply Hnx. apply (elem_of_list_to_set (C := gset (string * string))).
    unfold st. cbn [envy_relationships]. rewrite Heq.
    by apply elem_of_list_to_set. }
  assert (seen_inv py_hash (mkPhase2 current queue
                              ({[state_hash]} ∪ seen) (S n))) as Hseen'.
  { intros h Hh. cbn [seen_states current_allocation envy_relationships] in *.
    apply elem_of_union in Hh as [Hh|Hh].
    - apply elem_of_singleton in Hh as ->.
      exists (envier, envied), ((envier, envied) :: queue).
      split; [done|]. split; [left | done].
    - destruct (Hseen h Hh) as (x & q & Heq & Hx & Hnx).
      exists x, q. split; [done|]. split; [done|].
      intros Hin. apply Hnx. by right. }
  assert (∀ relationships test,
            seen_inv py_hash (mkPhase2 test relationships ∅ (S n)))
    as Hreset.
  { intros relationships test h Hh. by apply elem_of_empty in Hh. }
  destruct (phase2_iteration_spec py_hash ps gs current envier envied queue
              seen n Hnd Hk Hgoods Hne He Hd Hfresh) as (candidate & _ & Hit).
  fold st in Hit. fold state_hash in Hit.
  destruct candidate as [test|].
  2:{ rewrite Hit in Hrun.
      refine (IH (mkPhase2 current queue ({[state_hash]} ∪ seen) (S n)) r
                _ Hseen' Hrun). by split. }
  destruct Hit as [Htest Hit].
  destruct (Qltb (efx_total ps test) (efx_total ps current)).
  - destruct Hit as (relationships & _ & Hwfr & Hit). rewrite Hit in Hrun.
    destruct (Qeq_bool (efx_total ps test) 0).
    + by injection Hrun as <-.
    + refine (IH (mkPhase2 test relationships ∅ (S n)) r _ (Hreset _ _) Hrun).
      by split.
  - rewrite Hit in Hrun.
    destruct (Qeq_bool (efx_total ps current) 0).
    + by injection Hrun as <-.
    + refine (IH (mkPhase2 current queue ({[state_hash]} ∪ seen) (S n)) r
                _ Hseen' Hrun). by split.
Qed.

(** X3. With a hash function that has no collisions the cycle error is never
    raised: Phase 2 returns an allocation with zero total EFX-envy or
    raises the exhaustion error. *)
Theorem phase2_cycle_needs_collision (py_hash : Phase2State → Z)
    (ps : list Player) (a : Allocation) (fuel : nat)
    (r : result (Allocation * nat)) :
  Inj (=) (=) py_hash →
  NoDup (name <$> ps) →
  (∀ p, p ∈ ps → knows_goods p (goods_of ps a)) →
  _phase2_stepwise_redistribution py_hash fuel ps a = Some r →
  r ≠ Raise (RuntimeError CycleDetected).
Proof.
  intros Hinj Hnd Hk Hrun.
  pose proof (cover_from_goods ps _ a Hk (reflexivity _)) as Hcover.
  destruct (phase2_start_spec py_hash ps a Hnd Hcover)
    as (rel & _ & Hwf & Hstart).
  unfold _phase2_stepwise_redistribution in Hrun. rewrite Hstart in Hrun.
  apply (phase2_loop_no_cycle py_hash ps (goods_of ps a) Hinj Hnd Hk fuel
           (mkPhase2 a rel ∅ 0) r); [done| |done].
  intros h Hh. by apply elem_of_empty in Hh.
Qed.

Lemma collision_free_hash_inj : Inj (=) (=) collision_free_hash.
Proof.
  intros x y Heq. unfold collision_free_hash in Heq.
  injection Heq as Heq. by apply (inj encode).
Qed.

Lemma phase2_cycle_needs_collision_witness :
  ∃ r, _phase2_stepwise_redistribution collision_free_hash 5
         scenario_players unbalanced_allocation = Some r ∧
       r ≠ Raise (RuntimeError CycleDetected).
Proof.
  eexists. split; [vm_compute; reflexivity|].
  apply (phase2_cycle_needs_collision collision_free_hash scenario_players
           unbalanced_allocation 5).
  - apply collision_free_hash_inj.
  - apply (bool_decide_unpack (NoDup (name <$> scenario_players))).
    vm_compute. exact I.
  - intros p Hp g Hg. unfold scenario_players in Hp. vm_compute in Hg.
    elem_cases Hp; elem_cases Hg; eexists; vm_compute; reflexivity.
  - vm_compute. reflexivity.
Defined.

(** ** The totals of the two envy matrices *)

Lemma py_sum_nonneg (l : list Q) :
  (∀ x, x ∈ l → (0 <= x)%Q) → (0 <= py_sum l)%Q.
Proof.
  induction l as [|x l IH]; intros Hpos; [unfold py_sum; simpl; lra|].
  rewrite py_sum_cons.
  pose proof (Hpos x (list_elem_of_here _ _)).
  pose proof (IH (λ y Hy, Hpos y (list_elem_of_further _ _ _ Hy))). lra.
Qed.

Lemma py_sum_zero (l : list Q) :
  (∀ x, x ∈ l → (0 <= x)%Q) → (py_sum l == 0)%Q →
  ∀ x, x ∈ l → (x == 0)%Q.
Proof.
  induction l as [|y l IH]; intros Hpos Hsum x Hx;
    [by apply elem_of_nil in Hx|].
  rewrite py_sum_cons in Hsum.
  pose proof (Hpos y (list_elem_of_here _ _)) as Hy.
  pose proof (py_sum_nonneg l (λ z Hz, Hpos z (list_elem_of_further _ _ _ Hz)))
    as Hl.
  apply elem_of_cons in Hx as [->|Hx]; [lra|].
  apply IH; [|lra|done]. intros z Hz. apply Hpos. by right.
Qed.

Lemma py_sum_le {A} (f g : A → Q) (l : list A) :
  (∀ x, x ∈ l → (f x <= g x)%Q) →
  (py_sum (f <$> l) <= py_sum (g <$> l))%Q.
Proof.
  induction l as [|x l IH]; intros Hfg; [apply Qle_refl|].
  rewrite !fmap_cons, !py_sum_cons.
  pose proof (Hfg x (list_elem_of_here _ _)) as H1.
  pose proof (IH (λ y Hy, Hfg y (list_elem_of_further _ _ _ Hy))) as H2.
  lra.
Qed.

Lemma envy_cell_total (a : Allocation) (player_i player_j : Player)
    (s s' : envy_state) :
  knows_goods player_i (get_assignment a (name player_j)) →
  envy_cell a player_i
    (total_value player_i (get_assignment a (name player_i))) s player_j
  = Ok s' →
  (s'.1.2 == s.1.2 + envy_entry a player_i player_j)%Q.
Proof.
  intros Hk. destruct s as [[m t] ind]. unfold envy_cell, envy_entry.
  destruct (bool_decide (name player_i = name player_j)).
  { destruct (matrix_set _ _ _ _) as [m'|]; cbn [mbind result_bind];
      [|done].
    intros [= <-]. simpl. lra. }
  rewrite (bundle_value_Ok _ _ Hk). cbn [mbind result_bind].
  destruct (matrix_set _ _ _ _) as [m'|]; cbn [mbind result_bind]; [|done].
  destruct (totals_add _ _ _) as [t'|]; cbn [mbind result_bind]; [|done].
  intros [= <-]. simpl. lra.
Qed.

Lemma envy_total_closed (ps : list Player) (a : Allocation) (st : envy_state) :
  valuations_cover ps a →
  _calculate_envy_matrix ps a = Ok st →
  (st.1.2 == envy_entries_sum ps a)%Q.
Proof.
  intros Hcover Hrun. unfold _calculate_envy_matrix in Hrun.
  apply (for_each_total (envy_row ps a)
           (λ player_i, py_sum (envy_entry a player_i <$> ps))) in Hrun.
  - simpl in Hrun. unfold envy_entries_sum. lra.
  - intros p [[m t] ind] s' Hp. unfold envy_row.
    rewrite (bundle_value_Ok _ _ (Hcover p p Hp Hp)). cbn [mbind result_bind].
    intros Hrow.
    apply (for_each_total _ (envy_entry a p)) in Hrow; [done|].
    intros q s1 s2 Hq. apply envy_cell_total. by apply Hcover.
Qed.

Lemma efx_envy_entry_nonneg (a : Allocation) (p q : Player) :
  (0 <= efx_envy_entry a p q)%Q.
Proof.
  unfold efx_envy_entry. case_bool_decide; [lra|].
  destruct (get_assignment a (name q)); [lra | apply max0_nonneg].
Qed.

Lemma efx_envy_entry_le (ps : list Player) (a : Allocation) (p q : Player) :
  nonnegative_valuations ps a → p ∈ ps → q ∈ ps →
  (efx_envy_entry a p q <= envy_entry a p q)%Q.
Proof.
  intros Hpos Hp Hq. unfold efx_envy_entry, envy_entry.
  case_bool_decide; [lra|].
  assert (∀ g, g ∈ get_assignment a (name q) → (0 <= value_of p g)%Q) as Hposj.
  { intros g Hg. by apply (Hpos p q g). }
  destruct (get_assignment a (name q)) as [|g0 gs] eqn:Hbj;
    [apply max0_nonneg|].
  destruct (least_valued_spec p (g0 :: gs)) as (item & Hleast & Hin & Hmin);
    [done|].
  rewrite Hleast. cbn [fmap option_fmap option_map fst without_item].
  apply max0_mono.
  pose proof (total_value_without_le p item (g0 :: gs) Hposj). lra.
Qed.

(** X11. The totals returned with the two matrices are the sums of the matrix
    entries; the total EFX-envy is nonnegative, and with nonnegative
    valuations it does not exceed the total envy. *)
Theorem efx_total_within_envy_total (ps : list Player) (a : Allocation) :
  NoDup (name <$> ps) →
  valuations_cover ps a →
  ∃ envy efx : envy_state,
    _calculate_envy_matrix ps a = Ok envy ∧
    _calculate_efx_envy_matrix ps a = Ok efx ∧
    (envy.1.2 == envy_entries_sum ps a)%Q ∧
    (efx.1.2 == efx_entries_sum ps a)%Q ∧
    (0 <= efx.1.2)%Q ∧
    (nonnegative_valuations ps a → (efx.1.2 <= envy.1.2)%Q).
Proof.
  intros Hnd Hcover.
  destruct (envy_matrices_entries ps a Hnd Hcover)
    as (envy & efx & Henvy & Hefx & _).
  exists envy, efx. split; [done|]. split; [done|].
  pose proof (envy_total_closed ps a envy Hcover Henvy) as Hsum_envy.
  pose proof (efx_total_closed ps a Hnd Hcover) as Hsum_efx.
  unfold efx_total, total_efx_envy_of in Hsum_efx. rewrite Hefx in Hsum_efx.
  cbn [mbind result_bind] in Hsum_efx.
  split; [done|]. split; [done|]. split.
  - rewrite Hsum_efx. unfold efx_entries_sum. apply py_sum_nonneg.
    intros x (p & -> & Hp)%list_elem_of_fmap. apply py_sum_nonneg.
    intros y (q & -> & Hq)%list_elem_of_fmap. apply efx_envy_entry_nonneg.
  - intros Hpos. rewrite Hsum_efx, Hsum_envy.
    unfold efx_entries_sum, envy_entries_sum.
    apply py_sum_le. intros p Hp. apply py_sum_le. intros q Hq.
    by apply (efx_envy_entry_le ps).
Qed.

Lemma efx_total_within_envy_total_witness :
  ∃ envy efx : envy_state,
    _calculate_envy_matrix scenario_players unbalanced_allocation = Ok envy ∧
    _calculate_efx_envy_matrix scenario_players unbalanced_allocation = Ok efx ∧
    (efx.1.2 <= envy.1.2)%Q.
Proof.
  destruct (efx_total_within_envy_total scenario_players
              unbalanced_allocation)
    as (envy & efx & H1 & H2 & _ & _ & _ & Hle).
  - apply (bool_decide_unpack (NoDup (name <$> scenario_players))).
    vm_compute. exact I.
  - intros p q Hp Hq g Hg. unfold scenario_players in Hp, Hq.
    elem_cases Hp; elem_cases Hq; vm_compute in Hg; elem_cases Hg;
      eexists; vm_compute; reflexivity.
  - exists envy, efx. split; [done|]. split; [done|]. apply Hle.
    intros p q g Hp Hq Hg. unfold scenario_players in Hp, Hq.
    elem_cases Hp; elem_cases Hq; vm_compute in Hg; elem_cases Hg;
      vm_compute; discriminate.
Defined.

(** ** Zero total EFX-envy and the EFX check *)

Lemma efx_entries_sum_zero (ps : list Player) (a : Allocation) (p q : Player) :
  (efx_entries_sum ps a == 0)%Q → p ∈ ps → q ∈ ps →
  (efx_envy_entry a p q == 0)%Q.
Proof.
  intros Hzero Hp Hq. unfold efx_entries_sum in Hzero.
  assert (∀ r x, x ∈ efx_envy_entry a r <$> ps → (0 <= x)%Q) as Hcells.
  { intros r x (y & -> & _)%list_elem_of_fmap. apply efx_envy_entry_nonneg. }
  assert (py_sum (efx_envy_entry a p <$> ps) == 0)%Q as Hrow.
  { apply (py_sum_zero
             ((λ player_i, py_sum (efx_envy_entry a player_i <$> ps)) <$> ps));
      [|done|].
    - intros x (r & -> & _)%list_elem_of_fmap. apply py_sum_nonneg, Hcells.
    - by apply (list_elem_of_fmap_2
                  (λ player_i, py_sum (efx_envy_entry a player_i <$> ps))). }
  apply (py_sum_zero (efx_envy_entry a p <$> ps)); [apply Hcells|done|].
  by apply list_elem_of_fmap_2.
Qed.

Lemma zero_efx_check (ps : list Player) (a : Allocation) :
  NoDup (name <$> ps) →
  valuations_cover ps a →
  utilities_consistent ps a →
  (∃ t, total_efx_envy_of ps a = Ok t ∧ (t == 0)%Q) →
  check_EFX (mkChecker ps) a = Ok true.
Proof.
  intros Hnd Hcover Hcons (t & Ht & Hzero).
  rewrite total_efx_envy_of_Ok in Ht by done. injection Ht as <-.
  rewrite (efx_total_closed ps a Hnd Hcover) in Hzero.
  destruct (check_EFX_characterisation ps a Hcover Hcons) as (b & -> & Hb).
  destruct b; [done|]. exfalso.
  destruct (proj1 Hb eq_refl) as (i & j & p & q & Hij & Hi & Hj & Hne & Hall).
  assert (p ∈ ps) as Hp by by eapply list_elem_of_lookup_2.
  assert (q ∈ ps) as Hq by by eapply list_elem_of_lookup_2.
  assert (name p ≠ name q) as Hname.
  { intros Heq. apply Hij. apply (NoDup_lookup (name <$> ps) i j (name p));
      [done| |]; rewrite list_lookup_fmap; [by rewrite Hi | by rewrite Hj, Heq]. }
  pose proof (efx_entries_sum_zero ps a p q Hzero Hp Hq) as Hentry.
  unfold efx_envy_entry in Hentry.
  rewrite bool_decide_eq_false_2 in Hentry by done.
  destruct (get_assignment a (name q)) as [|g0 gs] eqn:Hbj; [done|].
  destruct (least_valued_spec p (g0 :: gs)) as (item & Hleast & Hin & _);
    [done|].
  rewrite Hleast in Hentry.
  cbn [fmap option_fmap option_map fst without_item] in Hentry.
  specialize (Hall item Hin).
  destruct (Qlt_le_dec 0 (total_value p (without item (g0 :: gs))
                          - total_value p (get_assignment a (name p))))
    as [Hpos|Hnonpos].
  - rewrite (max0_pos _ Hpos) in Hentry. lra.
  - lra.
Qed.

(** X12. An allocation whose total EFX-envy is zero passes [check_EFX], when
    the cached utilities are the bundle values. *)
Theorem zero_efx_envy_passes_check (ps : list Player) (a : Allocation) :
  NoDup (name <$> ps) →
  valuations_cover ps a →
  utilities_consistent ps a →
  (∃ t, total_efx_envy_of ps a = Ok t ∧ (t == 0)%Q) →
  check_EFX (mkChecker ps) a = Ok true.
Proof. apply zero_efx_check. Qed.

Lemma zero_efx_envy_passes_check_witness :
  check_EFX (mkChecker scenario_players) test_case_1_allocation = Ok true.
Proof.
  apply zero_efx_envy_passes_check.
  - apply (bool_decide_unpack (NoDup (name <$> scenario_players))).
    vm_compute. exact I.
  - intros p q Hp Hq g Hg. unfold scenario_players in Hp, Hq.
    elem_cases Hp; elem_cases Hq; vm_compute in Hg; elem_cases Hg;
      eexists; vm_compute; reflexivity.
  - intros p Hp. unfold scenario_players in Hp.
    elem_cases Hp; vm_compute; reflexivity.
  - eexists. split; [vm_compute; reflexivity|]. reflexivity.
Defined.

(** ** Phase 2: what the cut returns *)

(** X8. The split division returns nothing for fewer than two goods, and
    otherwise two non-empty bundles that together hold the goods. *)
Theorem split_division_partitions (p : Player) (goods : list string) :
  knows_goods p goods →
  ((length goods < 2)%nat →
     _create_efx_bundles_split_division p goods = Ok None) ∧
  ((2 ≤ length goods)%nat →
     ∃ bundle1 bundle2,
       _create_efx_bundles_split_division p goods
       = Ok (Some (bundle1, bundle2)) ∧
       (bundle1 ++ bundle2 ≡ₚ goods)%list ∧
       bundle1 ≠ [] ∧ bundle2 ≠ []).
Proof.
  intros Hk. split.
  - intros Hlen. unfold _create_efx_bundles_split_division.
    by rewrite bool_decide_eq_true_2.
  - intros Hlen. by apply split_division_Some.
Qed.

Lemma split_division_partitions_witness :
  ∃ bundle1 bundle2,
    _create_efx_bundles_split_division
      (Player_init "P1" {[ "A" := 5%Q; "B" := 3%Q; "C" := 1%Q; "D" := 2%Q ]})
      ["A"; "B"; "C"; "D"]
    = Ok (Some (bundle1, bundle2)) ∧ bundle1 ≠ [] ∧ bundle2 ≠ [].
Proof.
  destruct (split_division_partitions
              (Player_init "P1"
                 {[ "A" := 5%Q; "B" := 3%Q; "C" := 1%Q; "D" := 2%Q ]})
              ["A"; "B"; "C"; "D"]) as [_ Hsplit].
  - intros g Hg. elem_cases Hg; eexists; vm_compute; reflexivity.
  - destruct Hsplit as (bundle1 & bundle2 & H & _ & H1 & H2);
      [simpl; lia|].
    by exists bundle1, bundle2.
Defined.

Lemma division_is_efx_sym (p : Player) (bundle_a bundle_b : list string) :
  division_is_efx p bundle_a bundle_b → division_is_efx p bundle_b bundle_a.
Proof. intros (? & ? & ? & ?). done. Qed.





(** X5. The allocation tested by a Phase 2 step keeps the goods of the
    instance and the bundles of the other players, caches the bundle
    values as utilities, and leaves the envier without EFX-envy towards
    the envied player and the envied player without envy towards the
    envier. *)
Theorem cut_and_choose_resolves_pair (ps : list Player) (gs : list string)
    (current test : Allocation) (envier envied : Player) :
  NoDup (name <$> ps) →
  (∀ p, p ∈ ps → knows_goods p gs) →
  goods_of ps current ≡ₚ gs →
  envier ∈ ps → envied ∈ ps → name envier ≠ name envied →
  cut_and_choose ps current (name envier) (name envied) = Ok (Some test) →
  goods_of ps test ≡ₚ gs ∧
  utilities_consistent ps test ∧
  (∀ p, p ∈ ps → p ≠ envier → p ≠ envied →
     get_assignment test (name p) = get_assignment current (name p)) ∧
  (efx_envy_entry test envier envied == 0)%Q ∧
  (envy_entry test envied envier == 0)%Q.
Proof.
  intros Hnd Hk Hgoods He Hd Hne Hcut.
  destruct (cut_and_choose_bundles ps gs current (name envier) (name envied))
    as (candidate & Hcut' & Hcand); try done; try by apply list_elem_of_fmap_2.
  rewrite Hcut in Hcut'. injection Hcut' as <-.
  destruct (Hcand test eq_refl)
    as (Htest & Hcons & Hothers & pe & pd & Hpe & Hpd & Hnpe & Hnpd & _
        & Hchosen & Hefx & Hpref).
  assert (pe = envier) as -> by by apply (NoDup_names_inj ps).
  assert (pd = envied) as -> by by apply (NoDup_names_inj ps).
  split; [done|]. split; [done|]. split; [|split].
  - intros p Hp Hp1 Hp2. apply Hothers; [by apply list_elem_of_fmap_2| |].
    + intros Heq. apply Hp1. by apply (NoDup_names_inj ps).
    + intros Heq. apply Hp2. by apply (NoDup_names_inj ps).
  - unfold efx_envy_entry. rewrite bool_decide_eq_false_2 by done.
    destruct (get_assignment test (name envied)) as [|g0 rest] eqn:Hbundle;
      [done|].
    destruct (least_valued_spec envier (g0 :: rest)) as (item & -> & Hin & _);
      [done|].
    cbn [fmap option_fmap option_map fst without_item].
    rewrite max0_nonpos; [reflexivity|]. specialize (Hefx item Hin). lra.
  - unfold envy_entry.
    rewrite bool_decide_eq_false_2 by (intros Heq; by apply Hne).
    rewrite max0_nonpos; [reflexivity|]. lra.
Qed.

Lemma cut_and_choose_resolves_pair_witness :
  ∃ test,
    cut_and_choose scenario_players unbalanced_allocation "P4" "P1"
    = Ok (Some test) ∧
    goods_of scenario_players test ≡ₚ ["A"; "D"; "B"; "C"].
Proof.
  eexists. split; [vm_compute; reflexivity|].
  refine (proj1 (cut_and_choose_resolves_pair scenario_players
            ["A"; "D"; "B"; "C"] unbalanced_allocation _
            (Player_init "P4"
               {[ "A" := 3%Q; "B" := 1%Q; "C" := 2%Q; "D" := 5%Q ]})
            (Player_init "P1"
               {[ "A" := 5%Q; "B" := 3%Q; "C" := 1%Q; "D" := 2%Q ]})
            _ _ _ _ _ _ _)).
  - apply (bool_decide_unpack (NoDup (name <$> scenario_players))).
    vm_compute. exact I.
  - intros p Hp g Hg. unfold scenario_players in Hp.
    elem_cases Hp; elem_cases Hg; eexists; vm_compute; reflexivity.
  - vm_compute. reflexivity.
  - unfold scenario_players. do 3 apply list_elem_of_further.
    apply list_elem_of_here.
  - unfold scenario_players. apply list_elem_of_here.
  - discriminate.
  - vm_compute. reflexivity.
Defined.

(** ** Phase 2: the queue of EFX-envy relationships *)

Lemma relationship_cell_exact (matrix : gmap string (gmap string Q))
    (pi pj : Player) (acc : list (string * string)) (e : Q) :
  matrix_entry matrix (name pi) (name pj) = Some e →
  relationship_cell matrix pi acc pj
  = Ok (acc ++ if bool_decide (name pi ≠ name pj) && Qltb 0 e
               then [(name pi, name pj)] else [])%list.
Proof.
  intros He. unfold relationship_cell. case_bool_decide as Hne.
  - unfold matrix_entry in He.
    destruct (matrix !! name pi) as [row|] eqn:Hrow; [|done].
    simpl in He. unfold dict_get. rewrite Hrow. cbn [mbind result_bind].
    rewrite He. cbn [mbind result_bind].
    destruct (Qltb 0 e); simpl; [done | by rewrite app_nil_r].
  - simpl. by rewrite app_nil_r.
Qed.

Lemma relationships_of_exact (ps : list Player)
    (matrix : gmap string (gmap string Q)) (entry : Player → Player → Q) :
  (∀ p q, p ∈ ps → q ∈ ps →
     matrix_entry matrix (name p) (name q) = Some (entry p q)) →
  relationships_of ps matrix = Ok (positive_pairs entry ps).
Proof.
  intros Hentries. unfold relationships_of, positive_pairs.
  assert (∀ pi inner acc, pi ∈ ps → (∀ q, q ∈ inner → q ∈ ps) →
            for_each (relationship_cell matrix pi) inner acc
            = Ok (acc ++ (player_j ← inner;
                          if bool_decide (name pi ≠ name player_j)
                             && Qltb 0 (entry pi player_j)
                          then [(name pi, name player_j)] else []))%list)
    as Hinner.
  { intros pi inner. induction inner as [|pj inner IH]; intros acc Hpi Hsub.
    - simpl. by rewrite app_nil_r.
    - rewrite for_each_cons.
      rewrite (relationship_cell_exact matrix pi pj acc (entry pi pj)).
      2:{ apply Hentries; [done|]. apply Hsub. left. }
      cbn [mbind result_bind]. rewrite IH; [|done|].
      2:{ intros q Hq. apply Hsub. by right. }
      by rewrite bind_cons, <- app_assoc. }
  assert (∀ outer acc, (∀ p, p ∈ outer → p ∈ ps) →
            for_each (λ acc player_i,
                        for_each (relationship_cell matrix player_i) ps acc)
              outer acc
            = Ok (acc ++ (player_i ← outer;
                          player_j ← ps;
                          if bool_decide (name player_i ≠ name player_j)
                             && Qltb 0 (entry player_i player_j)
                          then [(name player_i, name player_j)] else []))%list)
    as Houter.
  { induction outer as [|pi outer IH]; intros acc Hsub.
    - simpl. by rewrite app_nil_r.
    - rewrite for_each_cons. rewrite Hinner; [|apply Hsub; left|done].
      cbn [mbind result_bind]. rewrite IH.
      2:{ intros p Hp. apply Hsub. by right. }
      by rewrite bind_cons, <- app_assoc. }
  by rewrite Houter.
Qed.

Lemma elem_of_positive_pairs (entry : Player → Player → Q) (ps : list Player)
    (x : string * string) :
  x ∈ positive_pairs entry ps ↔
  ∃ p q, p ∈ ps ∧ q ∈ ps ∧ x = (name p, name q) ∧
         name p ≠ name q ∧ (0 < entry p q)%Q.
Proof.
  unfold positive_pairs. rewrite list_elem_of_bind. split.
  - intros (p & Hin & Hp). apply list_elem_of_bind in Hin as (q & Hin & Hq).
    destruct (bool_decide (name p ≠ name q)) eqn:Hne;
      [|by apply elem_of_nil in Hin].
    destruct (Qltb 0 (entry p q)) eqn:Hpos; [|by apply elem_of_nil in Hin].
    apply list_elem_of_singleton in Hin as ->.
    apply bool_decide_eq_true in Hne. apply Qltb_true in Hpos.
    by exists p, q.
  - intros (p & q & Hp & Hq & -> & Hne & Hpos). exists p. split; [|done].
    apply list_elem_of_bind. exists q. split; [|done].
    rewrite bool_decide_eq_true_2 by done.
    rewrite (proj2 (Qltb_true _ _) Hpos). left.
Qed.



(** X4. An allocation without EFX-envy is returned by Phase 2 as it is, after
    no step. *)
Theorem phase2_returns_efx_input (py_hash : Phase2State → Z)
    (ps : list Player) (a : Allocation) (fuel : nat) :
  NoDup (name <$> ps) →
  valuations_cover ps a →
  (∃ t, total_efx_envy_of ps a = Ok t ∧ (t == 0)%Q) →
  _phase2_stepwise_redistribution py_hash (S fuel) ps a = Some (Ok (a, 0%nat)).
Proof.
  intros Hnd Hcover (t & Ht & Hzero).
  destruct (phase2_start_spec py_hash ps a Hnd Hcover)
    as (rel & Hrel & Hwf & Hstart).
  unfold _phase2_stepwise_redistribution. rewrite Hstart.
  rewrite total_efx_envy_of_Ok in Ht by done. injection Ht as <-.
  assert (rel = []) as ->.
  { destruct rel as [|[e d] rel]; [done|]. exfalso.
    destruct (queue_wf_elem ps _ e d Hwf) as (_ & He & Hd); [left|].
    apply list_elem_of_fmap in He as (p & -> & Hp).
    apply list_elem_of_fmap in Hd as (q & -> & Hq).
    rewrite (efx_total_closed ps a Hnd Hcover) in Hzero.
    pose proof (efx_entries_sum_zero ps a p q Hzero Hp Hq) as Hentry.
    unfold _get_envy_relationships in Hrel.
    destruct (envy_matrices_entries ps a Hnd Hcover)
      as (envy & efx & _ & Hefx & Hentries).
    rewrite Hefx in Hrel. cbn [mbind result_bind] in Hrel.
    rewrite (relationships_of_exact ps _ (efx_envy_entry a)) in Hrel
      by (intros p' q' Hp' Hq'; by destruct (Hentries p' q' Hp' Hq')).
    injection Hrel as Hrel.
    assert ((name p, name q) ∈ positive_pairs (efx_envy_entry a) ps) as Hin
      by (rewrite Hrel; left).
    apply elem_of_positive_pairs in Hin
      as (p' & q' & Hp' & Hq' & [= Hn1 Hn2] & _ & Hpos).
    assert (p' = p) as -> by by apply (NoDup_names_inj ps).
    assert (q' = q) as -> by by apply (NoDup_names_inj ps). lra. }
  cbn [phase2_loop envy_relationships current_allocation step].
  rewrite total_efx_envy_of_Ok by done. cbn [mbind result_bind].
  destruct (total_envy_of_Ok ps a Hnd Hcover) as [t' ->].
  cbn [mbind result_bind].
  by rewrite (proj2 (Qeq_bool_iff _ _) Hzero).
Qed.

Lemma phase2_returns_efx_input_witness :
  _phase2_stepwise_redistribution example_hash 1 scenario_players
    test_case_1_allocation = Some (Ok (test_case_1_allocation, 0%nat)).
Proof.
  apply phase2_returns_efx_input.
  - apply (bool_decide_unpack (NoDup (name <$> scenario_players))).
    vm_compute. exact I.
  - intros p q Hp Hq g Hg. unfold scenario_players in Hp, Hq.
    elem_cases Hp; elem_cases Hq; vm_compute in Hg; elem_cases Hg;
      eexists; vm_compute; reflexivity.
  - eexists. split; [vm_compute; reflexivity|]. reflexivity.
Defined.

(** ** Phase 2: the fingerprint of a state *)

Lemma string_leb_iff (s1 s2 : string) :
  String.leb s1 s2 = true ↔ s1 = s2 ∨ OrderedTypeEx.String_as_OT.lt s1 s2.
Proof.
  unfold String.leb.
  rewrite <- OrderedTypeEx.String_as_OT.cmp_lt,
    <- OrderedTypeEx.String_as_OT.cmp_eq.
  unfold OrderedTypeEx.String_as_OT.cmp.
  destruct (String.compare s1 s2); split; auto; try done.
  by intros [|].
Qed.

Local Instance string_leb_total : Total (λ a b : string, String.leb a b).
Proof.
  intros s1 s2. destruct (String.leb_total s1 s2) as [H|H];
    [left | right]; by apply Is_true_true.
Qed.

Local Instance string_leb_trans : Transitive (λ a b : string, String.leb a b).
Proof.
  intros s1 s2 s3 H12%Is_true_true H23%Is_true_true. apply Is_true_true.
  apply string_leb_iff in H12, H23. apply string_leb_iff.
  destruct H12 as [->|H12]; [done|]. destruct H23 as [<-|H23]; [by right|].
  right. by eapply OrderedTypeEx.String_as_OT.lt_trans.
Qed.

Local Instance string_leb_antisym :
  AntiSymm (=) (λ a b : string, String.leb a b).
Proof.
  intros s1 s2 H12%Is_true_true H21%Is_true_true.
  by apply String.leb_antisym.
Qed.

Lemma sort_strings_perm (l l' : list string) :
  l ≡ₚ l' ↔ sort_strings l = sort_strings l'.
Proof.
  unfold sort_strings. split.
  - intros Hperm. apply (Sorted_unique (λ a b : string, String.leb a b));
      [apply Sorted_merge_sort; apply _ | apply Sorted_merge_sort; apply _ |].
    by rewrite !merge_sort_Permutation.
  - intros Heq.
    rewrite <- (merge_sort_Permutation (λ a b, String.leb a b) l).
    rewrite Heq. apply merge_sort_Permutation.
Qed.

Lemma involved_same (q q' : list (string * string)) :
  (∀ x, x ∈ q ↔ x ∈ q') →
  ∀ n, n ∈ (q.*1 ++ q.*2)%list ↔ n ∈ (q'.*1 ++ q'.*2)%list.
Proof.
  assert (∀ l l' : list (string * string), (∀ x, x ∈ l → x ∈ l') →
            ∀ n, n ∈ (l.*1 ++ l.*2)%list → n ∈ (l'.*1 ++ l'.*2)%list) as Hone.
  { intros l l' Hsub n [Hn|Hn]%elem_of_app;
      apply list_elem_of_fmap in Hn as (x & -> & Hx); apply elem_of_app;
      [left | right]; apply list_elem_of_fmap_2; by apply Hsub. }
  intros Hsame n. split; apply Hone; intros x; by apply Hsame.
Qed.

(** X7. Two states have the same fingerprint exactly when their queues hold
    the same pairs and every player in a pair holds the same goods, in any
    order; such states are given the same hash. *)
Theorem state_fingerprint_characterisation (py_hash : Phase2State → Z)
    (queue queue' : list (string * string)) (a a' : Allocation) :
  (phase2_state queue a = phase2_state queue' a' ↔
   (∀ x, x ∈ queue ↔ x ∈ queue') ∧
   (∀ n, n ∈ (queue.*1 ++ queue.*2)%list →
      get_assignment a n ≡ₚ get_assignment a' n)) ∧
  (phase2_state queue a = phase2_state queue' a' →
   _create_phase2_state_hash py_hash queue a
   = _create_phase2_state_hash py_hash queue' a').
Proof.
  split; [|intros Heq; unfold _create_phase2_state_hash; by rewrite Heq].
  split.
  - intros Heq. split; [|by apply (phase2_state_bundles _ _ _ _ Heq)].
    apply (f_equal fst) in Heq. unfold phase2_state in Heq.
    cbv beta iota delta [fst] in Heq. intros x.
    rewrite <- !(elem_of_list_to_set (C := gset (string * string))).
    by rewrite Heq.
  - intros [Hsame Hbundles]. unfold phase2_state.
    assert ((list_to_set queue : gset (string * string)) = list_to_set queue')
      as ->.
    { apply set_eq. intros x. rewrite !elem_of_list_to_set. apply Hsame. }
    assert ((list_to_set (queue.*1 ++ queue.*2)%list : gset string)
            = list_to_set (queue'.*1 ++ queue'.*2)%list) as Hinvolved.
    { apply set_eq. intros n. rewrite !elem_of_list_to_set.
      by apply involved_same. }
    rewrite <- Hinvolved. f_equal. apply list_fmap_ext. intros i n Hn.
    f_equal. apply sort_strings_perm. apply Hbundles.
    apply elem_of_involved. by eapply list_elem_of_lookup_2.
Qed.

(** ** player.py: valuations after normalisation *)

Lemma dict_truthy_fmap {V W} (h : V → W) (d : gmap string V) :
  dict_truthy (h <$> d) = dict_truthy d.
Proof.
  unfold dict_truthy. f_equal. apply bool_decide_ext.
  rewrite !map_to_list_empty_iff. apply fmap_empty_iff.
Qed.

Lemma dict_truthy_lookup {V} (d : gmap string V) (k : string) (v : V) :
  d !! k = Some v → dict_truthy d = true.
Proof.
  intros Hk. unfold dict_truthy. rewrite bool_decide_eq_false_2; [done|].
  rewrite map_to_list_empty_iff. intros ->. by rewrite lookup_empty in Hk.
Qed.



(** ** allocation_manager.py: cached utilities *)

Lemma bundle_value_raises (p : Player) (bundle : list string) (g : string) :
  g ∈ bundle → ¬ is_Ok (get_valuation p g) → ¬ is_Ok (bundle_value p bundle).
Proof.
  unfold bundle_value. generalize 0%Q.
  induction bundle as [|x bundle IH]; intros acc Hg Hbad [v Hv];
    [by apply elem_of_nil in Hg|].
  simpl in Hv. destruct (get_valuation p x) as [w|e] eqn:Hx;
    cbn [mbind result_bind] in Hv; [|done].
  apply elem_of_cons in Hg as [->|Hg].
  - apply Hbad. by exists w.
  - apply (IH (acc + w)%Q Hg Hbad). by exists v.
Qed.

(** X14. [calculate_utilities] caches for every player the value of the
    player's bundle, leaves the assignments and the utilities of other
    names alone, and raises when a bundle holds a good its player has no
    valuation for. *)
Theorem calculate_utilities_caches_bundle_values (ps : list Player)
    (a : Allocation) :
  NoDup (name <$> ps) →
  ((∀ p, p ∈ ps → knows_goods p (get_assignment a (name p))) →
   ∃ a', calculate_utilities ps a = Ok a' ∧
         assignments a' = assignments a ∧
         utilities_consistent ps a' ∧
         (∀ n, n ∉ name <$> ps → utilities a' !! n = utilities a !! n)) ∧
  (∀ p g, p ∈ ps → g ∈ get_assignment a (name p) →
          ¬ is_Ok (get_valuation p g) →
          ¬ is_Ok (calculate_utilities ps a)).
Proof.
  intros Hnd. split.
  - intros Hk.
    destruct (calculate_utilities_consistent ps a Hnd Hk)
      as (a' & Hrun & Hassign & Hutil & Hrest).
    exists a'. split; [done|]. split; [done|]. split; [|done].
    intros p Hp. rewrite (Hutil p Hp). unfold get_assignment.
    rewrite Hassign. reflexivity.
  - clear Hnd. intros p g Hp Hg Hbad. unfold calculate_utilities.
    assert (∀ l a0, p ∈ l → assignments a0 = assignments a →
              ¬ is_Ok (for_each (λ a player,
                          u ← bundle_value player
                                (get_assignment a (name player));
                          Ok (set_utility a (name player) u)) l a0)) as Hgen.
    { induction l as [|q l IH]; intros a0 Hin Ha0 [r Hr];
        [by apply elem_of_nil in Hin|].
      rewrite for_each_cons in Hr.
      destruct (bundle_value q (get_assignment a0 (name q))) as [u|e] eqn:Hq;
        cbn [mbind result_bind] in Hr; [|done].
      apply elem_of_cons in Hin as [->|Hin].
      - apply (bundle_value_raises q (get_assignment a0 (name q)) g).
        + unfold get_assignment in *. by rewrite Ha0.
        + done.
        + by exists u.
      - apply (IH (set_utility a0 (name q) u) Hin); [done | by exists r]. }
    by apply Hgen.
Qed.

Lemma calculate_utilities_caches_bundle_values_witness :
  ∃ a', calculate_utilities scenario_players unbalanced_allocation = Ok a' ∧
        utilities_consistent scenario_players a'.
Proof.
  destruct (calculate_utilities_caches_bundle_values scenario_players
              unbalanced_allocation) as [Hgood _].
  - apply (bool_decide_unpack (NoDup (name <$> scenario_players))).
    vm_compute. exact I.
  - destruct Hgood as (a' & Hrun & _ & Hcons & _).
    + intros p Hp g Hg. unfold scenario_players in Hp.
      elem_cases Hp; vm_compute in Hg; elem_cases Hg;
        eexists; vm_compute; reflexivity.
    + by exists a'.
Defined.

(** ** allocation_finder.py: from dictionaries to allocations *)

Lemma dict_to_allocation_assignments (d : gmap string (list string)) :
  assignments
    (map_fold (λ player_name goods allocation,
                 set_assignment allocation player_name goods)
       Allocation_init d) = d ∧
  utilities
    (map_fold (λ player_name goods allocation,
                 set_assignment allocation player_name goods)
       Allocation_init d) = ∅.
Proof.
  induction d as [|k v m Hk Hfirst IH] using map_first_key_ind.
  - by rewrite map_fold_empty.
  - rewrite map_fold_insert_first_key by done. simpl.
    destruct IH as [-> ->]. done.
Qed.

Lemma dict_to_allocation_spec (ps : list Player)
    (allocation_dict : gmap string (list string)) :
  NoDup (name <$> ps) →
  (∀ p q, p ∈ ps → q ∈ ps → knows_goods p (bundle_of allocation_dict q)) →
  ∃ a, _dict_to_allocation ps allocation_dict = Ok a ∧
       assignments a = allocation_dict ∧
       utilities_consistent ps a ∧
       (∀ n, n ∉ name <$> ps → utilities a !! n = None) ∧
       ∃ b, check_EFX (mkChecker ps) a = Ok b ∧
            (b = false ↔ EFX_violation ps a).
Proof.
  intros Hnd Hk. unfold _dict_to_allocation.
  destruct (dict_to_allocation_assignments allocation_dict) as [Hassign Hutil].
  set (built := map_fold _ _ _) in *.
  assert (∀ n, get_assignment built n = default [] (allocation_dict !! n))
    as Hbundle.
  { intros n. unfold get_assignment. by rewrite Hassign. }
  destruct (calculate_utilities_consistent ps built Hnd)
    as (a & Hrun & Ha & Hcached & Hrest).
  { intros p Hp. rewrite Hbundle. by apply (Hk p p). }
  exists a. split; [done|]. split; [by rewrite Ha|].
  assert (∀ n, get_assignment a n = default [] (allocation_dict !! n))
    as Hbundle'.
  { intros n. unfold get_assignment. by rewrite Ha, Hassign. }
  assert (utilities_consistent ps a) as Hcons.
  { intros p Hp. rewrite (Hcached p Hp), Hbundle, Hbundle'. reflexivity. }
  split; [done|]. split.
  { intros n Hn. rewrite (Hrest n Hn), Hutil. apply lookup_empty. }
  apply check_EFX_characterisation; [|done].
  intros p q Hp Hq. rewrite Hbundle'. by apply Hk.
Qed.



(** ** Phase 1A followed by the goods that remain *)

Lemma elem_of_dict_values_concat (d : gmap string (list string)) (g : string) :
  g ∈ concat (dict_values d) ↔ ∃ n bundle, d !! n = Some bundle ∧ g ∈ bundle.
Proof.
  rewrite elem_of_concat. unfold dict_values. split.
  - intros (bundle & Hg & Hin).
    apply list_elem_of_fmap in Hin as ([n b] & -> & Hin).
    apply elem_of_map_to_list in Hin. by exists n, b.
  - intros (n & bundle & Hn & Hg). exists bundle. split; [done|].
    apply (list_elem_of_fmap_2 snd _ (n, bundle)).
    by apply elem_of_map_to_list.
Qed.

Lemma remaining_and_assigned (gs assigned : list string) :
  NoDup gs → NoDup assigned → (∀ g, g ∈ assigned → g ∈ gs) →
  (filter (λ g, g ∉ assigned) gs ++ assigned ≡ₚ gs)%list.
Proof.
  intros Hgs Ha Hsub. apply NoDup_Permutation; [|done|].
  - apply NoDup_app. split; [by apply NoDup_filter|]. split; [|done].
    intros g Hg. by apply list_elem_of_filter in Hg as [? _].
  - intros g. rewrite elem_of_app, list_elem_of_filter. split.
    + intros [[_ ?]|?]; [done | by apply Hsub].
    + intros Hg. destruct (decide (g ∈ assigned)); [by right | by left].
Qed.

Lemma initial_allocation_keys (ps : list Player) (n : string) :
  n ∉ name <$> ps →
  foldl (λ d player, <[name player := []]> d)
    (∅ : gmap string (list string)) ps !! n = None.
Proof.
  assert (∀ d : gmap string (list string), n ∉ name <$> ps →
            foldl (λ d player, <[name player := []]> d) d ps !! n = d !! n)
    as Hgen.
  { induction ps as [|q ps IH] using rev_ind; intros d Hn; [done|].
    rewrite foldl_snoc. rewrite fmap_app in Hn.
    rewrite lookup_insert_ne.
    - apply IH. intros Hin. apply Hn. apply elem_of_app. by left.
    - intros Heq. apply Hn. apply elem_of_app. right. rewrite <- Heq. left. }
  intros Hn. by rewrite Hgen.
Qed.

Lemma round_robin_rest (cfg : Config) (ps : list Player)
    (gs : list string) :
  NoDup (name <$> ps) →
  NoDup gs →
  (∀ p, p ∈ ps → knows_goods p gs) →
  (1 <= top_options_to_consider cfg)%Z →
  ∃ allocation,
    _initial_round_robin_with_consideration cfg ps gs = Ok allocation ∧
    let remaining := _get_remaining_goods gs allocation in
    (remaining ++ assigned_goods allocation ps ≡ₚ gs)%list ∧
    NoDup remaining ∧
    (∀ g, g ∈ remaining → g ∉ assigned_goods allocation ps) ∧
    length remaining = (length gs - length ps)%nat.
Proof.
  intros Hnames Hnd Hk Htop.
  unfold _initial_round_robin_with_consideration.
  set (ordered := sort_desc get_std_deviation ps).
  assert (ordered ≡ₚ ps) as Hperm by apply sort_desc_perm.
  destruct (round_robin_turns_spec cfg ordered
              (foldl (λ d player, <[name player := []]> d) ∅ ps) gs)
    as (allocation & chosen & Hrun & Hlen & Hndc & Hsub & Hkeys & Hbundles);
    try done.
  { by rewrite Hperm. }
  { intros p Hp. apply Hk. by rewrite <- Hperm. }
  { intros p Hp. apply initial_allocation_empty. by rewrite <- Hperm. }
  exists allocation. split; [done|].
  assert (assigned_goods allocation ps ≡ₚ chosen) as Hassigned.
  { unfold assigned_goods. rewrite <- (concat_fmap_perm _ _ _ Hperm).
    rewrite (concat_option_list _ ordered chosen); [done | lia |].
    intros i p Hp. unfold bundle_of. by rewrite (Hbundles i p Hp). }
  assert (∀ g, g ∈ concat (dict_values allocation)
               ↔ g ∈ assigned_goods allocation ps) as Hsame.
  { intros g. rewrite elem_of_dict_values_concat. unfold assigned_goods.
    rewrite elem_of_concat. split.
    - intros (n & bundle & Hn & Hg).
      destruct (decide (n ∈ name <$> ps)) as [Hin|Hout].
      + apply list_elem_of_fmap in Hin as (p & -> & Hp).
        exists bundle. split; [done|].
        apply list_elem_of_fmap. exists p. split; [|done].
        unfold bundle_of. by rewrite Hn.
      + rewrite Hkeys in Hn by (by rewrite Hperm).
        by rewrite initial_allocation_keys in Hn.
    - intros (bundle & Hg & Hin).
      apply list_elem_of_fmap in Hin as (p & -> & Hp).
      unfold bundle_of in Hg.
      destruct (allocation !! name p) as [b|] eqn:Hb;
        [|by apply elem_of_nil in Hg].
      by exists (name p), b. }
  assert (_get_remaining_goods gs allocation
          = filter (λ g, g ∉ assigned_goods allocation ps) gs) as ->.
  { unfold _get_remaining_goods. apply list_filter_iff. intros g.
    by rewrite Hsame. }
  assert (NoDup (assigned_goods allocation ps)) as Hnda by by rewrite Hassigned.
  assert (∀ g, g ∈ assigned_goods allocation ps → g ∈ gs) as Hsuba.
  { intros g Hg. apply Hsub. by rewrite <- Hassigned. }
  pose proof (remaining_and_assigned gs _ Hnd Hnda Hsuba) as Hpart.
  split; [done|]. split; [by apply NoDup_filter|]. split.
  - intros g Hg. by apply list_elem_of_filter in Hg as [? _].
  - pose proof (Permutation_length Hpart) as Hl. rewrite length_app in Hl.
    rewrite (Permutation_length Hassigned), Hlen in Hl.
    rewrite (Permutation_length Hperm) in Hl. lia.
Qed.

(** X16. After the round robin every good is either in exactly one bundle or
    among the remaining goods, never both: the remaining goods followed by
    the assigned ones are a rearrangement of the goods, and as many goods
    remain as exceed the number of players. *)
Theorem round_robin_leaves_the_rest (cfg : Config) (ps : list Player)
    (gs : list string) :
  NoDup (name <$> ps) →
  NoDup gs →
  (∀ p, p ∈ ps → knows_goods p gs) →
  (1 <= top_options_to_consider cfg)%Z →
  ∃ allocation,
    _initial_round_robin_with_consideration cfg ps gs = Ok allocation ∧
    let remaining := _get_remaining_goods gs allocation in
    (remaining ++ assigned_goods allocation ps ≡ₚ gs)%list ∧
    NoDup remaining ∧
    (∀ g, g ∈ remaining → g ∉ assigned_goods allocation ps) ∧
    length remaining = (length gs - length ps)%nat.
Proof. apply round_robin_rest. Qed.

Lemma round_robin_leaves_the_rest_witness :
  ∃ allocation,
    _initial_round_robin_with_consideration default_config leftover_players
      ["A"; "B"; "C"; "D"; "E"] = Ok allocation ∧
    length (_get_remaining_goods ["A"; "B"; "C"; "D"; "E"] allocation)
    = 1%nat.
Proof.
  destruct (round_robin_leaves_the_rest default_config leftover_players
              ["A"; "B"; "C"; "D"; "E"])
    as (allocation & Hrun & _ & _ & _ & Hlen).
  - apply (bool_decide_unpack (NoDup (name <$> leftover_players))).
    vm_compute. exact I.
  - apply (bool_decide_unpack (NoDup ["A"; "B"; "C"; "D"; "E"])).
    vm_compute. exact I.
  - intros p Hp g Hg. unfold leftover_players in Hp.
    elem_cases Hp; elem_cases Hg; eexists; vm_compute; reflexivity.
  - vm_compute. discriminate.
  - by exists allocation.
Defined.

(** ** Phase 1B: the edges of the champion graph *)

Lemma champion_step_unfold (allocation : gmap string (list string))
    (target_name : string) (target_bundle : list string)
    (champion : option Player) (best_gain : Q) (best_utility : option Q)
    (pc : Player) :
  champion_step allocation target_name target_bundle
    (champion, best_gain, best_utility) pc
  = if bool_decide (name pc = target_name)
    then Ok (champion, best_gain, best_utility)
    else
      current_bundle ← dict_get allocation (name pc);
      current_value ← bundle_value pc current_bundle;
      target_value ← bundle_value pc target_bundle;
      if Qltb best_gain (target_value - current_value)
         || (Qeq_bool (target_value - current_value) best_gain
             && below current_value best_utility)
      then Ok (Some pc, (target_value - current_value)%Q, Some current_value)
      else Ok (champion, best_gain, best_utility).
Proof. reflexivity. Qed.

Lemma champion_loop_spec (ps : list Player) (good : string)
    (allocation : gmap string (list string)) (target : Player)
    (bundle : list string) :
  allocation_ready ps good allocation → target ∈ ps →
  allocation !! name target = Some bundle →
  let gain := λ q, champion_gain allocation good q target in
  ∀ l, (∀ q, q ∈ l → q ∈ ps) →
  ∀ st : option Player * Q * option Q,
    (match st.1.1 with
     | Some c => st.1.2 = gain c
     | None => st.1.2 = (-1)%Q ∧ st.2 = None
     end) →
    ∃ st', for_each (champion_step allocation (name target)
                       (bundle ++ [good])%list) l st = Ok st' ∧
      match st'.1.1 with
      | Some c =>
          st'.1.2 = gain c ∧
          (c ∈ l ∧ name c ≠ name target ∨ st.1.1 = Some c) ∧
          (st'.1.2 < st.1.2 → False)%Q ∧
          ∀ q, q ∈ l → name q ≠ name target → (gain q <= gain c)%Q
      | None =>
          st.1.1 = None ∧
          ∀ q, q ∈ l → name q ≠ name target → (gain q < -1)%Q
      end.
Proof.
  intros Hready Ht Hb gain.
  induction l as [|q l IH]; intros Hsub st Hst.
  { exists st. split; [done|]. destruct st as [[[c|] g] u]; simpl in *.
    - split; [done|]. split; [by right|]. split; [lra|].
      intros q Hq. by apply elem_of_nil in Hq.
    - split; [done|]. intros q Hq. by apply elem_of_nil in Hq. }
  rewrite for_each_cons.
  assert (q ∈ ps) as Hq by (apply Hsub; left).
  assert (∀ r, r ∈ l → r ∈ ps) as Hsub' by (intros r Hr; apply Hsub; by right).
  destruct st as [[champion best_gain] best_utility]. simpl in Hst.
  rewrite champion_step_unfold.
  destruct (decide (name q = name target)) as [Heq|Hne].
  { rewrite bool_decide_eq_true_2 by done. cbn [mbind result_bind].
    destruct (IH Hsub' (champion, best_gain, best_utility) Hst)
      as (st' & -> & Hst').
    exists st'. split; [done|]. simpl in *.
    destruct st'.1.1 as [c|].
    - destruct Hst' as (Hg & Hc & Hmono & Hmax). split; [done|].
      split; [|split; [done|]].
      + destruct Hc as [[Hc1 Hc2]|Hc]; [left | by right].
        split; [by right | done].
      + intros r [->|Hr]%elem_of_cons Hr'; [done | by apply Hmax].
    - destruct Hst' as [Hc Hmax]. split; [done|].
      intros r [->|Hr]%elem_of_cons Hr'; [done | by apply Hmax]. }
  rewrite bool_decide_eq_false_2 by done.
  destruct (proj1 Hready q Hq) as [own Hown].
  unfold dict_get. rewrite Hown. cbn [mbind result_bind].
  assert (bundle_of allocation q = own) as Hbq
    by (unfold bundle_of; by rewrite Hown).
  assert (bundle_of allocation target = bundle) as Hbt
    by (unfold bundle_of; by rewrite Hb).
  rewrite (bundle_value_Ok q own).
  2:{ rewrite <- Hbq. by apply (allocation_ready_own ps good). }
  cbn [mbind result_bind].
  rewrite (bundle_value_Ok q (bundle ++ [good])%list).
  2:{ rewrite <- Hbt. by apply (proj2 Hready q target). }
  cbn [mbind result_bind].
  assert (total_value q (bundle ++ [good])%list - total_value q own
          = gain q)%Q as Hgain
    by (unfold gain, champion_gain; by rewrite Hbq, Hbt).
  rewrite Hgain.
  destruct (Qltb best_gain (gain q)
            || Qeq_bool (gain q) best_gain
               && below (total_value q own) best_utility) eqn:Hupd;
    cbn [mbind result_bind].
  - destruct (IH Hsub' (Some q, gain q, Some (total_value q own)) eq_refl)
      as (st' & -> & Hst').
    exists st'. split; [done|]. simpl in *.
    assert (best_gain <= gain q)%Q as Hle.
    { apply orb_true_iff in Hupd as [Hlt|Heq].
      - apply Qltb_true in Hlt. lra.
      - apply andb_true_iff in Heq as [Heq _]. apply Qeq_bool_iff in Heq.
        lra. }
    destruct st'.1.1 as [c|]; [|by destruct Hst'].
    destruct Hst' as (Hg & Hc & Hmono & Hmax). split; [done|].
    split; [|split].
    + left. destruct Hc as [[Hc1 Hc2]|[= <-]]; [|split; [left|done]].
      split; [by right | done].
    + intros Hlt. apply Hmono. lra.
    + intros r [->|Hr]%elem_of_cons Hr'; [|by apply Hmax].
      rewrite <- Hg.
      destruct (Qlt_le_dec st'.1.2 (gain q)) as [Hlt|]; [|done].
      by destruct Hmono.
  - apply orb_false_iff in Hupd as [Hlt Heq]. apply Qltb_false in Hlt.
    destruct (IH Hsub' (champion, best_gain, best_utility) Hst)
      as (st' & -> & Hst').
    exists st'. split; [done|]. simpl in *.
    destruct st'.1.1 as [c|].
    + destruct Hst' as (Hg & Hc & Hmono & Hmax). split; [done|].
      split; [|split; [done|]].
      * destruct Hc as [[Hc1 Hc2]|Hc]; [left | by right].
        split; [by right | done].
      * intros r [->|Hr]%elem_of_cons Hr'; [|by apply Hmax].
        rewrite <- Hg.
        destruct (Qlt_le_dec st'.1.2 (gain q)) as [Hbad|]; [|done].
        destruct Hmono. lra.
    + destruct Hst' as [-> Hmax]. split; [done|].
      destruct Hst as [-> ->]. simpl in Heq.
      rewrite andb_true_r in Heq.
      intros r [->|Hr]%elem_of_cons Hr'; [|by apply Hmax].
      destruct (Qlt_le_dec (gain q) (-1)) as [|Hge]; [done|].
      assert (gain q == -1)%Q as Heq' by lra.
      apply Qeq_bool_iff in Heq'. congruence.
Qed.

Lemma alist_insert_fresh (k v : string) (d : list (string * string)) :
  k ∉ d.*1 → alist_insert k v d = (d ++ [(k, v)])%list.
Proof.
  induction d as [|[k' v'] d IH]; intros Hk; [done|].
  rewrite fmap_cons in Hk. apply not_elem_of_cons in Hk as [Hne Hk].
  simpl. rewrite bool_decide_eq_false_2 by (intros ->; by apply Hne).
  by rewrite IH.
Qed.

Lemma champion_target_spec (ps : list Player) (good : string)
    (allocation : gmap string (list string))
    (graph : list (string * string)) (target : Player) :
  allocation_ready ps good allocation → target ∈ ps →
  name target ∉ graph.*1 →
  let gain := λ q, champion_gain allocation good q target in
  let wanted := ∃ q, q ∈ ps ∧ name q ≠ name target ∧ (0 < gain q)%Q in
  (wanted ∧
   ∃ c, c ∈ ps ∧ name c ≠ name target ∧ (0 < gain c)%Q ∧
        (∀ q, q ∈ ps → name q ≠ name target → (gain q <= gain c)%Q) ∧
        champion_target ps good allocation graph target
        = Ok (graph ++ [(name target, name c)])%list)
  ∨ (¬ wanted ∧ champion_target ps good allocation graph target = Ok graph).
Proof.
  intros Hready Ht Hfresh gain wanted. unfold champion_target, dict_get.
  destruct (proj1 Hready target Ht) as [bundle Hb]. rewrite Hb.
  cbn [mbind result_bind].
  destruct (champion_loop_spec ps good allocation target bundle Hready Ht Hb
              ps (λ q Hq, Hq) (None, (-1)%Q, None)) as (st & -> & Hst);
    [done|].
  cbn [mbind result_bind]. destruct st as [[[c|] best_gain] u]; simpl in Hst.
  - destruct Hst as (-> & [[Hc Hne]|Hc] & _ & Hmax); [|done].
    fold gain in Hmax. fold (gain c).
    destruct (Qltb 0 (gain c)) eqn:Hpos.
    + apply Qltb_true in Hpos. left. split; [by exists c|].
      exists c. split; [done|]. split; [done|]. split; [done|].
      split; [done|]. by rewrite alist_insert_fresh.
    + apply Qltb_false in Hpos. right. split; [|done].
      intros (q & Hq & Hqne & Hqpos). specialize (Hmax q Hq Hqne).
      subst gain. cbv beta in *. lra.
  - destruct Hst as [_ Hmax]. right. split; [|done].
    intros (q & Hq & Hqne & Hqpos). specialize (Hmax q Hq Hqne).
    subst gain. cbv beta in *. lra.
Qed.

Lemma champion_graph_spec (ps : list Player) (good : string)
    (allocation : gmap string (list string)) :
  NoDup (name <$> ps) →
  allocation_ready ps good allocation →
  ∃ graph,
    _build_champion_graph ps good allocation = Ok graph ∧
    NoDup graph.*1 ∧
    (∀ target, target ∈ ps →
       (name target ∈ graph.*1 ↔
        ∃ q, q ∈ ps ∧ name q ≠ name target ∧
             (0 < champion_gain allocation good q target)%Q)) ∧
    (∀ t c, (t, c) ∈ graph →
       ∃ target champion, target ∈ ps ∧ champion ∈ ps ∧
         name target = t ∧ name champion = c ∧ t ≠ c ∧
         (0 < champion_gain allocation good champion target)%Q ∧
         ∀ q, q ∈ ps → name q ≠ t →
           (champion_gain allocation good q target
            <= champion_gain allocation good champion target)%Q).
Proof.
  intros Hnd Hready. unfold _build_champion_graph.
  assert (∀ outer done graph0,
            ps = (done ++ outer)%list →
            graph0.*1 ⊆ name <$> done → NoDup graph0.*1 →
            ∃ graph,
              for_each (champion_target ps good allocation) outer graph0
              = Ok graph ∧
              NoDup graph.*1 ∧ graph.*1 ⊆ name <$> ps ∧
              (∀ target, target ∈ outer →
                 (name target ∈ graph.*1 ↔
                  ∃ q, q ∈ ps ∧ name q ≠ name target ∧
                       (0 < champion_gain allocation good q target)%Q)) ∧
              (∀ n, n ∈ name <$> done → n ∈ graph.*1 ↔ n ∈ graph0.*1) ∧
              (∀ t c, (t, c) ∈ graph → (t, c) ∈ graph0 ∨
                 ∃ target champion, target ∈ ps ∧ champion ∈ ps ∧
                   name target = t ∧ name champion = c ∧ t ≠ c ∧
                   (0 < champion_gain allocation good champion target)%Q ∧
                   ∀ q, q ∈ ps → name q ≠ t →
                     (champion_gain allocation good q target
                      <= champion_gain allocation good champion target)%Q))
    as Hgen.
  { induction outer as [|t outer IH]; intros done graph0 Hps Hkeys Hnd0.
    - exists graph0. split; [done|]. split; [done|].
      rewrite app_nil_r in Hps. subst done. split; [done|].
      split; [intros ? Hin; by apply elem_of_nil in Hin|].
      split; [done|]. intros t c Hin. by left.
    - rewrite for_each_cons.
      assert (t ∈ ps) as Ht by (rewrite Hps, elem_of_app; right; left).
      assert (NoDup (name <$> (done ++ t :: outer)%list)) as Hnd'
        by by rewrite <- Hps.
      rewrite fmap_app, fmap_cons in Hnd'.
      apply NoDup_app in Hnd' as (_ & Hdisj & Hnd').
      apply NoDup_cons in Hnd' as [Hfreshout _].
      assert (name t ∉ graph0.*1) as Hfresh.
      { intros Hin. apply (Hdisj (name t)); [by apply Hkeys | left]. }
      assert (∃ graph1,
                champion_target ps good allocation graph0 t = Ok graph1 ∧
                (graph1 = graph0 ∨ ∃ c, graph1 = (graph0 ++ [(name t, c)])%list) ∧
                (name t ∈ graph1.*1 ↔
                 ∃ q, q ∈ ps ∧ name q ≠ name t ∧
                      (0 < champion_gain allocation good q t)%Q) ∧
                (∀ t' c, (t', c) ∈ graph1 → (t', c) ∈ graph0 ∨
                   ∃ target champion, target ∈ ps ∧ champion ∈ ps ∧
                     name target = t' ∧ name champion = c ∧ t' ≠ c ∧
                     (0 < champion_gain allocation good champion target)%Q ∧
                     ∀ q, q ∈ ps → name q ≠ t' →
                       (champion_gain allocation good q target
                        <= champion_gain allocation good champion target)%Q))
        as (graph1 & -> & Hshape & Hkey & Hedges).
      { destruct (champion_target_spec ps good allocation graph0 t Hready Ht
                    Hfresh)
          as [(Hwanted & c & Hc & Hne & Hpos & Hmax & Hrun)|[Hnot Hrun]].
        - eexists. split; [done|]. split; [right; by exists (name c)|].
          split.
          + split; [done|]. intros _. rewrite fmap_app, elem_of_app.
            right. left.
          + intros t' c' [Hin|Hin]%elem_of_app; [by left|].
            apply list_elem_of_singleton in Hin as [= -> ->]. right.
            exists t, c. split; [done|]. split; [done|]. split; [done|].
            split; [done|]. split; [by intros Heq; apply Hne|]. done.
        - exists graph0. split; [done|]. split; [by left|]. split.
          + split; [by intros Hin | by intros Hw].
          + intros t' c' Hin. by left. }
      cbn [mbind result_bind].
      assert (graph1.*1 ⊆ name <$> (done ++ [t])%list) as Hkeys1.
      { rewrite fmap_app. destruct Hshape as [->|[c ->]].
        - intros n Hn. apply elem_of_app. left. by apply Hkeys.
        - rewrite fmap_app. intros n [Hn|Hn]%elem_of_app; apply elem_of_app;
            [left; by apply Hkeys | by right]. }
      assert (NoDup graph1.*1) as Hnd1.
      { destruct Hshape as [->|[c ->]]; [done|].
        rewrite fmap_app. apply NoDup_app. split; [done|].
        split; [|apply NoDup_singleton].
        intros n Hn ->%list_elem_of_singleton. done. }
      destruct (IH (done ++ [t])%list graph1) as
        (graph & -> & Hndg & Hsubg & Hiff & Hsame & Hedgesg);
        [by rewrite <- app_assoc | done | done |].
      exists graph. split; [done|]. split; [done|]. split; [done|].
      split; [|split].
      + intros target [->|Hin]%elem_of_cons; [|by apply Hiff].
        rewrite <- Hkey. apply Hsame. rewrite fmap_app, elem_of_app.
        right. left.
      + intros n Hn. rewrite Hsame by (rewrite fmap_app, elem_of_app; by left).
        destruct Hshape as [->|[c ->]]; [done|].
        rewrite fmap_app, elem_of_app. split; [|by left].
        intros [?|Hin]; [done|]. apply list_elem_of_singleton in Hin.
        simpl in Hin. subst n. destruct (Hdisj (name t) Hn). left.
      + intros t' c' Hin. destruct (Hedgesg t' c' Hin) as [Hin1|?]; [|by right].
        by apply Hedges. }
  destruct (Hgen ps [] []) as (graph & Hrun & Hndg & _ & Hiff & _ & Hedges);
    [done | done | apply NoDup_nil_2 |].
  exists graph. split; [done|]. split; [done|]. split; [done|].
  intros t c Hin. destruct (Hedges t c Hin) as [Hnil|?]; [|done].
  by apply elem_of_nil in Hnil.
Qed.



(** ** Phase 1B: the cycles found are cycles of the graph *)

Lemma from_first_suffix (node : string) (path cycle : list string) :
  from_first node path = Ok cycle →
  ∃ pre rest, path = (pre ++ cycle)%list ∧ cycle = node :: rest.
Proof.
  induction path as [|x path IH]; [done|]. simpl. case_bool_decide as Hx.
  - intros [= <-]. exists [], path. by rewrite Hx.
  - intros Hrun. destruct (IH Hrun) as (pre & rest & -> & ->).
    by exists (x :: pre), rest.
Qed.

Lemma chain_of_suffix (graph : list (string * string))
    (pre path : list string) :
  chain_of graph (pre ++ path) → chain_of graph path.
Proof.
  intros Hchain i a b Ha Hb. apply (Hchain (length pre + i)%nat).
  - by rewrite lookup_app_r, Nat.add_comm, Nat.add_sub by lia.
  - replace (S (length pre + i)) with (length pre + S i)%nat by lia.
    by rewrite lookup_app_r, Nat.add_comm, Nat.add_sub by lia.
Qed.

Lemma chain_of_snoc (graph : list (string * string)) (path : list string)
    (node : string) :
  chain_of graph path →
  (∀ l, last path = Some l → alist_lookup l graph = Some node) →
  chain_of graph (path ++ [node]).
Proof.
  intros Hchain Hlast i a b Ha Hb.
  destruct (decide (S i < length path)%nat) as [Hlt|Hge].
  - rewrite lookup_app_l in Ha, Hb by lia. by apply (Hchain i).
  - apply lookup_lt_Some in Hb as Hlen. rewrite length_app in Hlen.
    simpl in Hlen. assert (S i = length path) as Hi by lia.
    rewrite lookup_app_l in Ha by lia.
    rewrite lookup_app_r in Hb by lia.
    rewrite Hi, Nat.sub_diag in Hb. injection Hb as <-.
    apply Hlast. rewrite last_lookup. rewrite <- Hi. simpl. done.
Qed.

Lemma walk_of_chain (graph : list (string * string)) (first : string)
    (nodes : list string) :
  nodes ≠ [] → chain_of graph nodes →
  (∀ l, last nodes = Some l → alist_lookup l graph = Some first) →
  walk_of graph first nodes.
Proof.
  induction nodes as [|n nodes IH]; intros Hne Hchain Hlast; [done|].
  destruct nodes as [|m nodes].
  - simpl. by apply Hlast.
  - cbn [walk_of]. split.
    + by apply (Hchain 0%nat).
    + apply IH; [done| |].
      * apply (chain_of_suffix graph [n]). done.
      * intros l Hl. apply Hlast. by rewrite last_cons, Hl.
Qed.

Lemma dfs_sound (graph : list (string * string)) (depth : nat) :
  ∀ (visited : gset string) (node : string) (path : list string)
    (rec_stack : gset string) r cycle,
    chain_of graph path → NoDup path →
    (∀ l, last path = Some l → alist_lookup l graph = Some node) →
    (∀ n, n ∈ rec_stack ↔ n ∈ path) →
    dfs depth graph visited node path rec_stack = Ok r →
    r.1 = Some cycle →
    is_cycle_of graph cycle.
Proof.
  induction depth as [|depth IH];
    intros visited node path rec_stack r cycle Hchain Hnd Hlast Hstack Hrun Hr;
    [done|].
  cbn [dfs] in Hrun. case_bool_decide as Hrec.
  { destruct (from_first node path) as [c|] eqn:Hc;
      cbn [mbind result_bind] in Hrun; [|done].
    injection Hrun as <-. simpl in Hr. injection Hr as ->.
    destruct (from_first_suffix node path cycle Hc) as (pre & rest & -> & ->).
    split.
    - apply walk_of_chain; [done | by apply (chain_of_suffix graph pre) |].
      intros l Hl. apply Hlast. rewrite last_app. by rewrite Hl.
    - by apply NoDup_app in Hnd as (_ & _ & ?). }
  case_bool_decide as Hvis.
  { injection Hrun as <-. done. }
  destruct (alist_lookup node graph) as [next|] eqn:Hnext.
  2:{ injection Hrun as <-. done. }
  destruct (dfs depth graph ({[node]} ∪ visited) next (path ++ [node])%list
              ({[node]} ∪ rec_stack)) as [r'|] eqn:Hrec';
    cbn [mbind result_bind] in Hrun; [|done].
  assert (∀ c, r'.1 = Some c → is_cycle_of graph c) as Hsub.
  { intros c Hc.
    apply (IH ({[node]} ∪ visited) next (path ++ [node])%list
             ({[node]} ∪ rec_stack) r' c); try done.
    - by apply chain_of_snoc.
    - apply NoDup_app. split; [done|]. split; [|apply NoDup_singleton].
      intros n Hn ->%list_elem_of_singleton. apply Hrec. by apply Hstack.
    - intros l. rewrite last_snoc. by intros [= <-].
    - intros n. rewrite elem_of_union, elem_of_singleton, elem_of_app,
        list_elem_of_singleton, Hstack. tauto. }
  destruct r'.1 as [[|c0 c]|] eqn:Hr'; injection Hrun as <-; simpl in Hr;
    try done.
  injection Hr as <-. by apply Hsub.
Qed.

Lemma alist_lookup_elem (k v : string) (graph : list (string * string)) :
  alist_lookup k graph = Some v → (k, v) ∈ graph.
Proof.
  unfold alist_lookup.
  destruct (list_find _ graph) as [[i [k' v']]|] eqn:E; [|done].
  intros [= ->]. apply list_find_Some in E as (Hi & Hk & _).
  simpl in Hk. subst k'. by eapply list_elem_of_lookup_2.
Qed.

Lemma find_all_cycles_spec (graph : list (string * string)) :
  (2 * length graph < recursion_limit)%nat →
  ∃ cycles,
    _find_all_cycles graph = Ok cycles ∧
    NoDup cycles ∧
    (∀ cycle, cycle ∈ cycles → is_cycle_of graph cycle) ∧
    ((∀ t c, (t, c) ∈ graph → t ≠ c) →
     ∀ cycle, cycle ∈ cycles → (2 ≤ length cycle)%nat).
Proof.
  intros Hsmall.
  destruct (find_all_cycles_Ok graph Hsmall) as [cycles Hrun].
  exists cycles. split; [done|].
  unfold _find_all_cycles in Hrun.
  destruct (for_each (cycles_step graph) graph.*1 (∅, [])) as [st|] eqn:Hloop;
    cbn [mbind result_bind] in Hrun; [|done].
  injection Hrun as <-.
  assert (∀ l st0 st1,
            for_each (cycles_step graph) l st0 = Ok st1 →
            NoDup st0.2 → (∀ c, c ∈ st0.2 → is_cycle_of graph c) →
            NoDup st1.2 ∧ ∀ c, c ∈ st1.2 → is_cycle_of graph c) as Hgen.
  { induction l as [|start l IH]; intros st0 st1 Hl Hnd Hall.
    - by injection Hl as <-.
    - rewrite for_each_cons in Hl.
      destruct (cycles_step graph st0 start) as [st'|] eqn:Hstep;
        cbn [mbind result_bind] in Hl; [|done].
      apply (IH st' st1 Hl).
      + destruct st0 as [visited all_cycles]. unfold cycles_step in Hstep.
        case_bool_decide; [by injection Hstep as <-|].
        destruct (dfs recursion_limit graph visited start [] ∅) as [r|];
          cbn [mbind result_bind] in Hstep; [|done].
        destruct r.1 as [[|c0 c]|]; try by injection Hstep as <-.
        case_bool_decide as Hin; injection Hstep as <-; [done|]. simpl.
        apply NoDup_app. split; [done|]. split; [|apply NoDup_singleton].
        intros x Hx ->%list_elem_of_singleton. done.
      + destruct st0 as [visited all_cycles]. unfold cycles_step in Hstep.
        case_bool_decide; [by injection Hstep as <-|].
        destruct (dfs recursion_limit graph visited start [] ∅) as [r|] eqn:Hdfs;
          cbn [mbind result_bind] in Hstep; [|done].
        assert (∀ c, r.1 = Some c → is_cycle_of graph c) as Hsound.
        { intros c Hc.
          apply (dfs_sound graph recursion_limit visited start [] ∅ r c);
            [by intros i a b Ha | apply NoDup_nil_2 | done | | done | done].
          intros n. split; intros Hn;
            [by apply elem_of_empty in Hn | by apply elem_of_nil in Hn]. }
        destruct r.1 as [[|c0 c]|]; try by injection Hstep as <-.
        case_bool_decide as Hin; injection Hstep as <-; [done|]. simpl.
        intros x [Hx|Hx]%elem_of_app; [by apply Hall|].
        apply list_elem_of_singleton in Hx as ->. by apply Hsound. }
  destruct (Hgen _ _ _ Hloop) as [Hnd Hall]; [apply NoDup_nil_2| |].
  { intros c Hc. by apply elem_of_nil in Hc. }
  split; [done|]. split; [done|].
  intros Hloops cycle Hin. specialize (Hall cycle Hin).
  destruct cycle as [|n [|m rest]]; [done| |simpl; lia].
  destruct Hall as [Hwalk _]. simpl in Hwalk.
  apply alist_lookup_elem in Hwalk. by destruct (Hloops n n Hwalk).
Qed.

(** X18. Every cycle reported by the search is a cycle of the graph: its nodes
    are distinct, each is followed by the node its edge points to, and the
    last one points back to the first. No cycle is reported twice, and in
    a graph without self-loops every cycle has at least two nodes. *)
Theorem find_all_cycles_sound (graph : list (string * string)) :
  (2 * length graph < recursion_limit)%nat →
  ∃ cycles,
    _find_all_cycles graph = Ok cycles ∧
    NoDup cycles ∧
    (∀ cycle, cycle ∈ cycles → is_cycle_of graph cycle) ∧
    ((∀ t c, (t, c) ∈ graph → t ≠ c) →
     ∀ cycle, cycle ∈ cycles → (2 ≤ length cycle)%nat).
Proof. apply find_all_cycles_spec. Qed.

Lemma find_all_cycles_sound_witness :
  ∃ cycles,
    _find_all_cycles [("P1", "P2"); ("P2", "P3"); ("P3", "P1")] = Ok cycles ∧
    NoDup cycles.
Proof.
  destruct (find_all_cycles_sound [("P1", "P2"); ("P2", "P3"); ("P3", "P1")])
    as (cycles & Hrun & Hnd & _).
  - vm_compute. lia.
  - by exists cycles.
Defined.

(** ** Phase 1A: the top options of a player *)

Lemma insert_desc_sorted {A} (key : A → Q) (x : A) (l : list A) :
  StronglySorted (descending key) l →
  StronglySorted (descending key) (insert_desc key x l).
Proof.
  induction l as [|y l IH]; intros Hsorted; simpl.
  - apply StronglySorted_cons. split; [done | constructor].
  - apply StronglySorted_cons in Hsorted as [Hy Hl].
    destruct (Qltb (key x) (key y)) eqn:E.
    + apply Qltb_true in E. apply StronglySorted_cons. split; [|by apply IH].
      rewrite Forall_forall. intros z Hz. rewrite insert_desc_perm in Hz.
      apply elem_of_cons in Hz as [->|Hz].
      * unfold descending. lra.
      * rewrite Forall_forall in Hy. by apply Hy.
    + apply Qltb_false in E. apply StronglySorted_cons. split.
      * rewrite Forall_forall. intros z [->|Hz]%elem_of_cons; [done|].
        rewrite Forall_forall in Hy. specialize (Hy z Hz).
        unfold descending in *. lra.
      * apply StronglySorted_cons. done.
Qed.

Lemma sort_desc_sorted {A} (key : A → Q) (l : list A) :
  StronglySorted (descending key) (sort_desc key l).
Proof.
  unfold sort_desc. induction l as [|x l IH]; simpl; [constructor|].
  by apply insert_desc_sorted.
Qed.

Lemma mapM_options_raises (p : Player) (available_goods : list string)
    (g : string) :
  g ∈ available_goods → ¬ is_Ok (get_valuation p g) →
  ¬ is_Ok (mapM (λ g, v ← get_valuation p g; Ok (mkChoice g v None))
             available_goods).
Proof.
  induction available_goods as [|x l IH]; intros Hg Hbad [r Hr];
    [by apply elem_of_nil in Hg|].
  simpl in Hr. destruct (get_valuation p x) as [v|e] eqn:Hx;
    cbn [mbind result_bind] in Hr; [|done].
  apply elem_of_cons in Hg as [->|Hg]; [apply Hbad; by exists v|].
  destruct (mapM _ l) as [r'|e] eqn:Hl; [|done].
  apply (IH Hg Hbad). by exists r'.
Qed.

(** X19. The top options of a player are the [top_n] most valued available
    goods, each with the player's value, in decreasing order of value:
    there are [min(top_n, number of goods)] of them and no good left out
    is valued more than a good kept. A good without valuation makes the
    function raise. *)
Theorem top_options_sorted (p : Player) (available_goods : list string)
    (top_n : Z) :
  (0 <= top_n)%Z →
  (knows_goods p available_goods →
   ∃ options,
     _get_top_options p available_goods top_n = Ok options ∧
     length options = (Z.to_nat top_n `min` length available_goods)%nat ∧
     StronglySorted (descending value) options ∧
     (∀ o, o ∈ options →
        good o ∈ available_goods ∧ value o = value_of p (good o) ∧
        metrics o = None) ∧
     (NoDup available_goods → NoDup (good <$> options)) ∧
     (NoDup available_goods →
      ∀ g o, g ∈ available_goods → g ∉ good <$> options → o ∈ options →
        (value_of p g <= value o)%Q)) ∧
  (∀ g, g ∈ available_goods → ¬ is_Ok (get_valuation p g) →
     ¬ is_Ok (_get_top_options p available_goods top_n)).
Proof.
  intros Hn. split.
  - intros Hk. rewrite get_top_options_Ok by done.
    set (sorted := sort_desc value (plain_options p available_goods)).
    assert (sorted ≡ₚ plain_options p available_goods) as Hperm
      by apply sort_desc_perm.
    assert (good <$> plain_options p available_goods = available_goods)
      as Hgoods.
    { unfold plain_options. rewrite <- list_fmap_compose.
      clear. induction available_goods as [|g l IH]; [done|].
      rewrite fmap_cons. simpl. by rewrite IH. }
    assert (length sorted = length available_goods) as Hlen.
    { rewrite (Permutation_length Hperm). unfold plain_options.
      by rewrite length_fmap. }
    pose proof (sort_desc_sorted value (plain_options p available_goods))
      as Hsorted. fold sorted in Hsorted.
    unfold slice_to. rewrite (proj2 (Z.leb_le 0 top_n) Hn).
    set (k := Z.to_nat top_n).
    rewrite <- (take_drop k sorted) in Hsorted.
    eexists. split; [done|]. split; [|split; [|split; [|split]]].
    + rewrite length_take, Hlen. done.
    + by apply StronglySorted_app_1_l in Hsorted.
    + intros o Ho. apply (subseteq_take k sorted) in Ho.
      rewrite Hperm in Ho. unfold plain_options in Ho.
      apply list_elem_of_fmap in Ho as (g & -> & Hg). done.
    + intros Hnd. rewrite fmap_take.
      apply (sublist_NoDup _ (good <$> sorted)); [|apply sublist_take].
      by rewrite Hperm, Hgoods.
    + intros Hnd g o Hg Hout Ho.
      assert (mkChoice g (value_of p g) None ∈ sorted) as Hin.
      { rewrite Hperm. unfold plain_options.
        by apply (list_elem_of_fmap_2 (λ g, mkChoice g (value_of p g) None)). }
      rewrite <- (take_drop k sorted) in Hin.
      apply elem_of_app in Hin as [Hin|Hin].
      * destruct Hout. by apply (list_elem_of_fmap_2 good) in Hin.
      * apply (StronglySorted_app_1_elem_of _ _ _ o _ Hsorted Ho Hin).
  - intros g Hg Hbad [r Hr]. unfold _get_top_options in Hr.
    destruct (mapM _ available_goods) as [options|e] eqn:Hm;
      cbn [mbind result_bind] in Hr; [|done].
    apply (mapM_options_raises p available_goods g Hg Hbad).
    rewrite Hm. by eexists.
Qed.

Lemma top_options_sorted_witness :
  ∃ options,
    _get_top_options
      (Player_init "P1" {[ "A" := 5%Q; "B" := 3%Q; "C" := 1%Q; "D" := 2%Q ]})
      ["A"; "B"; "C"; "D"] 3 = Ok options ∧
    length options = 3%nat.
Proof.
  destruct (top_options_sorted
              (Player_init "P1"
                 {[ "A" := 5%Q; "B" := 3%Q; "C" := 1%Q; "D" := 2%Q ]})
              ["A"; "B"; "C"; "D"] 3) as [Hgood _]; [lia|].
  destruct Hgood as (options & Hrun & Hlen & _).
  - intros g Hg. elem_cases Hg; eexists; vm_compute; reflexivity.
  - by exists options.
Defined.
